(** * MyLocalBarista: the customization panel and the waitlist form

    A shallow embedding of [js/customization.js] (class
    [CustomizationController]) and [js/form-handler.js] (class
    [WaitlistFormHandler]), and the properties of the two controllers;
    with them, of the main script, its Escape listener and its two rate
    limiters.

    Conventions.
    - A JavaScript string is a Rocq [string], one [ascii] per UTF-16 code
      unit; this covers the code units 0 to 255.
    - The page (DOM, [localStorage], the network, the console) is an
      explicit state; a method that can raise runs in the state-and-exception
      monad [JS.M].
    - The page markup is not part of the sources, so what a method reads from
      an element (its [id], [type], [required], the group it sits in) is a
      field of the element's record. *)

From Stdlib Require Import Ascii String List Bool Arith Lia.
From stdpp Require Import base option list strings gmap.

Import ListNotations.

Set Default Proof Using "Type".
Set Warnings "-register-all".

(** ** JavaScript values and built-ins used by the two controllers *)

Module JS.

(** *** Code units *)

Definition code (c : ascii) : nat := nat_of_ascii c.

Definition in_range (lo hi : nat) (c : ascii) : bool :=
  (lo <=? code c) && (code c <=? hi).

(** [\s] of a regular expression, which is also what [String.prototype.trim]
    strips: WhiteSpace and LineTerminator.  Below 256 these are TAB, LF, VT,
    FF, CR, SP and NBSP. *)
Definition is_space (c : ascii) : bool :=
  in_range 9 13 c || (code c =? 32) || (code c =? 160).

(** [\d] *)
Definition is_digit (c : ascii) : bool := in_range 48 57 c.

Definition is_hex_digit (c : ascii) : bool :=
  is_digit c || in_range 65 70 c || in_range 97 102 c.

(** The capital of a code unit, as [toUpperCase] writes it: the letters
    [a] to [z] and, above them, the letters 224 to 254 (the division sign
    247 is none) lie 32 above their capitals; the sharp s, 223, becomes
    [SS].  The capitals of the micro sign, 181, and of 255 lie above 255,
    outside the code units of a [string]: these two are kept, and the
    statements that go through [toUpperCase] are about texts without
    them. *)
Definition upper_char (c : ascii) : string :=
  if in_range 97 122 c || (in_range 224 254 c && negb (code c =? 247))
  then String (ascii_of_nat (code c - 32)) EmptyString
  else if code c =? 223 then "SS"
  else String c EmptyString.

(** The small letter of a code unit: the capitals [A] to [Z] and 192 to
    222 (the multiplication sign 215 is none) lie 32 below. *)
Definition lower_char (c : ascii) : ascii :=
  if in_range 65 90 c || (in_range 192 222 c && negb (code c =? 215))
  then ascii_of_nat (code c + 32) else c.

(** *** Strings *)

Fixpoint map_string (f : ascii -> ascii) (s : string) : string :=
  match s with
  | EmptyString => EmptyString
  | String c s' => String (f c) (map_string f s')
  end.

(** [s.toUpperCase()] *)
Fixpoint toUpperCase (s : string) : string :=
  match s with
  | EmptyString => EmptyString
  | String c s' => String.append (upper_char c) (toUpperCase s')
  end.

(** [s.toLowerCase()] *)
Definition toLowerCase : string -> string := map_string lower_char.

Fixpoint trimStart (s : string) : string :=
  match s with
  | EmptyString => EmptyString
  | String c s' => if is_space c then trimStart s' else s
  end.

(** Strips the trailing white space: a code unit is kept when it is not
    white space or when something is kept after it. *)
Fixpoint trimEnd (s : string) : string :=
  match s with
  | EmptyString => EmptyString
  | String c s' =>
      match trimEnd s' with
      | EmptyString => if is_space c then EmptyString else String c EmptyString
      | t => String c t
      end
  end.

(** [s.trim()] *)
Definition trim (s : string) : string := trimEnd (trimStart s).

(** [s.startsWith(p)] *)
Definition startsWith (p s : string) : bool := String.prefix p s.

(** Truthiness of a string: the empty string is the only falsy one. *)
Definition truthy (s : string) : bool :=
  match s with EmptyString => false | _ => true end.

(** [a || b] on strings. *)
Definition or_else (a b : string) : string := if truthy a then a else b.

Definition chars (s : string) : list ascii := list_ascii_of_string s.

(** Every code unit of [s] satisfies [p]. *)
Definition all (p : ascii -> bool) (s : string) : bool := forallb p (chars s).

(** *** Values

    The values the two controllers handle are strings, [undefined], and what
    an object literal inherits from [Object.prototype]: [Native name] is the
    built-in function or object found under the key [name]. *)

Inductive value : Type :=
| Undefined
| Str (s : string)
| Native (name : string).

Definition value_truthy (v : value) : bool :=
  match v with
  | Undefined => false
  | Str s => truthy s
  | Native _ => true
  end.

(** ToString of a string or [undefined] ([None]), as a DOM setter applies it
    to its argument. *)
Definition to_string (v : option string) : string :=
  match v with
  | None => "undefined"
  | Some s => s
  end.

(** *** Property lookup on an object literal

    [obj[key]] on an object written as a literal finds the own property
    [key], and otherwise what [Object.prototype] has under that name. *)

Definition Object_prototype_keys : list string :=
  [ "constructor"; "hasOwnProperty"; "isPrototypeOf";
    "propertyIsEnumerable"; "toLocaleString"; "toString"; "valueOf";
    "__defineGetter__"; "__defineSetter__"; "__lookupGetter__";
    "__lookupSetter__"; "__proto__" ].

Inductive property (A : Type) : Type :=
| Own (a : A)
| Inherited (name : string)
| Missing.
Arguments Own {A} a.
Arguments Inherited {A} name.
Arguments Missing {A}.

Fixpoint own_property {A} (obj : list (string * A)) (key : string) : option A :=
  match obj with
  | [] => None
  | (k, a) :: rest => if String.eqb k key then Some a else own_property rest key
  end.

Definition inherited (key : string) : bool :=
  existsb (String.eqb key) Object_prototype_keys.

Definition get {A} (obj : list (string * A)) (key : string) : property A :=
  match own_property obj key with
  | Some a => Own a
  | None => if inherited key then Inherited key else Missing
  end.

(** *** Exceptions, and computations over a state *)

Inductive error : Type :=
| SyntaxError
| TypeError
| QuotaExceededError
| NetworkError.

Inductive outcome (A : Type) : Type :=
| Returns (a : A)
| Throws (e : error).
Arguments Returns {A} a.
Arguments Throws {A} e.

Definition M (S A : Type) : Type := S -> outcome A * S.

Section Monad.
Context {S : Type}.

Definition ret {A} (a : A) : M S A := fun s => (Returns a, s).

Definition bind {A B} (m : M S A) (k : A -> M S B) : M S B :=
  fun s =>
    match m s with
    | (Returns a, s') => k a s'
    | (Throws e, s') => (Throws e, s')
    end.

Definition throw {A} (e : error) : M S A := fun s => (Throws e, s).

(** [try { m } catch (e) { h e }] *)
Definition try_catch {A} (m : M S A) (h : error -> M S A) : M S A :=
  fun s =>
    match m s with
    | (Returns a, s') => (Returns a, s')
    | (Throws e, s') => h e s'
    end.

(** [try { m } finally { f }]: [f] runs on both paths, and the outcome of
    [m] stands unless [f] itself raises. *)
Definition try_finally {A} (m : M S A) (f : M S unit) : M S A :=
  fun s =>
    match m s with
    | (r, s') =>
        match f s' with
        | (Returns _, s'') => (r, s'')
        | (Throws e, s'') => (Throws e, s'')
        end
    end.

Definition gets {A} (f : S -> A) : M S A := fun s => (Returns (f s), s).
Definition modify (f : S -> S) : M S unit := fun s => (Returns tt, f s).

Definition when (b : bool) (m : M S unit) : M S unit :=
  if b then m else ret tt.

(** [l.forEach(f)] *)
Fixpoint forEach {A} (f : A -> M S unit) (l : list A) : M S unit :=
  match l with
  | [] => ret tt
  | a :: l' => bind (f a) (fun _ => forEach f l')
  end.

(** The state a computation leaves, and its outcome. *)
Definition exec {A} (m : M S A) (s : S) : S := snd (m s).
Definition eval {A} (m : M S A) (s : S) : outcome A := fst (m s).

End Monad.

Module Notations.
Declare Scope js_scope.
Delimit Scope js_scope with js.
Notation "x <- m ;; k" := (bind m (fun x => k))
  (at level 100, m at next level, right associativity) : js_scope.
Notation "m ;; k" := (bind m (fun _ => k))
  (at level 100, right associativity) : js_scope.
End Notations.

End JS.

(** ** Regular expressions

    The two patterns of the form handler are anchored at both ends ([^] and
    [$], no flags), so [test] is a match of the whole string.  The matcher
    works by derivatives. *)

Module RegExp.

Inductive regex : Type :=
| Fail
| Eps
| Class (p : ascii -> bool)
| Seq (r1 r2 : regex)
| Alt (r1 r2 : regex)
| Star (r : regex).

(** [r+] *)
Definition Plus (r : regex) : regex := Seq r (Star r).

(** [r{n}] *)
Fixpoint Times (n : nat) (r : regex) : regex :=
  match n with
  | O => Eps
  | S n' => Seq r (Times n' r)
  end.

Fixpoint nullable (r : regex) : bool :=
  match r with
  | Fail => false
  | Eps => true
  | Class _ => false
  | Seq r1 r2 => nullable r1 && nullable r2
  | Alt r1 r2 => nullable r1 || nullable r2
  | Star _ => true
  end.

Fixpoint deriv (c : ascii) (r : regex) : regex :=
  match r with
  | Fail => Fail
  | Eps => Fail
  | Class p => if p c then Eps else Fail
  | Seq r1 r2 =>
      if nullable r1
      then Alt (Seq (deriv c r1) r2) (deriv c r2)
      else Seq (deriv c r1) r2
  | Alt r1 r2 => Alt (deriv c r1) (deriv c r2)
  | Star r1 => Seq (deriv c r1) (Star r1)
  end.

Fixpoint matches (r : regex) (s : list ascii) : bool :=
  match s with
  | [] => nullable r
  | c :: s' => matches (deriv c r) s'
  end.

(** [/^r$/.test(s)] *)
Definition test (r : regex) (s : string) : bool := matches r (JS.chars s).

(** The language of a pattern. *)
Inductive lang : regex -> list ascii -> Prop :=
| lang_eps : lang Eps []
| lang_class p c : p c = true -> lang (Class p) [c]
| lang_seq r1 r2 s1 s2 : lang r1 s1 -> lang r2 s2 -> lang (Seq r1 r2) (s1 ++ s2)
| lang_alt_l r1 r2 s : lang r1 s -> lang (Alt r1 r2) s
| lang_alt_r r1 r2 s : lang r2 s -> lang (Alt r1 r2) s
| lang_star_nil r : lang (Star r) []
| lang_star_cons r s1 s2 :
    lang r s1 -> lang (Star r) s2 -> lang (Star r) (s1 ++ s2).

End RegExp.

(** ** JSON

    [JSON.parse] and [JSON.stringify], on the values that JSON text denotes.
    A number is kept as its literal (its conversion to a double and back is
    not modelled), and an object as its members in the order of the text.
    A [\u] escape above [00ff] denotes a code unit outside the range of the
    string model and is not accepted.  On the [canonical] values below, and
    on the texts written for them, nothing of this matters: there the two
    functions are those of the language, and the statements about the
    stored log are made there. *)

Module JSON.

Inductive json : Type :=
| JNull
| JBool (b : bool)
| JNum (lit : string)
| JStr (s : string)
| JArr (items : list json)
| JObj (members : list (string * json)).

(** *** Lexical elements *)

(** JSON white space: SP, TAB, LF, CR. *)
Definition is_ws (c : ascii) : bool :=
  (JS.code c =? 32) || (JS.code c =? 9) || (JS.code c =? 10) || (JS.code c =? 13).

Fixpoint skip_ws (s : string) : string :=
  match s with
  | String c s' => if is_ws c then skip_ws s' else s
  | EmptyString => EmptyString
  end.

(** The code units a number literal is made of. *)
Definition is_num_char (c : ascii) : bool :=
  JS.is_digit c || (JS.code c =? 43) || (JS.code c =? 45) || (JS.code c =? 46)
  || (JS.code c =? 69) || (JS.code c =? 101).

Fixpoint span_num (s : string) : string * string :=
  match s with
  | String c s' =>
      if is_num_char c
      then let (lit, rest) := span_num s' in (String c lit, rest)
      else (EmptyString, s)
  | EmptyString => (EmptyString, EmptyString)
  end.

Fixpoint drop_digits (s : string) : string :=
  match s with
  | String c s' => if JS.is_digit c then drop_digits s' else s
  | EmptyString => EmptyString
  end.

(** [e] or [E], an optional sign, one digit or more, and the end. *)
Definition exp_ok (s : string) : bool :=
  match s with
  | EmptyString => true
  | String c s1 =>
      ((JS.code c =? 69) || (JS.code c =? 101)) &&
      let s2 :=
        match s1 with
        | String g s2 => if (JS.code g =? 43) || (JS.code g =? 45) then s2 else s1
        | EmptyString => s1
        end in
      match s2 with
      | String d s3 => JS.is_digit d && String.eqb (drop_digits s3) EmptyString
      | EmptyString => false
      end
  end.

Definition frac_exp_ok (s : string) : bool :=
  match s with
  | String c s1 =>
      if JS.code c =? 46
      then match s1 with
           | String d s2 => JS.is_digit d && exp_ok (drop_digits s2)
           | EmptyString => false
           end
      else exp_ok s
  | EmptyString => true
  end.

(** The grammar of a JSON number: an optional minus sign; a zero, or a
    digit from 1 to 9 and any digits; optionally a point and one digit or
    more; optionally an exponent. *)
Definition number_ok (s : string) : bool :=
  let s1 :=
    match s with
    | String c r => if JS.code c =? 45 then r else s
    | EmptyString => s
    end in
  match s1 with
  | String c r =>
      if JS.code c =? 48 then frac_exp_ok r
      else if JS.in_range 49 57 c then frac_exp_ok (drop_digits r)
      else false
  | EmptyString => false
  end.

Definition hex_value (c : ascii) : option nat :=
  if JS.is_digit c then Some (JS.code c - 48)
  else if JS.in_range 65 70 c then Some (JS.code c - 55)
  else if JS.in_range 97 102 c then Some (JS.code c - 87)
  else None.

Definition hex_digit (n : nat) : ascii :=
  if n <? 10 then ascii_of_nat (48 + n) else ascii_of_nat (87 + n).

(** The code unit of [\uh1h2h3h4], when it is below 256. *)
Definition unescape_u (h1 h2 h3 h4 : ascii) : option ascii :=
  match hex_value h1, hex_value h2, hex_value h3, hex_value h4 with
  | Some 0, Some 0, Some a, Some b => Some (ascii_of_nat (16 * a + b))
  | _, _, _, _ => None
  end.

(** The single-letter escapes. *)
Definition unescape (e : ascii) : option ascii :=
  if JS.code e =? 34 then Some e
  else if JS.code e =? 92 then Some e
  else if JS.code e =? 47 then Some e
  else if JS.code e =? 98 then Some (ascii_of_nat 8)
  else if JS.code e =? 102 then Some (ascii_of_nat 12)
  else if JS.code e =? 110 then Some (ascii_of_nat 10)
  else if JS.code e =? 114 then Some (ascii_of_nat 13)
  else if JS.code e =? 116 then Some (ascii_of_nat 9)
  else None.

Definition cons_char (c : ascii) (r : option (string * string))
  : option (string * string) :=
  match r with
  | Some (s, rest) => Some (String c s, rest)
  | None => None
  end.

(** The contents of a string literal, after its opening quote, up to and
    including its closing quote. *)
Fixpoint parse_chars (s : string) : option (string * string) :=
  match s with
  | EmptyString => None
  | String c r =>
      if JS.code c =? 34 then Some (EmptyString, r)
      else if JS.code c =? 92 then
        match r with
        | String e r1 =>
            if JS.code e =? 117 then
              match r1 with
              | String h1 (String h2 (String h3 (String h4 r2))) =>
                  match unescape_u h1 h2 h3 h4 with
                  | Some u => cons_char u (parse_chars r2)
                  | None => None
                  end
              | _ => None
              end
            else
              match unescape e with
              | Some u => cons_char u (parse_chars r1)
              | None => None
              end
        | EmptyString => None
        end
      else if JS.code c <? 32 then None
      else cons_char c (parse_chars r)
  end.

(** [expect p s]: [s] without its prefix [p]. *)
Fixpoint expect (p s : string) : option string :=
  match p, s with
  | EmptyString, _ => Some s
  | String a p', String b s' => if Ascii.eqb a b then expect p' s' else None
  | String _ _, EmptyString => None
  end.

Definition literal (p : string) (v : json) (s : string) : option (json * string) :=
  match expect p s with
  | Some rest => Some (v, rest)
  | None => None
  end.

(** *** The parser

    One step of each of the three parsers, given the parsers to call on
    what is nested; the fuel counts the calls. *)

Definition value_step
  (items : string -> option (list json * string))
  (members : string -> option (list (string * json) * string))
  (s : string) : option (json * string) :=
  match skip_ws s with
  | EmptyString => None
  | String c r =>
      if JS.code c =? 110 then literal "ull" JNull r
      else if JS.code c =? 116 then literal "rue" (JBool true) r
      else if JS.code c =? 102 then literal "alse" (JBool false) r
      else if JS.code c =? 34 then
        match parse_chars r with
        | Some (t, rest) => Some (JStr t, rest)
        | None => None
        end
      else if JS.code c =? 91 then
        match skip_ws r with
        | String d r' =>
            if JS.code d =? 93 then Some (JArr [], r')
            else match items r with
                 | Some (vs, rest) => Some (JArr vs, rest)
                 | None => None
                 end
        | EmptyString => None
        end
      else if JS.code c =? 123 then
        match skip_ws r with
        | String d r' =>
            if JS.code d =? 125 then Some (JObj [], r')
            else match members r with
                 | Some (ms, rest) => Some (JObj ms, rest)
                 | None => None
                 end
        | EmptyString => None
        end
      else
        let (lit, rest) := span_num (String c r) in
        if number_ok lit then Some (JNum lit, rest) else None
  end.

(** A value, then a comma and more items, or the closing bracket. *)
Definition items_step
  (value : string -> option (json * string))
  (items : string -> option (list json * string))
  (s : string) : option (list json * string) :=
  match value s with
  | Some (v, r) =>
      match skip_ws r with
      | String d r' =>
          if JS.code d =? 44 then
            match items r' with
            | Some (vs, rest) => Some (v :: vs, rest)
            | None => None
            end
          else if JS.code d =? 93 then Some ([v], r')
          else None
      | EmptyString => None
      end
  | None => None
  end.

(** A key, a colon and a value, then a comma and more members, or the
    closing brace. *)
Definition members_step
  (value : string -> option (json * string))
  (members : string -> option (list (string * json) * string))
  (s : string) : option (list (string * json) * string) :=
  match skip_ws s with
  | String q r =>
      if JS.code q =? 34 then
        match parse_chars r with
        | Some (k, r1) =>
            match skip_ws r1 with
            | String d r2 =>
                if JS.code d =? 58 then
                  match value r2 with
                  | Some (v, r3) =>
                      match skip_ws r3 with
                      | String e r4 =>
                          if JS.code e =? 44 then
                            match members r4 with
                            | Some (ms, rest) => Some ((k, v) :: ms, rest)
                            | None => None
                            end
                          else if JS.code e =? 125 then Some ([(k, v)], r4)
                          else None
                      | EmptyString => None
                      end
                  | None => None
                  end
                else None
            | EmptyString => None
            end
        | None => None
        end
      else None
  | EmptyString => None
  end.

Fixpoint parse_value (n : nat) (s : string) {struct n} : option (json * string) :=
  match n with
  | O => None
  | S n' => value_step (parse_items n') (parse_members n') s
  end
with parse_items (n : nat) (s : string) {struct n} : option (list json * string) :=
  match n with
  | O => None
  | S n' => items_step (parse_value n') (parse_items n') s
  end
with parse_members (n : nat) (s : string) {struct n}
  : option (list (string * json) * string) :=
  match n with
  | O => None
  | S n' => members_step (parse_value n') (parse_members n') s
  end.

(** [JSON.parse(s)]; [None] stands for the [SyntaxError] it raises. *)
Definition parse (s : string) : option json :=
  match parse_value (2 * String.length s + 2) s with
  | Some (v, rest) =>
      match skip_ws rest with
      | EmptyString => Some v
      | String _ _ => None
      end
  | None => None
  end.

(** *** The printer *)

Definition escape_char (c : ascii) : string :=
  if JS.code c =? 34 then String (ascii_of_nat 92) (String c EmptyString)
  else if JS.code c =? 92 then "\\"
  else if JS.code c =? 8 then "\b"
  else if JS.code c =? 12 then "\f"
  else if JS.code c =? 10 then "\n"
  else if JS.code c =? 13 then "\r"
  else if JS.code c =? 9 then "\t"
  else if JS.code c <? 32 then
    "\u00" +:+ String (hex_digit (JS.code c / 16))
                 (String (hex_digit (JS.code c mod 16)) EmptyString)
  else String c EmptyString.

Fixpoint escape (s : string) : string :=
  match s with
  | EmptyString => EmptyString
  | String c s' => escape_char c +:+ escape s'
  end.

Definition quote (s : string) : string :=
  String (ascii_of_nat 34) (escape s +:+ String (ascii_of_nat 34) EmptyString).

(** [JSON.stringify(v)], which writes no white space. *)
Fixpoint stringify (v : json) : string :=
  match v with
  | JNull => "null"
  | JBool true => "true"
  | JBool false => "false"
  | JNum lit => lit
  | JStr s => quote s
  | JArr items =>
      match items with
      | [] => "[]"
      | _ =>
          "[" +:+
          (fix items_text (l : list json) : string :=
             match l with
             | [] => "]"
             | [x] => stringify x +:+ "]"
             | x :: l' => stringify x +:+ "," +:+ items_text l'
             end) items
      end
  | JObj members =>
      match members with
      | [] => "{}"
      | _ =>
          "{" +:+
          (fix members_text (l : list (string * json)) : string :=
             match l with
             | [] => "}"
             | [(k, x)] => quote k +:+ ":" +:+ stringify x +:+ "}"
             | (k, x) :: l' =>
                 quote k +:+ ":" +:+ stringify x +:+ "," +:+ members_text l'
             end) members
      end
  end.

(** *** Notions used in the statements *)

(** The text of the items of an array after its opening bracket, and of
    the members of an object after its opening brace, as [stringify]
    writes them. *)
Fixpoint items_text (l : list json) : string :=
  match l with
  | [] => "]"
  | [x] => stringify x +:+ "]"
  | x :: l' => stringify x +:+ "," +:+ items_text l'
  end.

Fixpoint members_text (l : list (string * json)) : string :=
  match l with
  | [] => "}"
  | [(k, x)] => quote k +:+ ":" +:+ stringify x +:+ "}"
  | (k, x) :: l' => quote k +:+ ":" +:+ stringify x +:+ "," +:+ members_text l'
  end.

(** A value whose numbers are number literals. *)
Fixpoint wf (v : json) : bool :=
  match v with
  | JNum lit => number_ok lit && JS.all is_num_char lit
  | JArr items => forallb wf items
  | JObj members => forallb (fun kv => wf (snd kv)) members
  | _ => true
  end.

(** The fuel that parsing the text of a value takes. *)
Fixpoint cost (v : json) : nat :=
  match v with
  | JArr items =>
      S ((fix cost_items (l : list json) : nat :=
            match l with
            | [] => 0
            | x :: l' => S (Nat.max (cost x) (cost_items l'))
            end) items)
  | JObj members =>
      S ((fix cost_members (l : list (string * json)) : nat :=
            match l with
            | [] => 0
            | (_, x) :: l' => S (Nat.max (cost x) (cost_members l'))
            end) members)
  | _ => 1
  end.

Fixpoint cost_items (l : list json) : nat :=
  match l with
  | [] => 0
  | x :: l' => S (Nat.max (cost x) (cost_items l'))
  end.

Fixpoint cost_members (l : list (string * json)) : nat :=
  match l with
  | [] => 0
  | (_, x) :: l' => S (Nat.max (cost x) (cost_members l'))
  end.

(** A text before which a number literal ends. *)
Definition stop (rest : string) : Prop :=
  match rest with
  | EmptyString => True
  | String c _ => is_num_char c = false
  end.

(** A number literal that [JSON.parse] reads and [JSON.stringify] writes
    back as it stands: a zero, or at most fifteen digits of which the
    first is not a zero.  (The literals [1.0], [1e400] and [-0] are
    written back as [1], [null] and [0].) *)
Definition plain_number (lit : string) : bool :=
  match lit with
  | EmptyString => false
  | String c r =>
      if JS.code c =? 48 then negb (JS.truthy r)
      else JS.in_range 49 57 c && JS.all JS.is_digit r
           && (String.length r <? 15)
  end.

(** A key made of digits, as an index is; an object lists its index keys
    before its other keys, in increasing order, wherever the text had
    them. *)
Definition index_key (k : string) : bool := JS.truthy k && JS.all JS.is_digit k.

Fixpoint distinct (l : list string) : bool :=
  match l with
  | [] => true
  | k :: l' => negb (existsb (String.eqb k) l') && distinct l'
  end.

(** The values on which the model is [JSON.parse] and [JSON.stringify]
    themselves: the text written for such a value is read back as the same
    value, member for member.  Its numbers are plain, and the keys of each
    of its objects are distinct (of a key given twice an object keeps the
    last value) and are no index keys.  The statements about the stored
    log are about these values. *)
Fixpoint canonical (v : json) : bool :=
  match v with
  | JNum lit => plain_number lit
  | JArr items => forallb canonical items
  | JObj members =>
      forallb (fun kv => negb (index_key (fst kv)) && canonical (snd kv)) members
      && distinct (List.map fst members)
  | _ => true
  end.

(** The first code unit of [text] after white space opens an array.  When
    it does not, [text] is not the text of an array, whatever else it is. *)
Definition begins_array (text : string) : bool :=
  match skip_ws text with
  | String c _ => JS.code c =? 91
  | EmptyString => false
  end.

End JSON.

(** ** The customization panel ([js/customization.js]) *)

Module Customization.

Import JS.Notations.
Local Open Scope js_scope.

Inductive level : Type := Log | Warn | Error.

(** A colour picker, with what the methods read of its surroundings:
    [pk_color] says that it is an [<input type="color">], whose [value]
    setter sanitizes what it is given; [pk_display] is the text of the
    [.color-value] element of the picker's [.color-control], when there is
    one. *)
Record Picker : Type := mkPicker {
  pk_color : bool;
  pk_value : string;
  pk_display : option string
}.

(** A [<link id="style-theme">] element of the document. *)
Record Link : Type := mkLink {
  node : nat;
  href : string
}.

(** The [onload] and [onerror] closures that [switchTheme] leaves on a new
    link: the new link, the link that was current, and the theme asked for. *)
Record Load : Type := mkLoad {
  ld_new : nat;
  ld_old : nat;
  ld_theme : string
}.

(** The controller and the part of the page it works on.  [style] holds
    the declarations of the root element's inline style, each with the text
    that [setProperty] gave it; [themeLinks] lists the elements with id
    [style-theme] in document order; [timers] counts the pending timers that
    end the transition effect.  The console messages are given without
    their leading pictograph. *)
Record Page : Type := mkPage {
  style : gmap string string;
  primaryColorPicker : option Picker;
  secondaryColorPicker : option Picker;
  accentColorPicker : option Picker;
  roundnessSlider : option string;
  sliderValue : option string;
  themeLinks : list Link;
  nextNode : nat;
  loads : list Load;
  currentTheme : string;
  transitioning : bool;
  timers : nat;
  console : list (level * string)
}.

Definition set_style (f : gmap string string -> gmap string string) (w : Page) : Page :=
  mkPage (f (style w)) (primaryColorPicker w) (secondaryColorPicker w)
    (accentColorPicker w) (roundnessSlider w) (sliderValue w) (themeLinks w)
    (nextNode w) (loads w) (currentTheme w) (transitioning w) (timers w)
    (console w).

Definition set_sliderValue (v : option string) (w : Page) : Page :=
  mkPage (style w) (primaryColorPicker w) (secondaryColorPicker w)
    (accentColorPicker w) (roundnessSlider w) v (themeLinks w)
    (nextNode w) (loads w) (currentTheme w) (transitioning w) (timers w)
    (console w).

Definition set_themeLinks (l : list Link) (w : Page) : Page :=
  mkPage (style w) (primaryColorPicker w) (secondaryColorPicker w)
    (accentColorPicker w) (roundnessSlider w) (sliderValue w) l
    (nextNode w) (loads w) (currentTheme w) (transitioning w) (timers w)
    (console w).

Definition set_nextNode (n : nat) (w : Page) : Page :=
  mkPage (style w) (primaryColorPicker w) (secondaryColorPicker w)
    (accentColorPicker w) (roundnessSlider w) (sliderValue w) (themeLinks w)
    n (loads w) (currentTheme w) (transitioning w) (timers w) (console w).

Definition set_loads (l : list Load) (w : Page) : Page :=
  mkPage (style w) (primaryColorPicker w) (secondaryColorPicker w)
    (accentColorPicker w) (roundnessSlider w) (sliderValue w) (themeLinks w)
    (nextNode w) l (currentTheme w) (transitioning w) (timers w) (console w).

Definition set_currentTheme (t : string) (w : Page) : Page :=
  mkPage (style w) (primaryColorPicker w) (secondaryColorPicker w)
    (accentColorPicker w) (roundnessSlider w) (sliderValue w) (themeLinks w)
    (nextNode w) (loads w) t (transitioning w) (timers w) (console w).

Definition set_transitioning (b : bool) (w : Page) : Page :=
  mkPage (style w) (primaryColorPicker w) (secondaryColorPicker w)
    (accentColorPicker w) (roundnessSlider w) (sliderValue w) (themeLinks w)
    (nextNode w) (loads w) (currentTheme w) b (timers w) (console w).

Definition set_timers (n : nat) (w : Page) : Page :=
  mkPage (style w) (primaryColorPicker w) (secondaryColorPicker w)
    (accentColorPicker w) (roundnessSlider w) (sliderValue w) (themeLinks w)
    (nextNode w) (loads w) (currentTheme w) (transitioning w) n (console w).

Definition set_console (c : list (level * string)) (w : Page) : Page :=
  mkPage (style w) (primaryColorPicker w) (secondaryColorPicker w)
    (accentColorPicker w) (roundnessSlider w) (sliderValue w) (themeLinks w)
    (nextNode w) (loads w) (currentTheme w) (transitioning w) (timers w) c.

(** The three pickers of the controller. *)
Inductive which : Type := Primary | Secondary | Accent.

Definition picker (p : which) (w : Page) : option Picker :=
  match p with
  | Primary => primaryColorPicker w
  | Secondary => secondaryColorPicker w
  | Accent => accentColorPicker w
  end.

Definition set_picker (p : which) (k : option Picker) (w : Page) : Page :=
  match p with
  | Primary =>
      mkPage (style w) k (secondaryColorPicker w)
        (accentColorPicker w) (roundnessSlider w) (sliderValue w)
        (themeLinks w) (nextNode w) (loads w) (currentTheme w)
        (transitioning w) (timers w) (console w)
  | Secondary =>
      mkPage (style w) (primaryColorPicker w) k
        (accentColorPicker w) (roundnessSlider w) (sliderValue w)
        (themeLinks w) (nextNode w) (loads w) (currentTheme w)
        (transitioning w) (timers w) (console w)
  | Accent =>
      mkPage (style w) (primaryColorPicker w) (secondaryColorPicker w)
        k (roundnessSlider w) (sliderValue w)
        (themeLinks w) (nextNode w) (loads w) (currentTheme w)
        (transitioning w) (timers w) (console w)
  end.

Definition console_log (msg : string) : JS.M Page unit :=
  JS.modify (fun w => set_console (console w ++ [(Log, msg)]) w).

Definition console_error (msg : string) : JS.M Page unit :=
  JS.modify (fun w => set_console (console w ++ [(Error, msg)]) w).

(** *** Theme switching *)

(** [link.remove()] *)
Definition remove_link (n : nat) (l : list Link) : list Link :=
  List.filter (fun k => negb (node k =? n)) l.

Definition switchTheme (newTheme : string) : JS.M Page unit :=
  w <- JS.gets (fun w => w) ;;
  if negb (JS.truthy newTheme) || String.eqb newTheme (currentTheme w)
  then JS.ret tt
  else
    console_log ("Switching theme from " +:+ currentTheme w +:+ " to " +:+ newTheme) ;;
    (* document.getElementById('style-theme') *)
    match themeLinks w with
    | [] => JS.ret tt
    | currentThemeLink :: rest =>
        let newThemeLink :=
          mkLink (nextNode w) ("css/style-" +:+ newTheme +:+ ".css") in
        JS.modify (set_nextNode (S (nextNode w))) ;;
        JS.modify (set_transitioning true) ;;
        (* insertBefore(newThemeLink, currentThemeLink.nextSibling) *)
        JS.modify (set_themeLinks (currentThemeLink :: newThemeLink :: rest)) ;;
        JS.modify (fun w' =>
          set_loads (loads w' ++ [mkLoad (node newThemeLink)
                                         (node currentThemeLink) newTheme]) w')
    end.

(** [newThemeLink.onload] *)
Definition onload (ld : Load) : JS.M Page unit :=
  JS.modify (fun w => set_themeLinks (remove_link (ld_old ld) (themeLinks w)) w) ;;
  JS.modify (set_currentTheme (ld_theme ld)) ;;
  JS.modify (fun w => set_timers (S (timers w)) w) ;;
  console_log ("Theme switched to " +:+ ld_theme ld).

(** [newThemeLink.onerror] *)
Definition onerror (ld : Load) : JS.M Page unit :=
  console_error ("Failed to load theme: " +:+ ld_theme ld) ;;
  JS.modify (fun w => set_themeLinks (remove_link (ld_new ld) (themeLinks w)) w) ;;
  JS.modify (set_transitioning false).

(** The timer that [onload] sets. *)
Definition ontimer : JS.M Page unit :=
  JS.modify (set_transitioning false) ;;
  JS.modify (fun w => set_timers (pred (timers w)) w).

(** *** Colours *)

(** [style.setProperty(name, value)] on a custom property: the empty
    string takes the declaration away, and another text becomes the value
    of the declaration as it is written.  (A browser keeps the earlier
    declaration when the text cannot be read as a value, as with an
    unmatched bracket, and strips white space around it; the statements
    about [style] are about the [plain] texts below, which are values as
    they stand.) *)
Definition setProperty (name value : string) (st : gmap string string)
  : gmap string string :=
  if JS.truthy value then <[name := value]> st else delete name st.

Definition updateCSSVariable (variableName : string) (value : option string)
  : JS.M Page unit :=
  JS.modify (set_style (setProperty variableName (JS.to_string value))).

(** [color.toUpperCase()] is reached, and raises on [undefined], only when
    the picker, its control group and the display element all exist. *)
Definition updateColorDisplay (p : which) (color : option string) : JS.M Page unit :=
  w <- JS.gets (fun w => w) ;;
  match picker p w with
  | None => JS.ret tt
  | Some k =>
      match pk_display k with
      | None => JS.ret tt
      | Some _ =>
          match color with
          | None => JS.throw JS.TypeError
          | Some c =>
              JS.modify (set_picker p
                (Some (mkPicker (pk_color k) (pk_value k) (Some (JS.toUpperCase c)))))
          end
      end
  end.

Definition updatePrimaryColor (color : option string) : JS.M Page unit :=
  updateCSSVariable "--primary-color" color ;;
  updateColorDisplay Primary color ;;
  console_log ("Primary color updated to: " +:+ JS.to_string color).

Definition updateSecondaryColor (color : option string) : JS.M Page unit :=
  updateCSSVariable "--secondary-color" color ;;
  updateColorDisplay Secondary color ;;
  console_log ("Secondary color updated to: " +:+ JS.to_string color).

Definition updateAccentColor (color : option string) : JS.M Page unit :=
  updateCSSVariable "--accent-color" color ;;
  updateColorDisplay Accent color ;;
  console_log ("Accent color updated to: " +:+ JS.to_string color).

Definition updateRoundedness (value : string) : JS.M Page unit :=
  let roundnessValue := value +:+ "px" in
  updateCSSVariable "--border-radius-base" (Some roundnessValue) ;;
  w <- JS.gets (fun w => w) ;;
  JS.when (bool_decide (is_Some (sliderValue w)))
    (JS.modify (set_sliderValue (Some roundnessValue))) ;;
  console_log ("Roundedness updated to: " +:+ roundnessValue).

(** A valid simple colour: [#] and six hexadecimal digits. *)
Definition valid_simple_color (s : string) : bool :=
  match s with
  | String c r =>
      (JS.code c =? 35) && (String.length r =? 6)
      && forallb JS.is_hex_digit (JS.chars r)
  | EmptyString => false
  end.

(** [picker.value = v] *)
Definition assign_value (v : option string) (k : Picker) : Picker :=
  let text := JS.to_string v in
  let stored :=
    if pk_color k
    then if valid_simple_color text then JS.toLowerCase text else "#000000"
    else text in
  mkPicker (pk_color k) stored (pk_display k).

Definition set_picker_value (p : which) (v : option string) : JS.M Page unit :=
  JS.modify (fun w =>
    match picker p w with
    | Some k => set_picker p (Some (assign_value v k)) w
    | None => w
    end).

Definition updateDisplayValues : JS.M Page unit :=
  JS.forEach (fun p =>
      w <- JS.gets (fun w => w) ;;
      match picker p w with
      | Some k => updateColorDisplay p (Some (pk_value k))
      | None => JS.ret tt
      end)
    [Primary; Secondary; Accent] ;;
  JS.modify (fun w =>
    match roundnessSlider w, sliderValue w with
    | Some v, Some _ => set_sliderValue (Some (v +:+ "px")) w
    | _, _ => w
    end).

(** *** Presets *)

Record Preset : Type := mkPreset {
  primary : string;
  secondary : string;
  accent : string
}.

Definition presets : list (string * Preset) :=
  [ ("coffee", mkPreset "#8B4513" "#D2691E" "#F4E4C1");
    ("modern", mkPreset "#3B82F6" "#10B981" "#F3F4F6");
    ("earthy", mkPreset "#059669" "#84CC16" "#ECFDF5");
    ("luxe", mkPreset "#D97706" "#F59E0B" "#FEF3C7") ].

(** [preset.primary] and the like: a built-in found on the prototype has no
    such property. *)
Definition member (f : Preset -> string) (preset : JS.property Preset)
  : option string :=
  match preset with
  | JS.Own p => Some (f p)
  | JS.Inherited _ => None
  | JS.Missing => None
  end.

(** The scale effect on the preset button, which ends the method in the
    source, touches nothing of the state below and is left out. *)
Definition applyPreset (presetName : string) : JS.M Page unit :=
  console_log ("Applying preset: " +:+ presetName) ;;
  let preset := JS.get presets presetName in
  match preset with
  | JS.Missing => console_error ("Unknown preset: " +:+ presetName)
  | _ =>
      updatePrimaryColor (member primary preset) ;;
      updateSecondaryColor (member secondary preset) ;;
      updateAccentColor (member accent preset) ;;
      set_picker_value Primary (member primary preset) ;;
      set_picker_value Secondary (member secondary preset) ;;
      set_picker_value Accent (member accent preset) ;;
      updateDisplayValues ;;
      console_log ("Preset " +:+ presetName +:+ " applied successfully")
  end.

Definition hexToColor (hex : string) : string :=
  let hex :=
    if JS.truthy hex && negb (JS.startsWith "#" hex) then "#" +:+ hex else hex in
  JS.or_else hex "#000000".

(** *** The page over time

    What can happen to the page: a call of [switchTheme], the browser
    reporting that the [i]-th pending link has loaded or failed to, and a
    transition timer running out. *)
Inductive event : Type :=
| SwitchTheme (name : string)
| Loaded (i : nat)
| Failed (i : nat)
| Timer.

Definition settle (i : nat) (h : Load -> JS.M Page unit) : JS.M Page unit :=
  w <- JS.gets (fun w => w) ;;
  match loads w !! i with
  | Some ld => JS.modify (set_loads (delete i (loads w))) ;; h ld
  | None => JS.ret tt
  end.

Definition handle (e : event) : JS.M Page unit :=
  match e with
  | SwitchTheme name => switchTheme name
  | Loaded i => settle i onload
  | Failed i => settle i onerror
  | Timer => w <- JS.gets (fun w => w) ;;
             if timers w =? 0 then JS.ret tt else ontimer
  end.

Definition step (w : Page) (e : event) : Page := JS.exec (handle e) w.

Definition run (es : list event) (w : Page) : Page := fold_left step es w.

(** *** Notions used in the statements *)

(** An event that leaves the one load under way alone, [theme] being the
    current theme: a timer running out, a call of [switchTheme] without a
    name or with the name of the current theme, and the settling of a load
    other than the first. *)
Definition idle (theme : string) (e : event) : bool :=
  match e with
  | SwitchTheme name => negb (JS.truthy name) || String.eqb name theme
  | Loaded i | Failed i => negb (i =? 0)
  | Timer => true
  end.

(** A text made of letters, digits and [#], and not empty: a colour as the
    pickers give it ([#8b4513]), and the same without its [#]. *)
Definition plain_char (c : ascii) : bool :=
  JS.is_digit c || JS.in_range 65 90 c || JS.in_range 97 122 c
  || (JS.code c =? 35).

Definition plain (s : string) : bool := JS.truthy s && JS.all plain_char s.

(** The picker [k] once its displayed value, if it has one, shows [c]. *)
Definition displayed (c : string) (k : Picker) : Picker :=
  match pk_display k with
  | Some _ => mkPicker (pk_color k) (pk_value k) (Some (JS.toUpperCase c))
  | None => k
  end.

(** The picker [k] once it has been given the value [v] and its displayed
    value refreshed from it. *)
Definition chosen (v : string) (k : Picker) : Picker :=
  displayed (pk_value (assign_value (Some v) k)) (assign_value (Some v) k).

(** The monad operations, unfolded. *)
Ltac js_unfold :=
  unfold JS.exec, JS.eval, JS.bind, JS.ret, JS.gets, JS.modify, JS.when,
    JS.throw, JS.try_catch, JS.try_finally in *.

(** Runs a colour setter on a page, by cases on its pickers. *)
Ltac color_setter w :=
  unfold updatePrimaryColor, updateSecondaryColor, updateAccentColor,
    updateCSSVariable, updateColorDisplay, console_log, displayed;
  js_unfold; cbn [JS.to_string];
  destruct w as [? [[? ? [?|]]|] [[? ? [?|]]|] [[? ? [?|]]|] [?|] [?|]
                 ? ? ? ? ? ? ?];
  by repeat split.

(** The page as served: the link of the [classic] theme, no load under way. *)
Definition initial (k1 k2 k3 : option Picker) (slider display : option string)
  : Page :=
  mkPage ∅ k1 k2 k3 slider display [mkLink 0 "css/style-classic.css"] 1 []
    "classic" false 0 [].

End Customization.

(** ** The waitlist form ([js/form-handler.js]) *)

Module WaitlistForm.

Import JS.Notations.
Local Open Scope js_scope.

Inductive level : Type := Log | Warn | Error.

(** A control of the form, with what the handler reads and writes of it.
    [el_error] is the class [error]; [el_group] is the [.form-group] the
    control sits in, if any ([closest('.form-group')]); the two defaults
    are what [form.reset()] restores. *)
Record Element : Type := mkElement {
  el_id : string;
  el_type : string;
  el_tagName : string;
  el_name : string;
  el_required : bool;
  el_value : string;
  el_checked : bool;
  el_defaultValue : string;
  el_defaultChecked : bool;
  el_error : bool;
  el_borderColor : string;
  el_group : option nat
}.

Inductive label : Type :=
| Markup (html : string)
| Spinner.

(** The submit button: [disabled], [innerHTML], [style.opacity]. *)
Record Button : Type := mkButton {
  disabled : bool;
  innerHTML : label;
  opacity : string
}.

(** [this.fields] *)
Record Fields : Type := mkFields {
  f_name : option nat;
  f_email : option nat;
  f_zip : option nat;
  f_interest : option nat;
  f_espressoMachine : option nat;
  f_comments : option nat
}.

(** What [collectFormData] returns. *)
Record FormData : Type := mkFormData {
  name : string;
  email : string;
  zip : string;
  interest : JS.value;
  espresso_machine : JS.value;
  comments : string;
  timestamp : string;
  source : string
}.

(** A call of [fetch]: the URL, and [method], [body] and [mode] of its
    options.  The body is the list of the [FormData] entries as appended. *)
Record Request : Type := mkRequest {
  url : string;
  method : string;
  body : list (string * JS.value);
  mode : string
}.

(** The handler and its surroundings.
    - [elements]: the controls of the form in document order; an element is
      referred to by its position (its node).
    - [fieldErrors]: for each [.form-group], the texts of its [.field-error]
      elements in document order.
    - [generalErrors]: the texts of the [.general-error] elements of the
      form, in document order.
    - [focused]: the element the handler focused last.  The focus and blur
      events that the browser raises in response are not part of the model.
    - [listeners]: the elements [setupEventListeners] gave a [blur] and an
      [input] listener.
    - [storage], [quota]: the item [mylocalbarista_waitlist] of
      [localStorage], and the length from which [setItem] refuses a text.
    - [requests]: the calls of [fetch], in order.
    - [pending]: the calls of [handleSubmit] suspended at [await], each with
      the form data it holds.
    - [console]: the messages, without pictographs and interpolated data. *)
Record World : Type := mkWorld {
  elements : list Element;
  fieldErrors : gmap nat (list string);
  generalErrors : list string;
  focused : option nat;
  submitBtn : option Button;
  successOverlays : nat;
  fields : Fields;
  listeners : list nat;
  isSubmitting : bool;
  originalButtonText : string;
  storage : option string;
  quota : option nat;
  requests : list Request;
  pending : list FormData;
  console : list (level * string)
}.

Definition set_elements (x : list Element) (w : World) : World :=
  mkWorld x (fieldErrors w) (generalErrors w) (focused w) (submitBtn w)
    (successOverlays w) (fields w) (listeners w) (isSubmitting w)
    (originalButtonText w) (storage w) (quota w) (requests w) (pending w)
    (console w).

Definition set_fieldErrors (x : gmap nat (list string)) (w : World) : World :=
  mkWorld (elements w) x (generalErrors w) (focused w) (submitBtn w)
    (successOverlays w) (fields w) (listeners w) (isSubmitting w)
    (originalButtonText w) (storage w) (quota w) (requests w) (pending w)
    (console w).

Definition set_generalErrors (x : list string) (w : World) : World :=
  mkWorld (elements w) (fieldErrors w) x (focused w) (submitBtn w)
    (successOverlays w) (fields w) (listeners w) (isSubmitting w)
    (originalButtonText w) (storage w) (quota w) (requests w) (pending w)
    (console w).

Definition set_focused (x : option nat) (w : World) : World :=
  mkWorld (elements w) (fieldErrors w) (generalErrors w) x (submitBtn w)
    (successOverlays w) (fields w) (listeners w) (isSubmitting w)
    (originalButtonText w) (storage w) (quota w) (requests w) (pending w)
    (console w).

Definition set_submitBtn (x : option Button) (w : World) : World :=
  mkWorld (elements w) (fieldErrors w) (generalErrors w) (focused w) x
    (successOverlays w) (fields w) (listeners w) (isSubmitting w)
    (originalButtonText w) (storage w) (quota w) (requests w) (pending w)
    (console w).

Definition set_successOverlays (x : nat) (w : World) : World :=
  mkWorld (elements w) (fieldErrors w) (generalErrors w) (focused w)
    (submitBtn w) x (fields w) (listeners w) (isSubmitting w)
    (originalButtonText w) (storage w) (quota w) (requests w) (pending w)
    (console w).

Definition set_fields (x : Fields) (w : World) : World :=
  mkWorld (elements w) (fieldErrors w) (generalErrors w) (focused w)
    (submitBtn w) (successOverlays w) x (listeners w) (isSubmitting w)
    (originalButtonText w) (storage w) (quota w) (requests w) (pending w)
    (console w).

Definition set_isSubmitting (x : bool) (w : World) : World :=
  mkWorld (elements w) (fieldErrors w) (generalErrors w) (focused w)
    (submitBtn w) (successOverlays w) (fields w) (listeners w) x
    (originalButtonText w) (storage w) (quota w) (requests w) (pending w)
    (console w).

Definition set_storage (x : option string) (w : World) : World :=
  mkWorld (elements w) (fieldErrors w) (generalErrors w) (focused w)
    (submitBtn w) (successOverlays w) (fields w) (listeners w)
    (isSubmitting w) (originalButtonText w) x (quota w) (requests w)
    (pending w) (console w).

Definition set_requests (x : list Request) (w : World) : World :=
  mkWorld (elements w) (fieldErrors w) (generalErrors w) (focused w)
    (submitBtn w) (successOverlays w) (fields w) (listeners w)
    (isSubmitting w) (originalButtonText w) (storage w) (quota w) x
    (pending w) (console w).

Definition set_pending (x : list FormData) (w : World) : World :=
  mkWorld (elements w) (fieldErrors w) (generalErrors w) (focused w)
    (submitBtn w) (successOverlays w) (fields w) (listeners w)
    (isSubmitting w) (originalButtonText w) (storage w) (quota w)
    (requests w) x (console w).

Definition set_console (x : list (level * string)) (w : World) : World :=
  mkWorld (elements w) (fieldErrors w) (generalErrors w) (focused w)
    (submitBtn w) (successOverlays w) (fields w) (listeners w)
    (isSubmitting w) (originalButtonText w) (storage w) (quota w)
    (requests w) (pending w) x.

Definition console_log (msg : string) : JS.M World unit :=
  JS.modify (fun w => set_console (console w ++ [(Log, msg)]) w).

Definition console_warn (msg : string) : JS.M World unit :=
  JS.modify (fun w => set_console (console w ++ [(Warn, msg)]) w).

Definition console_error (msg : string) : JS.M World unit :=
  JS.modify (fun w => set_console (console w ++ [(Error, msg)]) w).

(** *** Configuration *)

Definition GOOGLE_FORM_URL : string :=
  "https://docs.google.com/forms/d/e/1FAIpQLSflEWC2sYiZ8lwPJtkgjq3X5Jjfcz-KENfeVQS7xDWG4J9TJg/formResponse".

Record Entries : Type := mkEntries {
  e_name : string;
  e_email : string;
  e_zip : string;
  e_interest : string;
  e_espresso_machine : string;
  e_comments : string
}.

Definition GOOGLE_FORM_ENTRIES : Entries :=
  mkEntries "entry.847057752" "entry.508055351" "entry.832508456"
    "entry.1561535688" "entry.1117044731" "entry.1572710206".

(** *** Validation utilities *)

Definition not_space_or_at (c : ascii) : bool :=
  negb (JS.is_space c || (JS.code c =? 64)).

(** [/^[^\s@]+@[^\s@]+\.[^\s@]+$/] *)
Definition emailRegex : RegExp.regex :=
  RegExp.Seq (RegExp.Plus (RegExp.Class not_space_or_at))
    (RegExp.Seq (RegExp.Class (fun c => JS.code c =? 64))
       (RegExp.Seq (RegExp.Plus (RegExp.Class not_space_or_at))
          (RegExp.Seq (RegExp.Class (fun c => JS.code c =? 46))
             (RegExp.Plus (RegExp.Class not_space_or_at))))).

(** [/^\d{5}$/] *)
Definition zipRegex : RegExp.regex := RegExp.Times 5 (RegExp.Class JS.is_digit).

Definition isValidEmail (email : string) : bool := RegExp.test emailRegex email.

Definition isValidZipCode (zip : string) : bool := RegExp.test zipRegex zip.

(** *** Error display *)

Definition update_element (n : nat) (f : Element -> Element) : JS.M World unit :=
  JS.modify (fun w =>
    match elements w !! n with
    | Some el => set_elements (<[n := f el]> (elements w)) w
    | None => w
    end).

Definition mark (error : bool) (border : string) (el : Element) : Element :=
  mkElement (el_id el) (el_type el) (el_tagName el) (el_name el)
    (el_required el) (el_value el) (el_checked el) (el_defaultValue el)
    (el_defaultChecked el) error border (el_group el).

Definition group_errors (g : nat) (w : World) : list string :=
  default [] (fieldErrors w !! g).

Definition clearFieldError (n : nat) : JS.M World unit :=
  w <- JS.gets (fun w => w) ;;
  match elements w !! n with
  | None => JS.ret tt
  | Some el =>
      update_element n (mark false EmptyString) ;;
      match el_group el with
      | Some g =>
          (* formGroup.querySelector('.field-error')?.remove() *)
          JS.modify (set_fieldErrors (<[g := tail (group_errors g w)]> (fieldErrors w)))
      | None => JS.ret tt
      end
  end.

(** [field.focus()], which ends the method, is recorded as the focus the
    handler asked for last; see [focused]. *)
Definition showFieldError (n : nat) (message : string) : JS.M World unit :=
  clearFieldError n ;;
  w <- JS.gets (fun w => w) ;;
  match elements w !! n with
  | None => JS.ret tt
  | Some el =>
      update_element n (mark true "var(--color-error)") ;;
      match el_group el with
      | Some g =>
          JS.modify (set_fieldErrors
            (<[g := group_errors g w ++ [message]]> (fieldErrors w)))
      | None => JS.ret tt
      end ;;
      JS.modify (set_focused (Some n))
  end.

Definition clearAllErrors : JS.M World unit :=
  JS.modify (set_fieldErrors ∅) ;;
  JS.modify (fun w =>
    set_elements
      (List.map (fun el => if el_error el then mark false EmptyString el else el)
         (elements w)) w) ;;
  JS.modify (fun w => set_generalErrors (tail (generalErrors w)) w).

Definition showGeneralError (message : string) : JS.M World unit :=
  JS.modify (fun w => set_generalErrors (message :: tail (generalErrors w)) w).

Definition showSubmissionError : JS.M World unit :=
  showGeneralError
    "Sorry, there was an error submitting your information. Please try again in a moment.".

(** The overlay takes itself away after five seconds; the count is of the
    overlays shown. *)
Definition showSuccessMessage : JS.M World unit :=
  JS.modify (fun w => set_successOverlays (S (successOverlays w)) w).

(** *** Field and form validation *)

(** What [validateField] switches on: [field.type || field.tagName.toLowerCase()]. *)
Definition kind (field : Element) : string :=
  JS.or_else (el_type field) (JS.toLowerCase (el_tagName field)).

(** The verdict and the message that [validateField] computes from a
    control, before it displays them. *)
Definition validity (field : Element) : bool * string :=
  let value := JS.trim (el_value field) in
  let r := (true, EmptyString) in
  let r :=
    if el_required field && negb (JS.truthy value)
    then (false, "This field is required") else r in
  let key := kind field in
  if String.eqb key "email" then
    if JS.truthy value && negb (isValidEmail value)
    then (false, "Please enter a valid email address") else r
  else if String.eqb key "text" then
    let r :=
      if String.eqb (el_id field) "zip" && JS.truthy value
      then if negb (isValidZipCode value)
           then (false, "Please enter a valid 5-digit zip code") else r
      else r in
    let r :=
      if String.eqb (el_id field) "name" && JS.truthy value
      then if String.length value <? 2
           then (false, "Name must be at least 2 characters long") else r
      else r in
    r
  else r.

(** A field is [null] ([None]) or a reference to an element. *)
Definition validateField (field : option nat) : JS.M World bool :=
  match field with
  | None => JS.ret true
  | Some n =>
      w <- JS.gets (fun w => w) ;;
      match elements w !! n with
      | None => JS.ret true
      | Some el =>
          let (isValid, errorMessage) := validity el in
          (if negb isValid then showFieldError n errorMessage
           else clearFieldError n) ;;
          JS.ret isValid
      end
  end.

(** [Object.values(this.fields)] *)
Definition field_values (f : Fields) : list (option nat) :=
  [f_name f; f_email f; f_zip f; f_interest f; f_espressoMachine f; f_comments f].

(** [this.form.querySelector('input[name="espresso_machine"]:checked')] *)
Definition checked_radio (w : World) : option Element :=
  List.find
    (fun el => String.eqb (el_tagName el) "INPUT"
               && String.eqb (el_name el) "espresso_machine"
               && el_checked el)
    (elements w).

Fixpoint validate_each (l : list (option nat)) (isFormValid : bool)
  : JS.M World bool :=
  match l with
  | [] => JS.ret isFormValid
  | field :: rest =>
      match field with
      | Some _ =>
          ok <- validateField field ;;
          validate_each rest (if negb ok then false else isFormValid)
      | None => validate_each rest isFormValid
      end
  end.

Definition validateForm : JS.M World bool :=
  w <- JS.gets (fun w => w) ;;
  isFormValid <- validate_each (field_values (fields w)) true ;;
  w <- JS.gets (fun w => w) ;;
  match checked_radio w with
  | None =>
      showGeneralError "Please select whether you own an espresso machine" ;;
      JS.ret false
  | Some _ => JS.ret isFormValid
  end.

(** *** Collecting the form data *)

Definition interestMapping : list (string * string) :=
  [ ("training", "Training - Learn espresso & latte art");
    ("events", "Events - Barista for gatherings");
    ("machine-help", "Machine Help - Equipment maintenance");
    ("all", "All services interest me") ].

Definition espressoMachineMapping : list (string * string) :=
  [ ("yes", "Yes, I have an espresso machine");
    ("no", "No, but I'm interested in getting one");
    ("considering", "I'm considering purchasing one") ].

(** [mapping[v] || v || ''], where [v] is a string or [undefined]; the key
    of [mapping[undefined]] is the string [undefined]. *)
Definition mapped (mapping : list (string * string)) (v : option string) : JS.value :=
  match JS.get mapping (JS.to_string v) with
  | JS.Own text =>
      if JS.truthy text then JS.Str text
      else JS.Str (JS.or_else (default EmptyString v) EmptyString)
  | JS.Inherited builtin => JS.Native builtin
  | JS.Missing => JS.Str (JS.or_else (default EmptyString v) EmptyString)
  end.

(** [field?.value] *)
Definition value_of (field : option nat) (w : World) : option string :=
  match field with
  | Some n => el_value <$> (elements w !! n)
  | None => None
  end.

(** [field?.value.trim() || ''] *)
Definition trimmed (field : option nat) (w : World) : string :=
  match value_of field w with
  | Some v => JS.or_else (JS.trim v) EmptyString
  | None => EmptyString
  end.

(** [now] is [new Date().toISOString()]. *)
Definition collectFormData (now : string) (w : World) : FormData :=
  let espressoMachineValue :=
    match checked_radio w with
    | Some el => JS.or_else (el_value el) EmptyString
    | None => EmptyString
    end in
  mkFormData
    (trimmed (f_name (fields w)) w)
    (trimmed (f_email (fields w)) w)
    (trimmed (f_zip (fields w)) w)
    (mapped interestMapping (value_of (f_interest (fields w)) w))
    (mapped espressoMachineMapping (Some espressoMachineValue))
    (trimmed (f_comments (fields w)) w)
    now
    "MyLocalBarista Landing Page".

(** *** The local fallback log *)

(** What [JSON.stringify] keeps of a property: a string as it is, the
    prototype object as an empty object, and nothing of [undefined] or of a
    function. *)
Definition member_json (key : string) (v : JS.value) : list (string * JSON.json) :=
  match v with
  | JS.Str s => [(key, JSON.JStr s)]
  | JS.Undefined => []
  | JS.Native builtin =>
      if String.eqb builtin "__proto__" then [(key, JSON.JObj [])] else []
  end.

(** The form data as a JSON value. *)
Definition record (formData : FormData) : JSON.json :=
  JSON.JObj
    ([ ("name", JSON.JStr (name formData));
       ("email", JSON.JStr (email formData));
       ("zip", JSON.JStr (zip formData)) ]
     ++ member_json "interest" (interest formData)
     ++ member_json "espresso_machine" (espresso_machine formData)
     ++ [ ("comments", JSON.JStr (comments formData));
          ("timestamp", JSON.JStr (timestamp formData));
          ("source", JSON.JStr (source formData)) ]).

(** [localStorage.getItem('mylocalbarista_waitlist')] *)
Definition getItem : JS.M World (option string) := JS.gets storage.

(** [localStorage.setItem('mylocalbarista_waitlist', text)] *)
Definition setItem (text : string) : JS.M World unit :=
  w <- JS.gets (fun w => w) ;;
  match quota w with
  | Some q =>
      if q <? String.length text then JS.throw JS.QuotaExceededError
      else JS.modify (set_storage (Some text))
  | None => JS.modify (set_storage (Some text))
  end.

Definition JSON_parse (text : string) : JS.M World JSON.json :=
  match JSON.parse text with
  | Some v => JS.ret v
  | None => JS.throw JS.SyntaxError
  end.

(** [existingData.push(formData)]: only an array has a [push] to call. *)
Definition push (existingData : JSON.json) (v : JSON.json) : JS.M World JSON.json :=
  match existingData with
  | JSON.JArr items => JS.ret (JSON.JArr (items ++ [v]))
  | _ => JS.throw JS.TypeError
  end.

Definition storeFormDataLocally (formData : FormData) : JS.M World unit :=
  JS.try_catch
    (item <- getItem ;;
     existingData <- JSON_parse (JS.or_else (default EmptyString item) "[]") ;;
     existingData <- push existingData (record formData) ;;
     setItem (JSON.stringify existingData) ;;
     console_log "Form data stored locally for demo purposes")
    (fun _ => console_warn "Could not store form data locally").

(** *** Submission *)

Definition setSubmittingState (isSubmitting : bool) : JS.M World unit :=
  JS.modify (set_isSubmitting isSubmitting) ;;
  w <- JS.gets (fun w => w) ;;
  match submitBtn w with
  | None => JS.ret tt
  | Some _ =>
      if isSubmitting
      then JS.modify (set_submitBtn (Some (mkButton true Spinner "0.8")))
      else JS.modify (set_submitBtn
             (Some (mkButton false (Markup (originalButtonText w)) EmptyString)))
  end.

Definition reset_element (el : Element) : Element :=
  mkElement (el_id el) (el_type el) (el_tagName el) (el_name el)
    (el_required el) (el_defaultValue el) (el_defaultChecked el)
    (el_defaultValue el) (el_defaultChecked el) (el_error el)
    (el_borderColor el) (el_group el).

Definition resetForm : JS.M World unit :=
  (* this.form.reset() *)
  JS.modify (fun w => set_elements (List.map reset_element (elements w)) w) ;;
  clearAllErrors.

(** The entries appended to the [FormData] of the request. *)
Definition googleFormData (formData : FormData) : list (string * JS.value) :=
  [ (e_name GOOGLE_FORM_ENTRIES, JS.Str (name formData));
    (e_email GOOGLE_FORM_ENTRIES, JS.Str (email formData));
    (e_zip GOOGLE_FORM_ENTRIES, JS.Str (zip formData));
    (e_interest GOOGLE_FORM_ENTRIES, interest formData);
    (e_espresso_machine GOOGLE_FORM_ENTRIES, espresso_machine formData);
    (e_comments GOOGLE_FORM_ENTRIES, JS.Str (comments formData)) ].

(** How a call of [fetch] ends. *)
Inductive settlement : Type :=
| Resolved
| Rejected (e : JS.error).

(** [submitToGoogleForms] up to its [await]: the request is made. *)
Definition submitToGoogleForms_begin (formData : FormData) : JS.M World unit :=
  console_log "Form data to submit:" ;;
  console_log "Entry ID Mappings:" ;;
  console_log ("Name -> " +:+ e_name GOOGLE_FORM_ENTRIES) ;;
  console_log ("Email -> " +:+ e_email GOOGLE_FORM_ENTRIES) ;;
  console_log ("Zip -> " +:+ e_zip GOOGLE_FORM_ENTRIES) ;;
  console_log ("Interest -> " +:+ e_interest GOOGLE_FORM_ENTRIES) ;;
  console_log ("Espresso Machine -> " +:+ e_espresso_machine GOOGLE_FORM_ENTRIES) ;;
  console_log ("Comments -> " +:+ e_comments GOOGLE_FORM_ENTRIES) ;;
  console_log "Submitting to Google Forms:" ;;
  JS.modify (fun w =>
    set_requests (requests w ++
      [mkRequest GOOGLE_FORM_URL "POST" (googleFormData formData) "no-cors"]) w).

(** [submitToGoogleForms] from its [await] on, the request being settled. *)
Definition submitToGoogleForms_resume (formData : FormData) (s : settlement)
  : JS.M World bool :=
  JS.try_catch
    (match s with
     | Resolved => JS.ret tt
     | Rejected e => JS.throw e
     end ;;
     console_log
       "Google Forms submission completed (no-cors mode - cannot verify response)" ;;
     storeFormDataLocally formData ;;
     JS.ret true)
    (fun error =>
       console_error "Google Forms submission failed:" ;;
       storeFormDataLocally formData ;;
       JS.throw error).

(** [handleSubmit] up to the [await] of its [try] block.  [now] is the time
    read by [collectFormData]. *)
Definition handleSubmit (now : string) : JS.M World unit :=
  w <- JS.gets (fun w => w) ;;
  if isSubmitting w then JS.ret tt
  else
    console_log "Form submission started..." ;;
    clearAllErrors ;;
    valid <- validateForm ;;
    if negb valid then
      console_log "Form validation failed" ;;
      showGeneralError "Please fix the errors above and try again"
    else
      setSubmittingState true ;;
      formData <- JS.gets (collectFormData now) ;;
      submitToGoogleForms_begin formData ;;
      JS.modify (fun w => set_pending (pending w ++ [formData]) w).

(** [handleSubmit] from the [await] on. *)
Definition handleSubmit_resume (formData : FormData) (s : settlement)
  : JS.M World unit :=
  JS.try_finally
    (JS.try_catch
       (submitToGoogleForms_resume formData s ;;
        showSuccessMessage ;;
        resetForm ;;
        console_log "Form submitted successfully")
       (fun error =>
          console_error "Form submission error:" ;;
          showSubmissionError))
    (setSubmittingState false).

(** *** The page over time

    What can happen to the page: the form is submitted; the request of the
    [i]-th suspended submission is settled; the user types in a control,
    leaves it, or picks a radio button. *)
Inductive event : Type :=
| Submit (now : string)
| Settle (i : nat) (s : settlement)
| Input (n : nat) (text : string)
| Blur (n : nat)
| Pick (n : nat).

Definition listens (n : nat) (w : World) : bool :=
  existsb (Nat.eqb n) (listeners w).

Definition with_value (text : string) (el : Element) : Element :=
  mkElement (el_id el) (el_type el) (el_tagName el) (el_name el)
    (el_required el) text (el_checked el) (el_defaultValue el)
    (el_defaultChecked el) (el_error el) (el_borderColor el) (el_group el).

Definition with_checked (b : bool) (el : Element) : Element :=
  mkElement (el_id el) (el_type el) (el_tagName el) (el_name el)
    (el_required el) (el_value el) b (el_defaultValue el)
    (el_defaultChecked el) (el_error el) (el_borderColor el) (el_group el).

(** Picking the radio button [n] takes the mark off the others of its name. *)
Definition pick (n : nat) (l : list Element) : list Element :=
  match l !! n with
  | Some r =>
      imap (fun i el =>
              if i =? n then with_checked true el
              else if String.eqb (el_name el) (el_name r)
                      && String.eqb (el_type el) "radio"
                   then with_checked false el else el) l
  | None => l
  end.

(** The [change] listener of the radio buttons. *)
Definition onchange : JS.M World unit :=
  JS.modify (fun w =>
    let f := fields w in
    let radio :=
      fst <$> list_find
        (fun el => String.eqb (el_tagName el) "INPUT"
                   && String.eqb (el_name el) "espresso_machine"
                   && el_checked el = true) (elements w) in
    set_fields (mkFields (f_name f) (f_email f) (f_zip f) (f_interest f)
                  radio (f_comments f)) w).

Definition handle (e : event) : JS.M World unit :=
  match e with
  | Submit now => handleSubmit now
  | Settle i s =>
      w <- JS.gets (fun w => w) ;;
      match pending w !! i with
      | Some formData =>
          JS.modify (set_pending (delete i (pending w))) ;;
          handleSubmit_resume formData s
      | None => JS.ret tt
      end
  | Input n text =>
      update_element n (with_value text) ;;
      w <- JS.gets (fun w => w) ;;
      JS.when (listens n w) (clearFieldError n)
  | Blur n =>
      w <- JS.gets (fun w => w) ;;
      if listens n w then (_ <- validateField (Some n) ;; JS.ret tt)
      else JS.ret tt
  | Pick n =>
      w <- JS.gets (fun w => w) ;;
      match elements w !! n with
      | Some el =>
          if String.eqb (el_type el) "radio" then
            JS.modify (fun w => set_elements (pick n (elements w)) w) ;;
            JS.when (listens n w) (clearFieldError n) ;;
            JS.when (String.eqb (el_tagName el) "INPUT"
                     && String.eqb (el_name el) "espresso_machine") onchange
          else JS.ret tt
      | None => JS.ret tt
      end
  end.

Definition step (w : World) (e : event) : World := JS.exec (handle e) w.

Definition run (es : list event) (w : World) : World := fold_left step es w.

(** The log as a sequence of entries: a missing or empty item is the empty
    sequence, and a text that is not a JSON array is no sequence. *)
Definition log_entries (w : World) : option (list JSON.json) :=
  match JSON.parse (JS.or_else (default EmptyString (storage w)) "[]") with
  | Some (JSON.JArr items) => Some items
  | _ => None
  end.

(** *** Notions used in the statements *)

(** What the user has entered: the controls without their error marking. *)
Definition entered (w : World) : list Element :=
  List.map (mark false EmptyString) (elements w).

(** The verdict on a field of [this.fields]. *)
Definition field_ok (w : World) (field : option nat) : bool :=
  match field with
  | Some n =>
      match elements w !! n with
      | Some el => fst (validity el)
      | None => true
      end
  | None => true
  end.

(** Every field present is valid, and a radio button is picked. *)
Definition formIsValid (w : World) : bool :=
  forallb (field_ok w) (field_values (fields w))
  && bool_decide (is_Some (checked_radio w)).

(** [w'] differs from [w] only in what is displayed: the error marking of
    the controls, the error messages, the focus and the console. *)
Definition display_only (w w' : World) : Prop :=
  entered w' = entered w
  /\ submitBtn w' = submitBtn w
  /\ successOverlays w' = successOverlays w
  /\ fields w' = fields w
  /\ listeners w' = listeners w
  /\ isSubmitting w' = isSubmitting w
  /\ originalButtonText w' = originalButtonText w
  /\ storage w' = storage w
  /\ quota w' = quota w
  /\ requests w' = requests w
  /\ pending w' = pending w.

(** [setItem] accepts the text. *)
Definition fits (w : World) (text : string) : bool :=
  match quota w with
  | Some q => negb (q <? String.length text)
  | None => true
  end.

(** [w'] differs from [w] in the stored log and the console only. *)
Definition storage_only (w w' : World) : Prop :=
  elements w' = elements w
  /\ fieldErrors w' = fieldErrors w
  /\ generalErrors w' = generalErrors w
  /\ focused w' = focused w
  /\ submitBtn w' = submitBtn w
  /\ successOverlays w' = successOverlays w
  /\ fields w' = fields w
  /\ listeners w' = listeners w
  /\ isSubmitting w' = isSubmitting w
  /\ originalButtonText w' = originalButtonText w
  /\ quota w' = quota w
  /\ requests w' = requests w
  /\ pending w' = pending w.

(** The stored text after [storeFormDataLocally formData]: the log with the
    record at its end when the stored text is a log and [setItem] accepts
    the new text, and the stored text as it was otherwise. *)
Definition stored_after (formData : FormData) (w : World) : option string :=
  match log_entries w with
  | Some items =>
      let text := JSON.stringify (JSON.JArr (items ++ [record formData])) in
      if fits w text then Some text else storage w
  | None => storage w
  end.

(** The stored item holds the log [items]: it is the text that
    [JSON.stringify] writes for the array of these items, as
    [storeFormDataLocally] leaves it; for the empty log it may also be
    missing or empty. *)
Definition holds_log (items : list JSON.json) (w : World) : Prop :=
  forallb JSON.canonical items = true
  /\ (storage w = Some (JSON.stringify (JSON.JArr items))
      \/ (items = [] /\ (storage w = None \/ storage w = Some EmptyString))).

(** The stored item is a text that is not empty and is not the text of an
    array: a text that is not JSON, such as [not json], or a JSON value of
    another kind. *)
Definition no_array (w : World) : Prop :=
  exists text, storage w = Some text
    /\ text <> EmptyString /\ JSON.begins_array text = false.

(** At most one submission is under way, and the handler is busy exactly
    while one is. *)
Definition single_flight (w : World) : Prop :=
  (isSubmitting w = false /\ pending w = [])
  \/ (isSubmitting w = true /\ exists formData, pending w = [formData]).

(** [w'] has the submissions, requests and stored log of [w]. *)
Definition same_traffic (w w' : World) : Prop :=
  isSubmitting w' = isSubmitting w
  /\ pending w' = pending w
  /\ requests w' = requests w
  /\ storage w' = storage w
  /\ quota w' = quota w.


(** Every submission under way carries the constant [source]. *)
Definition sourced (w : World) : Prop :=
  Forall (fun formData => source formData = "MyLocalBarista Landing Page")
    (pending w).

(** The monad operations, unfolded. *)
Ltac js_unfold :=
  unfold JS.exec, JS.eval, JS.bind, JS.ret, JS.gets, JS.modify, JS.when,
    JS.throw, JS.try_catch, JS.try_finally in *.


End WaitlistForm.

(** ** The rules of the specification, in its own words *)

Module Rules.

(** A [local@domain.tld] value: three non-empty parts without white space
    or [@], joined by [@] and by a point. *)
Definition email_shape (v : string) : Prop :=
  exists l d t : string,
    v = l +:+ "@" +:+ d +:+ "." +:+ t
    /\ l <> EmptyString /\ d <> EmptyString /\ t <> EmptyString
    /\ JS.all WaitlistForm.not_space_or_at l = true
    /\ JS.all WaitlistForm.not_space_or_at d = true
    /\ JS.all WaitlistForm.not_space_or_at t = true.

(** Exactly five digits. *)
Definition five_digits (v : string) : Prop :=
  String.length v = 5 /\ JS.all JS.is_digit v = true.

End Rules.

(** ** Sample pages *)

Module Samples.

Import WaitlistForm.

Definition input (id type : string) (required : bool) (value : string)
  (group : nat) : Element :=
  mkElement id type "INPUT" id required value false value false false
    EmptyString (Some group).

Definition radio (value : string) (checked : bool) : Element :=
  mkElement ("espresso-" +:+ value) "radio" "INPUT" "espresso_machine" true
    value checked value false false EmptyString (Some 4).

(** A waitlist form with the three text inputs, the interest list set to
    [training], the three radio buttons and the comments; no radio button
    was picked when the handler was built. *)
Definition form (name email zip : string) (yes : bool) (stored : option string)
  : World :=
  mkWorld
    [ input "name" "text" true name 0;
      input "email" "email" true email 1;
      input "zip" "text" true zip 2;
      mkElement "interest" "select-one" "SELECT" "interest" true "training"
        false EmptyString false false EmptyString (Some 3);
      radio "yes" yes; radio "no" false; radio "considering" false;
      mkElement "comments" "textarea" "TEXTAREA" "comments" false
        " see you " false EmptyString false false EmptyString (Some 5) ]
    ∅ [] None (Some (mkButton false (Markup "Join the Waitlist") EmptyString)) 0
    (mkFields (Some 0) (Some 1) (Some 2) (Some 3) None (Some 7))
    [0; 1; 2; 3; 7] false "Join the Waitlist" stored None [] [] [].

(** The form filled in. *)
Definition filled (stored : option string) : World :=
  form "Ada" "ada@example.org" "12345" true stored.

(** The customization panel with its three colour pickers, each with its
    displayed value, over the page as served. *)
Definition panel : Customization.Page :=
  Customization.initial
    (Some (Customization.mkPicker true "#8b4513" (Some "#8B4513")))
    (Some (Customization.mkPicker true "#d2691e" (Some "#D2691E")))
    (Some (Customization.mkPicker true "#f4e4c1" (Some "#F4E4C1")))
    (Some "8") (Some "8px").

End Samples.


(** ** Properties that a computation keeps *)

Module Invariants.

(** [m] leaves a state with [P] in a state with [P], whether it returns
    or throws. *)
Definition keeps {S A : Type} (P : S -> Prop) (m : JS.M S A) : Prop :=
  forall s, P s -> P (JS.exec m s).

Create HintDb keeps discriminated.

End Invariants.

(** ** What the form shows *)

Module FormView.

Import WaitlistForm.

(** The inline messages of the form group [g] become [f] of what they
    were; without a form group nothing is shown. *)
Definition set_group (g : option nat) (f : list string -> list string)
  (w : World) : World :=
  match g with
  | Some g => set_fieldErrors (<[g := f (group_errors g w)]> (fieldErrors w)) w
  | None => w
  end.

(** A control as [validateField] leaves it. *)
Definition shown (el : Element) : Element :=
  if fst (validity el) then mark false EmptyString el
  else mark true "var(--color-error)" el.

(** The inline message [validateField] puts under a control. *)
Definition messages (el : Element) : list string :=
  if fst (validity el) then [] else [snd (validity el)].

(** The page after [validateField] has shown its verdict on the control
    [el] at [n]. *)
Definition displayed (n : nat) (el : Element) (w : World) : World :=
  let w1 :=
    set_group (el_group el) (fun l => tail l ++ messages el)
      (set_elements (<[n := shown el]> (elements w)) w) in
  if fst (validity el) then w1 else set_focused (Some n) w1.

(** A control as [clearAllErrors] leaves it. *)
Definition cleared (el : Element) : Element :=
  if el_error el then mark false EmptyString el else el.

(** The submit button as [setSubmittingState] sets it. *)
Definition busy_button : Button := mkButton true Spinner "0.8".

Definition idle_button (w : World) : Button :=
  mkButton false (Markup (originalButtonText w)) EmptyString.

(** No inline message is shown and no control is marked. *)
Definition unmarked (w : World) : Prop :=
  (forall g, group_errors g w = [])
  /\ Forall (fun el => el_error el = false) (elements w).

(** [w'] differs from [w] in the inline messages, the marking of the
    controls and the console only: the general messages and the focus are
    those of [w], and no marking was added to an unmarked page. *)
Definition quietly (w w' : World) : Prop :=
  display_only w w'
  /\ generalErrors w' = generalErrors w
  /\ focused w' = focused w
  /\ (unmarked w -> unmarked w').

(** The page after [validateField field]. *)
Definition validated (w : World) (field : option nat) : World :=
  match field with
  | Some n =>
      match elements w !! n with
      | Some el => displayed n el w
      | None => w
      end
  | None => w
  end.

(** The form group of a field, and the inline message [validateField]
    computes for it. *)
Definition field_group (w : World) (field : option nat) : option nat :=
  n ← field; el ← elements w !! n; el_group el.

Definition field_messages (w : World) (field : option nat) : list string :=
  match field ≫= (fun n => elements w !! n) with
  | Some el => messages el
  | None => []
  end.

(** The form groups of the fields [l], in the order of [l]. *)
Definition groups_of (w : World) (l : list (option nat)) : list nat :=
  omap (field_group w) l.

(** No form group shows more than one inline message, and the form shows
    at most one general message. *)
Definition tidy (w : World) : Prop :=
  (forall g, length (group_errors g w) <= 1) /\ length (generalErrors w) <= 1.

End FormView.

(** ** What leaves the page *)

Module Traffic.

Import WaitlistForm.

(** A request as [submitToGoogleForms] makes it: to the form's address,
    posted without CORS, with the six entries in the order of the code. *)
Definition to_google_form (r : Request) : Prop :=
  url r = GOOGLE_FORM_URL
  /\ method r = "POST"
  /\ mode r = "no-cors"
  /\ List.map fst (body r)
     = [ "entry.847057752"; "entry.508055351"; "entry.832508456";
         "entry.1561535688"; "entry.1117044731"; "entry.1572710206" ].

(** The request [submitToGoogleForms] makes for the form data. *)
Definition request_of (formData : FormData) : Request :=
  mkRequest GOOGLE_FORM_URL "POST" (googleFormData formData) "no-cors".

(** The event answers a suspended submission with success. *)
Definition resolves (e : event) (w : World) : bool :=
  match e with
  | Settle i Resolved => bool_decide (is_Some (pending w !! i))
  | _ => false
  end.

End Traffic.

(** ** The theme stylesheets over time *)

Module Themes.

Import Customization.

(** The nodes of the theme links in the document, and the nodes of the
    links that are still being fetched. *)
Definition nodes (w : Page) : list nat := node <$> themeLinks w.

Definition loading (w : Page) : list nat := ld_new <$> loads w.

(** A theme stylesheet that is not being fetched any more is in the
    document. *)
Definition styled (w : Page) : Prop :=
  exists n, n ∈ nodes w /\ n ∉ loading w.

(** The links and the pending loads fit together: the nodes in use are
    below the next one to be allocated; the link of a pending load was
    made after the link it is to replace, and no two loads fetch the same
    link; and the link a load is to replace, while it is in the document,
    is its first theme link and has the load's own link after it. *)
Definition coherent (w : Page) : Prop :=
  Forall (fun n => n < nextNode w) (nodes w)
  /\ Forall (fun ld => ld_old ld < ld_new ld /\ ld_new ld < nextNode w) (loads w)
  /\ NoDup (loading w)
  /\ Forall (fun ld => ld_old ld ∈ nodes w ->
               head (nodes w) = Some (ld_old ld) /\ ld_new ld ∈ nodes w)
       (loads w).

End Themes.

(** ** Opening and closing the customization panel
    ([js/customization.js], and the Escape listener of the main script) *)

Module Panel.

Import JS.Notations.
Local Open Scope js_scope.

(** The elements a click can land on or in, as far as the listeners tell
    them apart. *)
Inductive element : Type :=
| PanelEl      (* #customization-panel *)
| OpenBtnEl    (* #panel-open-btn *)
| CloseBtnEl   (* #panel-toggle *)
| OtherEl.

Definition element_eqb (a b : element) : bool :=
  match a, b with
  | PanelEl, PanelEl | OpenBtnEl, OpenBtnEl
  | CloseBtnEl, CloseBtnEl | OtherEl, OtherEl => true
  | _, _ => false
  end.

(** What a pending focus timer will focus. *)
Inductive target : Type :=
| FirstControl
| OpenBtn.

(** The controller's view of the panel.  An element that the constructor
    looked up is [None] when the document has none, and otherwise holds
    whether it carries the class the two methods switch: [open] on the
    panel, [panel-open] on the main content, [hidden] on the open button.
    [hasControl] says that the panel contains a [select], [input] or
    [button]; [panelClass] that the panel element is the one the selector
    [.customization-panel] finds; [timers] are the pending [setTimeout]
    callbacks, which all have the same delay and so run in the order they
    were set; [focus] is what the controller focused last. *)
Record Page : Type := mkPage {
  panel : option bool;
  mainContent : option bool;
  openBtn : option bool;
  closeBtn : bool;
  hasControl : bool;
  panelClass : bool;
  isOpen : bool;
  innerWidth : nat;
  timers : list target;
  focus : option target;
  console : list string
}.

Definition set_classes (o : bool) (w : Page) : Page :=
  mkPage ((fun _ => o) <$> panel w) ((fun _ => o) <$> mainContent w)
    ((fun _ => o) <$> openBtn w) (closeBtn w) (hasControl w) (panelClass w)
    o (innerWidth w) (timers w) (focus w) (console w).

Definition set_timers (l : list target) (w : Page) : Page :=
  mkPage (panel w) (mainContent w) (openBtn w) (closeBtn w) (hasControl w)
    (panelClass w) (isOpen w) (innerWidth w) l (focus w) (console w).

Definition set_innerWidth (n : nat) (w : Page) : Page :=
  mkPage (panel w) (mainContent w) (openBtn w) (closeBtn w) (hasControl w)
    (panelClass w) (isOpen w) n (timers w) (focus w) (console w).

Definition set_focus (t : option target) (w : Page) : Page :=
  mkPage (panel w) (mainContent w) (openBtn w) (closeBtn w) (hasControl w)
    (panelClass w) (isOpen w) (innerWidth w) (timers w) t (console w).

Definition console_log (msg : string) : JS.M Page unit :=
  JS.modify (fun w =>
    mkPage (panel w) (mainContent w) (openBtn w) (closeBtn w) (hasControl w)
      (panelClass w) (isOpen w) (innerWidth w) (timers w) (focus w)
      (console w ++ [msg])).

(** [setTimeout(() => t.focus(), 300)] *)
Definition setTimeout (t : target) : JS.M Page unit :=
  JS.modify (fun w => set_timers (timers w ++ [t]) w).

Definition openPanel : JS.M Page unit :=
  w <- JS.gets (fun w => w) ;;
  match panel w with
  | None => JS.ret tt
  | Some _ =>
      JS.modify (set_classes true) ;;
      JS.when (hasControl w) (setTimeout FirstControl) ;;
      console_log "Customization panel opened"
  end.

Definition closePanel : JS.M Page unit :=
  w <- JS.gets (fun w => w) ;;
  match panel w with
  | None => JS.ret tt
  | Some _ =>
      JS.modify (set_classes false) ;;
      setTimeout OpenBtn ;;
      console_log "Customization panel closed"
  end.

(** The [keydown] listener of the controller. *)
Definition onkeydown (key : string) : JS.M Page unit :=
  w <- JS.gets (fun w => w) ;;
  JS.when (String.eqb key "Escape" && isOpen w) closePanel.

(** The [keydown] listener of the main script: it closes the panel when
    [document.querySelector('.customization-panel.open')] finds it.  The
    other half of its guard, [window.customizationController], holds from
    the time the document has loaded. *)
Definition onkeydown_main (key : string) : JS.M Page unit :=
  w <- JS.gets (fun w => w) ;;
  JS.when (String.eqb key "Escape"
           && panelClass w && bool_decide (panel w = Some true))
    closePanel.

(** [el.contains(e.target)], the click having gone through the elements
    [path] from its target up; on an element that is [null] the call
    raises. *)
Definition contains (present : bool) (el : element) (path : list element)
  : JS.M Page bool :=
  if present then JS.ret (existsb (element_eqb el) path)
  else JS.throw JS.TypeError.

(** The [click] listener on the document. *)
Definition onclick_document (path : list element) : JS.M Page unit :=
  w <- JS.gets (fun w => w) ;;
  if isOpen w && (innerWidth w <=? 1024) then
    inPanel <- contains (bool_decide (is_Some (panel w))) PanelEl path ;;
    if negb inPanel then
      inOpenBtn <- contains (bool_decide (is_Some (openBtn w))) OpenBtnEl path ;;
      JS.when (negb inOpenBtn) closePanel
    else JS.ret tt
  else JS.ret tt.

(** The [click] listeners of the two buttons, as the click passes the
    element [el] on its way up. *)
Definition onclick_at (el : element) : JS.M Page unit :=
  w <- JS.gets (fun w => w) ;;
  match el with
  | OpenBtnEl => JS.when (bool_decide (is_Some (openBtn w))) openPanel
  | CloseBtnEl => JS.when (closeBtn w) closePanel
  | _ => JS.ret tt
  end.

(** The timer that was set first runs: [firstControl.focus()], or
    [this.openBtn?.focus()]. *)
Definition ontimer : JS.M Page unit :=
  w <- JS.gets (fun w => w) ;;
  match timers w with
  | [] => JS.ret tt
  | t :: rest =>
      JS.modify (set_timers rest) ;;
      match t with
      | FirstControl => JS.modify (set_focus (Some FirstControl))
      | OpenBtn =>
          JS.when (bool_decide (is_Some (openBtn w)))
            (JS.modify (set_focus (Some OpenBtn)))
      end
  end.

(** What can happen: a click that goes through [path], from its target to
    the document; a key pressed, the controller's listener running before
    or after that of the main script; a timer running out; the window
    taking another width. *)
Inductive event : Type :=
| Click (path : list element)
| Key (key : string) (controllerFirst : bool)
| Timer
| Resize (width : nat).

(** An exception leaves a listener and is reported by the browser; the
    listeners after it still run. *)
Definition listener (m : JS.M Page unit) : JS.M Page unit :=
  JS.try_catch m (fun _ => JS.ret tt).

Definition handle (e : event) : JS.M Page unit :=
  match e with
  | Click path =>
      JS.forEach (fun el => listener (onclick_at el)) path ;;
      listener (onclick_document path)
  | Key key controllerFirst =>
      if controllerFirst
      then listener (onkeydown key) ;; listener (onkeydown_main key)
      else listener (onkeydown_main key) ;; listener (onkeydown key)
  | Timer => ontimer
  | Resize width => JS.modify (set_innerWidth width)
  end.

Definition step (w : Page) (e : event) : Page := JS.exec (handle e) w.

Definition run (es : list event) (w : Page) : Page := fold_left step es w.

(** *** Notions used in the statements *)

(** The flag of the controller and the classes say the same. *)
Definition in_sync (w : Page) : Prop :=
  (isOpen w = true -> is_Some (panel w))
  /\ (forall o, panel w = Some o -> o = isOpen w)
  /\ (forall o, mainContent w = Some o -> o = isOpen w)
  /\ (forall o, openBtn w = Some o -> o = isOpen w).

(** The click goes through none of the panel and the two buttons. *)
Definition outside (path : list element) : bool :=
  forallb (element_eqb OtherEl) path.

(** The page as the constructor finds it, closed. *)
Definition initial (hasOpenBtn hasControl : bool) (width : nat) : Page :=
  mkPage (Some false) (Some false) (if hasOpenBtn then Some false else None)
    true hasControl true false width [] None [].

End Panel.

(** ** The rate limiters of the main script ([debounce], [throttle])

    The function handed to a limiter is taken to return normally; what is
    kept of it is the list of the arguments it was invoked with. *)

Module Utilities.

Import JS.Notations.
Local Open Scope js_scope.

Section Limiters.

Context {Args : Type}.

(** *** [debounce(func, wait, immediate)]

    [timeout] is the variable of the closure: [None] while it is
    [undefined] or [null], and the identifier of a timer otherwise (an
    identifier is a positive number, hence truthy).  [scheduled] are the
    timers that were set and neither ran nor were cleared, each with the
    arguments its [later] holds. *)
Record Debounced : Type := mkDebounced {
  timeout : option nat;
  scheduled : list (nat * Args);
  nextTimer : nat;
  invoked : list Args
}.

Definition func (args : Args) : JS.M Debounced unit :=
  JS.modify (fun s =>
    mkDebounced (timeout s) (scheduled s) (nextTimer s) (invoked s ++ [args])).

(** [clearTimeout(id)] *)
Definition clearTimeout (id : option nat) : JS.M Debounced unit :=
  JS.modify (fun s =>
    match id with
    | Some i =>
        mkDebounced (timeout s)
          (List.filter (fun t => negb (fst t =? i)) (scheduled s))
          (nextTimer s) (invoked s)
    | None => s
    end).

(** [timeout = setTimeout(later, wait)], [later] holding [args]. *)
Definition setTimeout_later (args : Args) : JS.M Debounced unit :=
  JS.modify (fun s =>
    mkDebounced (Some (nextTimer s)) (scheduled s ++ [(nextTimer s, args)])
      (S (nextTimer s)) (invoked s)).

Definition executedFunction (immediate : bool) (args : Args)
  : JS.M Debounced unit :=
  s <- JS.gets (fun s => s) ;;
  let callNow := immediate && negb (bool_decide (is_Some (timeout s))) in
  clearTimeout (timeout s) ;;
  setTimeout_later args ;;
  JS.when callNow (func args).

Definition later (immediate : bool) (args : Args) : JS.M Debounced unit :=
  JS.modify (fun s =>
    mkDebounced None (scheduled s) (nextTimer s) (invoked s)) ;;
  JS.when (negb immediate) (func args).

(** A call of the debounced function, or the [i]-th scheduled timer
    running. *)
Inductive debounce_event : Type :=
| Call (args : Args)
| Expire (i : nat).

Definition debounce_handle (immediate : bool) (e : debounce_event)
  : JS.M Debounced unit :=
  match e with
  | Call args => executedFunction immediate args
  | Expire i =>
      s <- JS.gets (fun s => s) ;;
      match scheduled s !! i with
      | Some (_, args) =>
          JS.modify (fun s =>
            mkDebounced (timeout s) (delete i (scheduled s)) (nextTimer s)
              (invoked s)) ;;
          later immediate args
      | None => JS.ret tt
      end
  end.

Definition debounce_run (immediate : bool) (es : list debounce_event)
  (s : Debounced) : Debounced :=
  fold_left (fun s e => JS.exec (debounce_handle immediate e) s) es s.

(** The closure as [debounce] returns it. *)
Definition debounced : Debounced := mkDebounced None [] 1 [].

(** At most one timer is scheduled, and it is the one [timeout] names. *)
Definition one_timer (s : Debounced) : Prop :=
  (timeout s = None /\ scheduled s = [])
  \/ (exists i args, timeout s = Some i /\ scheduled s = [(i, args)]).

(** *** [throttle(func, limit)]

    [inThrottle] is the variable of the closure, [resets] the number of
    timers set to clear it. *)
Record Throttled : Type := mkThrottled {
  inThrottle : bool;
  resets : nat;
  applied : list Args
}.

Definition throttled_call (args : Args) : JS.M Throttled unit :=
  s <- JS.gets (fun s => s) ;;
  JS.when (negb (inThrottle s))
    (JS.modify (fun s => mkThrottled (inThrottle s) (resets s) (applied s ++ [args])) ;;
     JS.modify (fun s => mkThrottled true (resets s) (applied s)) ;;
     JS.modify (fun s => mkThrottled (inThrottle s) (S (resets s)) (applied s))).

Inductive throttle_event : Type :=
| Invoke (args : Args)
| Elapse.

Definition throttle_handle (e : throttle_event) : JS.M Throttled unit :=
  match e with
  | Invoke args => throttled_call args
  | Elapse =>
      s <- JS.gets (fun s => s) ;;
      JS.when (negb (resets s =? 0))
        (JS.modify (fun s => mkThrottled false (pred (resets s)) (applied s)))
  end.

Definition throttle_run (es : list throttle_event) (s : Throttled) : Throttled :=
  fold_left (fun s e => JS.exec (throttle_handle e) s) es s.

(** The closure as [throttle] returns it. *)
Definition throttled : Throttled := mkThrottled false 0 [].

(** A timer is pending exactly while the closure is throttling. *)
Definition one_reset (s : Throttled) : Prop :=
  resets s = if inThrottle s then 1 else 0.

(** The arguments of the calls among the events, and the number of timers
    that ran. *)
Definition invocations (es : list throttle_event) : list Args :=
  omap (fun e => match e with Invoke args => Some args | Elapse => None end) es.

Definition expired (es : list throttle_event) : nat :=
  length (List.filter (fun e => match e with Elapse => true | _ => false end) es).

End Limiters.

Arguments Debounced : clear implicits.
Arguments Throttled : clear implicits.
Arguments debounce_event : clear implicits.
Arguments throttle_event : clear implicits.

End Utilities.


(** * Properties *)

(** ** Regular expressions: the matcher decides the language *)

Module RegExpFacts.

Import RegExp.

Lemma lang_seq_iff r1 r2 s :
  lang (Seq r1 r2) s <-> exists s1 s2, s = s1 ++ s2 /\ lang r1 s1 /\ lang r2 s2.
Proof.
  split.
  - inversion 1; subst; eauto.
  - intros (s1 & s2 & -> & H1 & H2). by constructor.
Qed.

Lemma lang_alt_iff r1 r2 s : lang (Alt r1 r2) s <-> lang r1 s \/ lang r2 s.
Proof.
  split.
  - inversion 1; subst; auto.
  - intros [H|H]; [by apply lang_alt_l | by apply lang_alt_r].
Qed.

Lemma lang_class_iff p s : lang (Class p) s <-> exists c, s = [c] /\ p c = true.
Proof.
  split.
  - inversion 1; subst; eauto.
  - intros (c & -> & H). by constructor.
Qed.

Lemma lang_eps_iff s : lang Eps s <-> s = [].
Proof.
  split; [by inversion 1 | intros ->; constructor].
Qed.

Lemma lang_fail_iff s : lang Fail s <-> False.
Proof. split; [inversion 1 | done]. Qed.

Lemma nullable_lang r : nullable r = true <-> lang r [].
Proof.
  induction r; simpl.
  - rewrite lang_fail_iff. split; [discriminate | done].
  - rewrite lang_eps_iff. done.
  - rewrite lang_class_iff. split; [discriminate | by intros (c & ? & _)].
  - rewrite andb_true_iff, IHr1, IHr2, lang_seq_iff. split.
    + intros [H1 H2]. by exists [], [].
    + intros (s1 & s2 & E & H1 & H2). symmetry in E.
      apply app_eq_nil in E as [-> ->]. auto.
  - by rewrite orb_true_iff, IHr1, IHr2, lang_alt_iff.
  - split; [constructor | reflexivity].
Qed.

(** A non-empty word of a starred pattern starts with a non-empty word of
    the pattern. *)
Lemma star_cons_inv r c s :
  lang (Star r) (c :: s) ->
  exists s1 s2, s = s1 ++ s2 /\ lang r (c :: s1) /\ lang (Star r) s2.
Proof.
  intros H. remember (Star r) as r' eqn:Er. remember (c :: s) as w eqn:Ew.
  revert c s Ew. induction H; intros c0 s0 Ew; try discriminate.
  inversion Er; subst. destruct s1 as [|c1 s1]; simpl in Ew.
  - apply IHlang2; auto.
  - inversion Ew; subst. eauto.
Qed.

Lemma deriv_seq_l c r1 r2 s :
  (forall s, lang (deriv c r1) s <-> lang r1 (c :: s)) ->
  lang (Seq (deriv c r1) r2) s <->
  exists s1 s2, s = s1 ++ s2 /\ lang r1 (c :: s1) /\ lang r2 s2.
Proof.
  intros IH. rewrite lang_seq_iff. split.
  - intros (s1 & s2 & -> & H1 & H2). apply IH in H1. eauto.
  - intros (s1 & s2 & -> & H1 & H2). apply IH in H1. eauto.
Qed.

Lemma deriv_lang c r s : lang (deriv c r) s <-> lang r (c :: s).
Proof.
  revert s. induction r; intros s; simpl.
  - by rewrite !lang_fail_iff.
  - rewrite lang_fail_iff, lang_eps_iff. split; [done | discriminate].
  - rewrite lang_class_iff. destruct (p c) eqn:Ep.
    + rewrite lang_eps_iff. split.
      * intros ->. eauto.
      * intros (c' & E & _). by inversion E.
    + rewrite lang_fail_iff. split; [done |].
      intros (c' & E & Hp). inversion E; subst. congruence.
  - assert (Hcons : lang (Seq r1 r2) (c :: s) <->
      (exists s1 s2, s = s1 ++ s2 /\ lang r1 (c :: s1) /\ lang r2 s2)
      \/ (lang r1 [] /\ lang r2 (c :: s))).
    { rewrite lang_seq_iff. split.
      - intros (s1 & s2 & E & H1 & H2). destruct s1 as [|c1 s1]; simpl in E.
        + subst. auto.
        + inversion E; subst. left. eauto.
      - intros [(s1 & s2 & -> & H1 & H2) | [H1 H2]].
        + by exists (c :: s1), s2.
        + by exists [], (c :: s). }
    rewrite Hcons. destruct (nullable r1) eqn:En.
    + rewrite lang_alt_iff, (deriv_seq_l _ _ _ _ IHr1), IHr2.
      apply nullable_lang in En. tauto.
    + rewrite (deriv_seq_l _ _ _ _ IHr1).
      assert (~ lang r1 []) by (rewrite <- nullable_lang; congruence). tauto.
  - by rewrite !lang_alt_iff, IHr1, IHr2.
  - rewrite (deriv_seq_l _ _ _ _ IHr). split.
    + intros (s1 & s2 & -> & H1 & H2).
      change (c :: s1 ++ s2) with ((c :: s1) ++ s2). by constructor.
    + apply star_cons_inv.
Qed.

Lemma matches_lang r s : matches r s = true <-> lang r s.
Proof.
  revert r. induction s as [|c s IH]; intros r; simpl.
  - apply nullable_lang.
  - rewrite IH. apply deriv_lang.
Qed.

(** The words of [[p]*], [[p]+] and [[p]{n}] for a class [[p]]. *)
Lemma lang_star_class p s : lang (Star (Class p)) s <-> forallb p s = true.
Proof.
  split.
  - intros H. remember (Star (Class p)) as r eqn:Er.
    induction H; try discriminate; [reflexivity |].
    inversion Er; subst. inversion H; subst. simpl.
    rewrite andb_true_iff. auto.
  - induction s as [|c s IH]; simpl; [constructor |].
    rewrite andb_true_iff. intros [Hc Hs].
    change (c :: s) with ([c] ++ s). constructor; [by constructor | auto].
Qed.

Lemma lang_plus_class p s :
  lang (Plus (Class p)) s <-> s <> [] /\ forallb p s = true.
Proof.
  unfold Plus. rewrite lang_seq_iff. split.
  - intros (s1 & s2 & -> & Ha & Hb). apply lang_class_iff in Ha as (c & -> & Hc).
    apply lang_star_class in Hb. simpl.
    split; [discriminate | by rewrite andb_true_iff].
  - intros [Hne Hall]. destruct s as [|c s]; [done |]. simpl in Hall.
    apply andb_true_iff in Hall as [Hc Hs].
    exists [c], s. split; [done |].
    split; [by constructor | by apply lang_star_class].
Qed.

Lemma lang_times_class p n s :
  lang (Times n (Class p)) s <-> length s = n /\ forallb p s = true.
Proof.
  revert s. induction n as [|n IH]; intros s; simpl.
  - rewrite lang_eps_iff. split.
    + by intros ->.
    + intros [Hl _]. by destruct s.
  - rewrite lang_seq_iff. split.
    + intros (s1 & s2 & -> & Ha & Hb).
      apply lang_class_iff in Ha as (c & -> & Hc).
      apply IH in Hb as [Hl Hall]. simpl.
      split; [by f_equal | by rewrite andb_true_iff].
    + intros [Hl Hall]. destruct s as [|c s]; [discriminate |].
      simpl in Hl, Hall. apply andb_true_iff in Hall as [Hc Hs].
      exists [c], s. split; [done |].
      split; [by constructor | apply IH; split; [lia | done]].
Qed.

Lemma lang_plus_class_then p r s :
  lang (Seq (Plus (Class p)) r) s <->
  exists l rest, s = l ++ rest /\ l <> [] /\ forallb p l = true /\ lang r rest.
Proof.
  rewrite lang_seq_iff. split.
  - intros (l & rest & -> & Hl & Hr). apply lang_plus_class in Hl as [? ?].
    by exists l, rest.
  - intros (l & rest & -> & Hne & Hl & Hr). exists l, rest.
    split; [done |]. split; [by apply lang_plus_class | done].
Qed.

Lemma lang_class_then q r s :
  lang (Seq (Class q) r) s <->
  exists c rest, s = c :: rest /\ q c = true /\ lang r rest.
Proof.
  rewrite lang_seq_iff. split.
  - intros (l & rest & -> & Hl & Hr). apply lang_class_iff in Hl as (c & -> & Hc).
    by exists c, rest.
  - intros (c & rest & -> & Hc & Hr). exists [c], rest.
    split; [done |]. split; [by constructor | done].
Qed.

End RegExpFacts.

(** ** JavaScript strings *)

Module JSFacts.

Import JS.

Lemma truthy_true s : truthy s = true <-> s <> EmptyString.
Proof. destruct s; simpl; split; congruence. Qed.

Lemma truthy_false s : truthy s = false <-> s = EmptyString.
Proof. destruct s; simpl; split; congruence. Qed.

Lemma chars_append a b : chars (a +:+ b) = chars a ++ chars b.
Proof. induction a as [|c a IH]; simpl; [done | by rewrite IH]. Qed.

Lemma chars_of_list l : chars (string_of_list_ascii l) = l.
Proof. apply list_ascii_of_string_of_list_ascii. Qed.

Lemma of_list_chars s : string_of_list_ascii (chars s) = s.
Proof. apply string_of_list_ascii_of_string. Qed.

Lemma chars_nil s : chars s = [] <-> s = EmptyString.
Proof. destruct s; simpl; split; congruence. Qed.

Lemma chars_length s : length (chars s) = String.length s.
Proof. induction s as [|c s IH]; simpl; [done | by rewrite IH]. Qed.

Lemma chars_inj a b : chars a = chars b -> a = b.
Proof. intros H. by rewrite <- (of_list_chars a), <- (of_list_chars b), H. Qed.

Lemma or_else_empty s : or_else s EmptyString = s.
Proof. by destruct s. Qed.

Lemma forallb_ext {A} (f g : A -> bool) (l : list A) :
  (forall a, f a = g a) -> forallb f l = forallb g l.
Proof. intros H. induction l as [|a l IH]; simpl; [done | by rewrite H, IH]. Qed.

End JSFacts.

(** ** JSON: parsing what was printed *)

Module JSONFacts.

Import JSON.

Lemma app_String c s t : String c s +:+ t = String c (s +:+ t).
Proof. reflexivity. Qed.

Lemma app_empty t : EmptyString +:+ t = t.
Proof. reflexivity. Qed.

Lemma app_assoc a b c : (a +:+ b) +:+ c = a +:+ (b +:+ c).
Proof. induction a as [|x a IH]; [done |]. by rewrite !app_String, IH. Qed.

Lemma app_empty_r a : a +:+ EmptyString = a.
Proof. induction a as [|x a IH]; [done |]. by rewrite app_String, IH. Qed.

Lemma length_app a b : String.length (a +:+ b) = String.length a + String.length b.
Proof. induction a as [|x a IH]; [done |]. rewrite app_String. simpl. by rewrite IH. Qed.

Lemma stringify_arr x l : stringify (JArr (x :: l)) = "[" +:+ items_text (x :: l).
Proof. reflexivity. Qed.

Lemma stringify_obj kx l : stringify (JObj (kx :: l)) = "{" +:+ members_text (kx :: l).
Proof. reflexivity. Qed.

Lemma cost_arr l : cost (JArr l) = S (cost_items l).
Proof. reflexivity. Qed.

Lemma cost_obj l : cost (JObj l) = S (cost_members l).
Proof. reflexivity. Qed.

(** *** Strings *)

Lemma parse_chars_escape_char c r :
  parse_chars (escape_char c +:+ r) = cons_char c (parse_chars r).
Proof.
  destruct c as [[] [] [] [] [] [] [] []]; reflexivity.
Qed.

Lemma parse_chars_escape s rest :
  parse_chars (escape s +:+ String (ascii_of_nat 34) rest) = Some (s, rest).
Proof.
  induction s as [|c s IH]; [done |].
  simpl escape. by rewrite app_assoc, parse_chars_escape_char, IH.
Qed.

(** *** Numbers *)

Lemma span_num_app lit rest :
  JS.all is_num_char lit = true -> stop rest ->
  span_num (lit +:+ rest) = (lit, rest).
Proof.
  unfold JS.all. induction lit as [|c lit IH]; intros Hall Hstop.
  - rewrite app_empty. destruct rest as [|c r]; [done |]. simpl in *. by rewrite Hstop.
  - simpl in Hall. apply andb_true_iff in Hall as [Hc Hall].
    rewrite app_String. simpl. by rewrite Hc, IH.
Qed.

Lemma span_num_all s : JS.all is_num_char (fst (span_num s)) = true.
Proof.
  unfold JS.all. induction s as [|c s IH]; [done |]. simpl.
  destruct (is_num_char c) eqn:Hc; [| done].
  destruct (span_num s) as [lit rest]. simpl in *. by rewrite Hc.
Qed.

Lemma num_char_dispatch c :
  is_num_char c = true ->
  is_ws c = false
  /\ (JS.code c =? 110) = false /\ (JS.code c =? 116) = false
  /\ (JS.code c =? 102) = false /\ (JS.code c =? 34) = false
  /\ (JS.code c =? 91) = false /\ (JS.code c =? 123) = false
  /\ (JS.code c =? 93) = false /\ (JS.code c =? 125) = false.
Proof.
  destruct c as [[] [] [] [] [] [] [] []]; intros H; try discriminate H; done.
Qed.

Lemma number_ok_nonempty lit : number_ok lit = true -> lit <> EmptyString.
Proof. by destruct lit. Qed.

Lemma skip_ws_keep c s : is_ws c = false -> skip_ws (String c s) = String c s.
Proof. intros H. simpl. by rewrite H. Qed.

(** The text of a value starts with a code unit that is not white space
    and closes neither an array nor an object. *)
Lemma stringify_first v :
  wf v = true ->
  exists c r, stringify v = String c r /\ is_ws c = false
    /\ (JS.code c =? 93) = false /\ (JS.code c =? 125) = false.
Proof.
  destruct v as [|[]|lit|s|[|x l]|[|kx l]]; intros Hwf;
    try (eexists _, _; split; [reflexivity |]; done).
  simpl in Hwf. apply andb_true_iff in Hwf as [Hok Hall].
  destruct lit as [|c lit]; [done |]. unfold JS.all in Hall. simpl in Hall.
  apply andb_true_iff in Hall as [Hc _].
  apply num_char_dispatch in Hc. exists c, lit. split; [done |]. tauto.
Qed.

Lemma stop_comma rest : stop ("," +:+ rest).
Proof. done. Qed.

Lemma stop_bracket rest : stop ("]" +:+ rest).
Proof. done. Qed.

Lemma stop_brace rest : stop ("}" +:+ rest).
Proof. done. Qed.

Lemma wf_arr x l : wf (JArr (x :: l)) = true -> wf x = true /\ wf (JArr l) = true.
Proof. simpl. by rewrite andb_true_iff. Qed.

Lemma wf_obj k x l :
  wf (JObj ((k, x) :: l)) = true -> wf x = true /\ wf (JObj l) = true.
Proof. simpl. by rewrite andb_true_iff. Qed.

Lemma value_step_number items members c r :
  is_num_char c = true ->
  value_step items members (String c r) =
  let (lit, rest) := span_num (String c r) in
  if number_ok lit then Some (JNum lit, rest) else None.
Proof.
  intros Hc.
  apply num_char_dispatch in Hc as (Hws & H1 & H2 & H3 & H4 & H5 & H6 & _).
  unfold value_step. rewrite (skip_ws_keep c r Hws).
  by rewrite H1, H2, H3, H4, H5, H6.
Qed.

Lemma value_step_string items members s rest :
  value_step items members (quote s +:+ rest) = Some (JStr s, rest).
Proof.
  unfold quote. rewrite app_String, app_assoc, app_String, app_empty.
  unfold value_step. rewrite skip_ws_keep by done.
  change (JS.code (ascii_of_nat 34) =? 110) with false.
  change (JS.code (ascii_of_nat 34) =? 116) with false.
  change (JS.code (ascii_of_nat 34) =? 102) with false.
  change (JS.code (ascii_of_nat 34) =? 34) with true.
  cbv iota. by rewrite parse_chars_escape.
Qed.

Lemma value_step_array items members c r :
  is_ws c = false -> (JS.code c =? 93) = false ->
  value_step items members (String "[" (String c r)) =
  match items (String c r) with
  | Some (vs, rest) => Some (JArr vs, rest)
  | None => None
  end.
Proof.
  intros Hws Hc. unfold value_step. rewrite skip_ws_keep by done.
  change (JS.code "[" =? 110) with false.
  change (JS.code "[" =? 116) with false.
  change (JS.code "[" =? 102) with false.
  change (JS.code "[" =? 34) with false.
  change (JS.code "[" =? 91) with true.
  cbv iota. by rewrite (skip_ws_keep c r Hws), Hc.
Qed.

Lemma value_step_object items members c r :
  is_ws c = false -> (JS.code c =? 125) = false ->
  value_step items members (String "{" (String c r)) =
  match members (String c r) with
  | Some (ms, rest) => Some (JObj ms, rest)
  | None => None
  end.
Proof.
  intros Hws Hc. unfold value_step. rewrite skip_ws_keep by done.
  change (JS.code "{" =? 110) with false.
  change (JS.code "{" =? 116) with false.
  change (JS.code "{" =? 102) with false.
  change (JS.code "{" =? 34) with false.
  change (JS.code "{" =? 91) with false.
  change (JS.code "{" =? 123) with true.
  cbv iota. by rewrite (skip_ws_keep c r Hws), Hc.
Qed.

Lemma items_step_last value items v rest s :
  value s = Some (v, "]" +:+ rest) ->
  items_step value items s = Some ([v], rest).
Proof. intros H. unfold items_step. by rewrite H. Qed.

Lemma items_step_more value items v vs rest r s :
  value s = Some (v, "," +:+ r) ->
  items r = Some (vs, rest) ->
  items_step value items s = Some (v :: vs, rest).
Proof.
  intros H1 H2. unfold items_step. rewrite H1.
  rewrite app_String, app_empty, skip_ws_keep by done.
  change (JS.code "," =? 44) with true. cbv iota. by rewrite H2.
Qed.

Lemma members_step_key value members k r :
  members_step value members (quote k +:+ ":" +:+ r) =
  match value r with
  | Some (v, r3) =>
      match skip_ws r3 with
      | String e r4 =>
          if JS.code e =? 44 then
            match members r4 with
            | Some (ms, rest) => Some ((k, v) :: ms, rest)
            | None => None
            end
          else if JS.code e =? 125 then Some ([(k, v)], r4)
          else None
      | EmptyString => None
      end
  | None => None
  end.
Proof.
  unfold quote. rewrite app_String, app_assoc, app_String, app_empty.
  unfold members_step. rewrite skip_ws_keep by done.
  change (JS.code (ascii_of_nat 34) =? 34) with true. cbv iota.
  rewrite parse_chars_escape. rewrite app_String, app_empty.
  by rewrite skip_ws_keep by done.
Qed.

(** Parsing the text of a value gives the value back, with enough fuel. *)
Lemma parse_stringify_fuel n :
  (forall v rest, wf v = true -> cost v <= n -> stop rest ->
     parse_value n (stringify v +:+ rest) = Some (v, rest))
  /\ (forall x l rest, wf (JArr (x :: l)) = true -> cost_items (x :: l) <= n ->
        parse_items n (items_text (x :: l) +:+ rest) = Some (x :: l, rest))
  /\ (forall kx l rest, wf (JObj (kx :: l)) = true -> cost_members (kx :: l) <= n ->
        parse_members n (members_text (kx :: l) +:+ rest) = Some (kx :: l, rest)).
Proof.
  induction n as [|n (IHv & IHi & IHm)].
  { split; [| split].
    - intros v rest _ H. destruct v; simpl in H; lia.
    - intros x l rest _ H. simpl in H. lia.
    - intros [k x] l rest _ H. simpl in H. lia. }
  split; [| split].
  - intros v rest Hwf Hcost Hstop.
    change (parse_value (S n) (stringify v +:+ rest))
      with (value_step (parse_items n) (parse_members n) (stringify v +:+ rest)).
    destruct v as [|[]|lit|s|[|x l]|[|kx l]]; try reflexivity.
    + (* numbers *)
      simpl in Hwf. apply andb_true_iff in Hwf as [Hok Hall].
      destruct lit as [|c lit]; [done |].
      assert (Hc : is_num_char c = true).
      { unfold JS.all in Hall. simpl in Hall. by apply andb_true_iff in Hall as [? _]. }
      change (stringify (JNum (String c lit))) with (String c lit).
      rewrite app_String, value_step_number by done.
      rewrite <- app_String, span_num_app by done. by rewrite Hok.
    + (* strings *)
      apply value_step_string.
    + (* arrays *)
      rewrite stringify_arr, app_assoc, app_String, app_empty.
      rewrite cost_arr in Hcost. apply wf_arr in Hwf as Hwf'. destruct Hwf' as [Hx _].
      destruct (stringify_first x Hx) as (c & r & Ex & Hws & Hc & _).
      assert (Ei : exists r', items_text (x :: l) +:+ rest = String c r').
      { simpl. destruct l; rewrite Ex, !app_String; eauto. }
      destruct Ei as (r' & Ei).
      rewrite Ei, value_step_array, <- Ei by done.
      rewrite IHi; [done | done | lia].
    + (* objects *)
      rewrite stringify_obj, app_assoc, app_String, app_empty.
      rewrite cost_obj in Hcost.
      assert (Ei : exists r', members_text (kx :: l) +:+ rest
                              = String (ascii_of_nat 34) r').
      { destruct kx as [k x]. simpl. unfold quote. destruct l; rewrite !app_String; eauto. }
      destruct Ei as (r' & Ei).
      rewrite Ei, value_step_object, <- Ei by done.
      rewrite IHm; [done | done | lia].
  - intros x l rest Hwf Hcost.
    change (parse_items (S n) (items_text (x :: l) +:+ rest))
      with (items_step (parse_value n) (parse_items n) (items_text (x :: l) +:+ rest)).
    apply wf_arr in Hwf as [Hx Hl]. simpl in Hcost.
    destruct l as [|y l].
    + simpl items_text. rewrite app_assoc. apply items_step_last.
      apply IHv; [done | lia | apply stop_bracket].
    + change (items_text (x :: y :: l))
        with (stringify x +:+ "," +:+ items_text (y :: l)).
      rewrite !app_assoc.
      eapply items_step_more.
      * apply IHv; [done | lia | apply stop_comma].
      * apply IHi; [done |]. simpl in *. lia.
  - intros [k x] l rest Hwf Hcost.
    change (parse_members (S n) (members_text ((k, x) :: l) +:+ rest))
      with (members_step (parse_value n) (parse_members n)
              (members_text ((k, x) :: l) +:+ rest)).
    apply wf_obj in Hwf as [Hx Hl]. simpl in Hcost.
    destruct l as [|ky l].
    + simpl members_text. rewrite !app_assoc, members_step_key.
      rewrite IHv; [| done | lia | apply stop_brace].
      by rewrite app_String, app_empty.
    + change (members_text ((k, x) :: ky :: l))
        with (quote k +:+ ":" +:+ stringify x +:+ "," +:+ members_text (ky :: l)).
      rewrite !app_assoc, members_step_key.
      rewrite IHv; [| done | lia | apply stop_comma].
      rewrite app_String, app_empty, skip_ws_keep by done.
      change (JS.code "," =? 44) with true. cbv iota.
      rewrite IHm; [done | done |]. simpl in *. lia.
Qed.

Lemma stringify_nonempty v : wf v = true -> 1 <= String.length (stringify v).
Proof.
  intros H. destruct (stringify_first v H) as (c & r & -> & _). simpl. lia.
Qed.

(** The fuel that [parse] gives is enough for the text of a value. *)
Lemma cost_bound n :
  (forall v, cost v <= n -> wf v = true ->
     cost v <= 2 * String.length (stringify v))
  /\ (forall x l, cost_items (x :: l) <= n -> wf (JArr (x :: l)) = true ->
        cost_items (x :: l) <= 2 * String.length (items_text (x :: l)) + 1)
  /\ (forall kx l, cost_members (kx :: l) <= n -> wf (JObj (kx :: l)) = true ->
        cost_members (kx :: l) <= 2 * String.length (members_text (kx :: l)) + 1).
Proof.
  induction n as [|n (IHv & IHi & IHm)].
  { split; [| split].
    - intros v H. destruct v; simpl in H; lia.
    - intros x l H. simpl in H. lia.
    - intros [k x] l H. simpl in H. lia. }
  split; [| split].
  - intros v Hcost Hwf. pose proof (stringify_nonempty v Hwf) as Hlen.
    destruct v as [|b|lit|s|[|x l]|[|kx l]]; try (simpl cost; lia).
    + rewrite cost_arr in *. rewrite stringify_arr, length_app.
      assert (H := IHi x l ltac:(lia) Hwf). change (String.length "[") with 1. lia.
    + rewrite cost_obj in *. rewrite stringify_obj, length_app.
      assert (H := IHm kx l ltac:(lia) Hwf). change (String.length "{") with 1. lia.
  - intros x l Hcost Hwf. apply wf_arr in Hwf as [Hx Hl].
    simpl in Hcost. assert (Hvx := IHv x ltac:(lia) Hx).
    destruct l as [|y l].
    + simpl. rewrite length_app. simpl. lia.
    + assert (Hil := IHi y l ltac:(simpl in *; lia) Hl).
      change (items_text (x :: y :: l))
        with (stringify x +:+ "," +:+ items_text (y :: l)).
      rewrite !length_app. change (String.length ",") with 1.
      change (cost_items (x :: y :: l))
        with (S (Nat.max (cost x) (cost_items (y :: l)))). lia.
  - intros [k x] l Hcost Hwf. apply wf_obj in Hwf as [Hx Hl].
    simpl in Hcost. assert (Hvx := IHv x ltac:(lia) Hx).
    destruct l as [|ky l].
    + simpl. rewrite !length_app. simpl. lia.
    + assert (Hil := IHm ky l ltac:(simpl in *; lia) Hl).
      change (members_text ((k, x) :: ky :: l))
        with (quote k +:+ ":" +:+ stringify x +:+ "," +:+ members_text (ky :: l)).
      rewrite !length_app. change (String.length ",") with 1.
      change (cost_members ((k, x) :: ky :: l))
        with (S (Nat.max (cost x) (cost_members (ky :: l)))). lia.
Qed.

(** [JSON.parse(JSON.stringify(v))] is [v]. *)
Lemma parse_stringify v : wf v = true -> parse (stringify v) = Some v.
Proof.
  intros Hwf. unfold parse.
  destruct (parse_stringify_fuel (2 * String.length (stringify v) + 2)) as (H & _).
  specialize (H v EmptyString Hwf). rewrite app_empty_r in H. rewrite H; [done | | done].
  destruct (cost_bound (cost v)) as (Hb & _). specialize (Hb v ltac:(lia) Hwf). lia.
Qed.

(** What the parser returns is well formed. *)
Lemma literal_inv p v0 s v r : literal p v0 s = Some (v, r) -> v = v0.
Proof. unfold literal. destruct (expect p s); [| done]. by intros [= <- _]. Qed.

Lemma parse_wf_fuel n :
  (forall s v r, parse_value n s = Some (v, r) -> wf v = true)
  /\ (forall s l r, parse_items n s = Some (l, r) -> forallb wf l = true)
  /\ (forall s l r, parse_members n s = Some (l, r) ->
        forallb (fun kv => wf (snd kv)) l = true).
Proof.
  induction n as [|n (IHv & IHi & IHm)]; [done |].
  split; [| split].
  - intros s v r.
    change (parse_value (S n) s) with (value_step (parse_items n) (parse_members n) s).
    unfold value_step.
    destruct (skip_ws s) as [|c r0]; [done |].
    destruct (JS.code c =? 110); [by intros ->%literal_inv |].
    destruct (JS.code c =? 116); [by intros ->%literal_inv |].
    destruct (JS.code c =? 102); [by intros ->%literal_inv |].
    destruct (JS.code c =? 34).
    { destruct (parse_chars r0) as [[t rest]|]; [| done]. by intros [= <- _]. }
    destruct (JS.code c =? 91).
    { destruct (skip_ws r0) as [|d r']; [done |].
      destruct (JS.code d =? 93); [by intros [= <- _] |].
      destruct (parse_items n r0) as [[vs rest]|] eqn:E; [| done].
      intros [= <- _]. by apply IHi in E. }
    destruct (JS.code c =? 123).
    { destruct (skip_ws r0) as [|d r']; [done |].
      destruct (JS.code d =? 125); [by intros [= <- _] |].
      destruct (parse_members n r0) as [[ms rest]|] eqn:E; [| done].
      intros [= <- _]. by apply IHm in E. }
    pose proof (span_num_all (String c r0)) as Hall.
    destruct (span_num (String c r0)) as [lit rest].
    destruct (number_ok lit) eqn:Hok; [| done].
    intros [= <- _]. simpl in *. by rewrite Hok, Hall.
  - intros s l r.
    change (parse_items (S n) s) with (items_step (parse_value n) (parse_items n) s).
    unfold items_step.
    destruct (parse_value n s) as [[v r1]|] eqn:Ev; [| done]. apply IHv in Ev.
    destruct (skip_ws r1) as [|d r']; [done |].
    destruct (JS.code d =? 44).
    { destruct (parse_items n r') as [[vs rest]|] eqn:E; [| done].
      intros [= <- _]. apply IHi in E. simpl. by rewrite Ev, E. }
    destruct (JS.code d =? 93); [| done].
    intros [= <- _]. simpl. by rewrite Ev.
  - intros s l r.
    change (parse_members (S n) s)
      with (members_step (parse_value n) (parse_members n) s).
    unfold members_step.
    destruct (skip_ws s) as [|q r0]; [done |].
    destruct (JS.code q =? 34); [| done].
    destruct (parse_chars r0) as [[k r1]|]; [| done].
    destruct (skip_ws r1) as [|d r2]; [done |].
    destruct (JS.code d =? 58); [| done].
    destruct (parse_value n r2) as [[v r3]|] eqn:Ev; [| done]. apply IHv in Ev.
    destruct (skip_ws r3) as [|e r4]; [done |].
    destruct (JS.code e =? 44).
    { destruct (parse_members n r4) as [[ms rest]|] eqn:E; [| done].
      intros [= <- _]. apply IHm in E. simpl. by rewrite Ev, E. }
    destruct (JS.code e =? 125); [| done].
    intros [= <- _]. simpl. by rewrite Ev.
Qed.

Lemma parse_wf s v : parse s = Some v -> wf v = true.
Proof.
  unfold parse.
  destruct (parse_value _ s) as [[v' rest]|] eqn:E; [| done].
  destruct (skip_ws rest); [| done]. intros [= <-].
  by apply (parse_wf_fuel _) in E.
Qed.

(** *** Canonical values, and texts that are no arrays *)

Lemma drop_digits_all r : JS.all JS.is_digit r = true -> drop_digits r = EmptyString.
Proof.
  unfold JS.all, JS.chars. induction r as [|c r IH]; [done |].
  cbn [list_ascii_of_string forallb drop_digits].
  intros [Hc Hr]%andb_true_iff. rewrite Hc. by apply IH.
Qed.

Lemma digits_num_chars r :
  JS.all JS.is_digit r = true -> JS.all is_num_char r = true.
Proof.
  unfold JS.all, JS.chars. induction r as [|c r IH]; [done |].
  cbn [list_ascii_of_string forallb].
  intros [Hc Hr]%andb_true_iff. rewrite (IH Hr), andb_true_r.
  unfold is_num_char. by rewrite Hc.
Qed.

Lemma plain_number_wf lit :
  plain_number lit = true ->
  number_ok lit && JS.all is_num_char lit = true.
Proof.
  destruct lit as [|c r]; [done |]. unfold plain_number.
  destruct (JS.code c =? 48) eqn:E0.
  - destruct r; [| done]. intros _. apply Nat.eqb_eq in E0.
    assert (c = ascii_of_nat 48) as ->.
    { rewrite <- (ascii_nat_embedding c). unfold JS.code in E0. by rewrite E0. }
    reflexivity.
  - intros [[Hc Hr]%andb_true_iff _]%andb_true_iff.
    assert (Hd : JS.is_digit c = true).
    { unfold JS.is_digit, JS.in_range in *.
      apply andb_true_iff in Hc as [H1 H2].
      apply Nat.leb_le in H1. apply andb_true_iff.
      split; [apply Nat.leb_le; lia | done]. }
    assert (H45 : (JS.code c =? 45) = false).
    { unfold JS.in_range in Hc. apply andb_true_iff in Hc as [H1 _].
      apply Nat.leb_le in H1. apply Nat.eqb_neq. lia. }
    apply andb_true_iff. split.
    + unfold number_ok. rewrite H45, E0, Hc, drop_digits_all by done. done.
    + pose proof (digits_num_chars r Hr) as Hn.
      unfold JS.all, JS.chars in *. cbn [list_ascii_of_string forallb].
      rewrite Hn, andb_true_r.
      unfold is_num_char. by rewrite Hd.
Qed.

Lemma canonical_wf : forall v, canonical v = true -> wf v = true.
Proof.
  fix IH 1. intros [| b | lit | s | items | members]; try done.
  - apply plain_number_wf.
  - cbn [canonical wf]. induction items as [|x l IHl]; [done |].
    cbn [forallb]. intros [Hx Hl]%andb_true_iff.
    by rewrite (IH x Hx), (IHl Hl).
  - cbn [canonical wf]. intros [H _]%andb_true_iff. revert H.
    induction members as [|[k x] l IHl]; [done |].
    cbn [forallb fst snd]. intros [[_ Hx]%andb_true_iff Hl]%andb_true_iff.
    by rewrite (IH x Hx), (IHl Hl).
Qed.

Lemma canonical_items_wf items :
  forallb canonical items = true -> wf (JArr items) = true.
Proof. intros H. by apply (canonical_wf (JArr items)). Qed.

(** A text that does not begin as an array is not read as one. *)
Lemma parse_no_array text items :
  begins_array text = false -> parse text <> Some (JArr items).
Proof.
  unfold begins_array, parse.
  replace (2 * String.length text + 2) with (S (2 * String.length text + 1)) by lia.
  change (parse_value (S ?n) text)
    with (value_step (parse_items n) (parse_members n) text).
  unfold value_step. destruct (skip_ws text) as [|c r]; [done |].
  intros Hc. rewrite Hc.
  repeat match goal with
  | |- context [if ?b then _ else _] => destruct b
  | |- context [literal ?p ?v ?s] =>
      unfold literal; destruct (expect p s)
  | |- context [match parse_chars ?s with _ => _ end] =>
      destruct (parse_chars s) as [[? ?]|]
  | |- context [match skip_ws ?s with _ => _ end] =>
      destruct (skip_ws s)
  | |- context [let (_, _) := span_num ?s in _] =>
      destruct (span_num s)
  | |- context [match parse_members ?n ?s with _ => _ end] =>
      destruct (parse_members n s) as [[? ?]|]
  end; congruence.
Qed.

End JSONFacts.

(** ** The waitlist form *)

Module WaitlistFormFacts.

Import WaitlistForm Rules.

(** *** The two patterns *)

Lemma isValidZipCode_five_digits v : isValidZipCode v = true <-> five_digits v.
Proof.
  unfold isValidZipCode, RegExp.test, zipRegex, five_digits, JS.all.
  rewrite RegExpFacts.matches_lang, RegExpFacts.lang_times_class.
  by rewrite JSFacts.chars_length.
Qed.

Lemma code_eq c n : JS.code c = n -> c = ascii_of_nat n.
Proof. intros <-. unfold JS.code. by rewrite ascii_nat_embedding. Qed.

Lemma isValidEmail_shape v : isValidEmail v = true <-> email_shape v.
Proof.
  unfold isValidEmail, RegExp.test, emailRegex, email_shape, JS.all.
  rewrite RegExpFacts.matches_lang. split.
  - intros H.
    apply RegExpFacts.lang_plus_class_then in H as (l & r1 & E1 & Hl & Hal & H).
    apply RegExpFacts.lang_class_then in H as (ca & r2 & -> & Hca & H).
    apply RegExpFacts.lang_plus_class_then in H as (d & r3 & -> & Hd & Had & H).
    apply RegExpFacts.lang_class_then in H as (cb & t & -> & Hcb & H).
    apply RegExpFacts.lang_plus_class in H as [Ht Hat].
    apply Nat.eqb_eq, code_eq in Hca, Hcb. subst ca cb.
    exists (string_of_list_ascii l), (string_of_list_ascii d), (string_of_list_ascii t).
    rewrite !JSFacts.chars_of_list. repeat split; try done.
    + apply JSFacts.chars_inj.
      rewrite !JSFacts.chars_append, !JSFacts.chars_of_list. by rewrite E1.
    + intros E. apply JSFacts.chars_nil in E. by rewrite JSFacts.chars_of_list in E.
    + intros E. apply JSFacts.chars_nil in E. by rewrite JSFacts.chars_of_list in E.
    + intros E. apply JSFacts.chars_nil in E. by rewrite JSFacts.chars_of_list in E.
  - intros (l & d & t & -> & Hl & Hd & Ht & Hal & Had & Hat).
    apply RegExpFacts.lang_plus_class_then.
    exists (JS.chars l), (JS.chars ("@" +:+ d +:+ "." +:+ t)).
    split; [by rewrite JSFacts.chars_append |].
    split; [by rewrite JSFacts.chars_nil |]. split; [done |].
    apply RegExpFacts.lang_class_then.
    exists "@"%char, (JS.chars (d +:+ "." +:+ t)). split; [done |]. split; [done |].
    apply RegExpFacts.lang_plus_class_then.
    exists (JS.chars d), (JS.chars ("." +:+ t)).
    split; [by rewrite JSFacts.chars_append |].
    split; [by rewrite JSFacts.chars_nil |]. split; [done |].
    apply RegExpFacts.lang_class_then.
    exists "."%char, (JS.chars t). split; [done |]. split; [done |].
    apply RegExpFacts.lang_plus_class. split; [by rewrite JSFacts.chars_nil | done].
Qed.

(** *** Field validation *)

Lemma not_valid_email v : negb (isValidEmail v) = true <-> ~ email_shape v.
Proof.
  rewrite negb_true_iff, <- isValidEmail_shape. by destruct (isValidEmail v).
Qed.

Lemma not_valid_zip v : negb (isValidZipCode v) = true <-> ~ five_digits v.
Proof.
  rewrite negb_true_iff, <- isValidZipCode_five_digits.
  by destruct (isValidZipCode v).
Qed.

(** The verdict of [validity], rule by rule. *)
Lemma validity_false (field : Element) :
  let value := JS.trim (el_value field) in
  fst (validity field) = false <->
     (el_required field = true /\ value = EmptyString)
  \/ (kind field = "email" /\ value <> EmptyString /\ ~ email_shape value)
  \/ (kind field = "text" /\ el_id field = "zip"
      /\ value <> EmptyString /\ ~ five_digits value)
  \/ (kind field = "text" /\ el_id field = "name"
      /\ value <> EmptyString /\ String.length value < 2).
Proof.
  intros value. unfold validity. fold value.
  rewrite <- not_valid_email, <- not_valid_zip, <- !JSFacts.truthy_true.
  rewrite <- (JSFacts.truthy_false value), <- Nat.ltb_lt.
  destruct (String.eqb_spec (kind field) "email") as [Ek|Ek].
  - rewrite Ek.
    destruct (el_required field), (JS.truthy value), (isValidEmail value);
      simpl; intuition congruence.
  - destruct (String.eqb_spec (kind field) "text") as [Et|Et].
    + destruct (String.eqb_spec (el_id field) "zip") as [Ez|Ez];
        destruct (String.eqb_spec (el_id field) "name") as [En|En];
        try (rewrite Ez in En; discriminate);
        destruct (el_required field), (JS.truthy value),
          (isValidZipCode value), (String.length value <? 2);
        simpl; intuition congruence.
    + destruct (el_required field), (JS.truthy value);
        simpl; intuition congruence.
Qed.

Lemma validity_required (field : Element) :
  el_required field = true -> JS.trim (el_value field) = EmptyString ->
  validity field = (false, "This field is required").
Proof.
  intros Hr Hv. unfold validity. rewrite Hr, Hv. simpl.
  destruct (String.eqb (kind field) "email"); [done |].
  rewrite !andb_false_r. by destruct (String.eqb (kind field) "text").
Qed.

Lemma validateField_eval (w : World) (n : nat) (field : Element) :
  elements w !! n = Some field ->
  JS.eval (validateField (Some n)) w = JS.Returns (fst (validity field)).
Proof.
  intros Hn. unfold JS.eval, validateField, JS.bind, JS.gets. simpl.
  rewrite Hn. destruct (validity field) as [isValid msg]. simpl.
  destruct isValid; simpl.
  - unfold clearFieldError, JS.bind, JS.gets. simpl. rewrite Hn.
    unfold update_element, JS.modify. simpl. rewrite Hn.
    by destruct (el_group field).
  - unfold showFieldError, clearFieldError, JS.bind, JS.gets. simpl. rewrite Hn.
    unfold update_element, JS.modify. simpl. rewrite Hn.
    destruct (el_group field); simpl;
      rewrite list_lookup_insert_eq by (by eapply lookup_lt_Some);
      simpl; by destruct (el_group _).
Qed.

(** *** What the display operations leave alone *)

Lemma display_only_refl w : display_only w w.
Proof. by repeat split. Qed.

Lemma display_only_trans w1 w2 w3 :
  display_only w1 w2 -> display_only w2 w3 -> display_only w1 w3.
Proof.
  unfold display_only. intros H1 H2.
  destruct H1 as (?&?&?&?&?&?&?&?&?&?&?), H2 as (?&?&?&?&?&?&?&?&?&?&?).
  repeat split; congruence.
Qed.

Lemma mark_mark e b e' b' el : mark e b (mark e' b' el) = mark e b el.
Proof. done. Qed.

Lemma validity_mark e b el : validity (mark e b el) = validity el.
Proof. done. Qed.

Lemma entered_insert_mark (l : list Element) n el e b :
  l !! n = Some el ->
  List.map (mark false EmptyString) (<[n := mark e b el]> l)
  = List.map (mark false EmptyString) l.
Proof.
  intros H. change (@List.map) with (@fmap list _).
  rewrite list_fmap_insert, mark_mark. apply list_insert_id.
  by rewrite list_lookup_fmap, H.
Qed.

Lemma update_mark_display w n e b :
  display_only w (JS.exec (update_element n (mark e b)) w).
Proof.
  unfold update_element. js_unfold. simpl.
  destruct (elements w !! n) as [el|] eqn:E; [| apply display_only_refl].
  repeat split. by apply entered_insert_mark.
Qed.

Lemma clearFieldError_returns n w :
  JS.eval (clearFieldError n) w = JS.Returns tt.
Proof.
  unfold clearFieldError, update_element. js_unfold. simpl.
  destruct (elements w !! n) as [el|] eqn:E; simpl; [| done].
  by destruct (el_group el).
Qed.

Lemma set_fieldErrors_display x w : display_only w (set_fieldErrors x w).
Proof. by repeat split. Qed.

Lemma set_focused_display x w : display_only w (set_focused x w).
Proof. by repeat split. Qed.

Lemma set_mark_display w n el e b :
  elements w !! n = Some el ->
  display_only w (set_elements (<[n := mark e b el]> (elements w)) w).
Proof. intros E. repeat split. by apply entered_insert_mark. Qed.

Lemma clearFieldError_display n w :
  display_only w (JS.exec (clearFieldError n) w).
Proof.
  unfold clearFieldError, update_element. js_unfold. simpl.
  destruct (elements w !! n) as [el|] eqn:E; simpl; [| apply display_only_refl].
  destruct (el_group el); simpl; rewrite E.
  - eapply display_only_trans; [by apply set_mark_display |].
    apply set_fieldErrors_display.
  - by apply set_mark_display.
Qed.

Lemma clearFieldError_lookup n w el :
  elements w !! n = Some el ->
  elements (JS.exec (clearFieldError n) w) !! n = Some (mark false EmptyString el).
Proof.
  intros E. unfold clearFieldError, update_element. js_unfold. simpl.
  rewrite E. simpl.
  destruct (el_group el); simpl; rewrite E; simpl;
    by rewrite list_lookup_insert_eq by (by eapply lookup_lt_Some).
Qed.

Lemma showFieldError_returns n msg w :
  JS.eval (showFieldError n msg) w = JS.Returns tt.
Proof.
  unfold showFieldError. unfold JS.eval, JS.bind at 1.
  pose proof (clearFieldError_returns n w) as Hr. unfold JS.eval in Hr.
  destruct (clearFieldError n w) as [r w1]. simpl in Hr. subst r.
  unfold update_element. js_unfold. simpl.
  destruct (elements w1 !! n) as [el|] eqn:E; simpl; [| done].
  by destruct (el_group el).
Qed.

Lemma showFieldError_display n msg w :
  display_only w (JS.exec (showFieldError n msg) w).
Proof.
  unfold showFieldError. unfold JS.exec, JS.bind at 1.
  pose proof (clearFieldError_returns n w) as Hr.
  pose proof (clearFieldError_display n w) as Hd. unfold JS.eval, JS.exec in Hr, Hd.
  destruct (clearFieldError n w) as [r w1]. simpl in Hr, Hd. subst r.
  eapply display_only_trans; [exact Hd |].
  unfold update_element. js_unfold. simpl.
  destruct (elements w1 !! n) as [el|] eqn:E; simpl; [| apply display_only_refl].
  destruct (el_group el); simpl; rewrite E.
  - eapply display_only_trans; [by apply set_mark_display |].
    eapply display_only_trans; [apply set_fieldErrors_display |].
    apply set_focused_display.
  - eapply display_only_trans; [by apply set_mark_display |].
    apply set_focused_display.
Qed.

Lemma clearAllErrors_display w :
  display_only w (JS.exec clearAllErrors w).
Proof.
  unfold clearAllErrors. js_unfold. simpl. repeat split.
  unfold entered. simpl. rewrite List.map_map. apply List.map_ext.
  intros el. by destruct (el_error el).
Qed.

Lemma showGeneralError_display msg w :
  display_only w (JS.exec (showGeneralError msg) w).
Proof. by repeat split. Qed.

Lemma console_log_display msg w : display_only w (JS.exec (console_log msg) w).
Proof. by repeat split. Qed.

(** *** Validation reads what was entered, and changes the display only *)

Lemma entered_lookup w n :
  entered w !! n = mark false EmptyString <$> (elements w !! n).
Proof. unfold entered. change (@List.map) with (@fmap list _). apply list_lookup_fmap. Qed.

Lemma field_ok_entered w w' field :
  entered w' = entered w -> field_ok w' field = field_ok w field.
Proof.
  intros He. destruct field as [n|]; [| done]. simpl.
  pose proof (entered_lookup w n) as H1. pose proof (entered_lookup w' n) as H2.
  rewrite He, H1 in H2.
  destruct (elements w !! n) as [a|], (elements w' !! n) as [b|];
    simpl in H2; try done.
  assert (E : mark false EmptyString b = mark false EmptyString a) by congruence.
  change (fst (validity (mark false EmptyString b))
          = fst (validity (mark false EmptyString a))).
  by rewrite E.
Qed.

Lemma find_map_mark (p : Element -> bool) (l : list Element) :
  (forall el, p (mark false EmptyString el) = p el) ->
  List.find p (List.map (mark false EmptyString) l)
  = mark false EmptyString <$> List.find p l.
Proof.
  intros Hp. induction l as [|el l IH]; simpl; [done |].
  rewrite Hp. by destruct (p el).
Qed.

Lemma checked_radio_entered w w' :
  entered w' = entered w ->
  mark false EmptyString <$> checked_radio w'
  = mark false EmptyString <$> checked_radio w.
Proof.
  intros He. unfold checked_radio.
  rewrite <- !find_map_mark by done. fold (entered w) (entered w'). by rewrite He.
Qed.

Lemma formIsValid_entered w w' :
  entered w' = entered w -> fields w' = fields w ->
  formIsValid w' = formIsValid w.
Proof.
  intros He Hf. unfold formIsValid.
  pose proof (checked_radio_entered _ _ He) as Hc.
  rewrite Hf. f_equal.
  - apply JSFacts.forallb_ext. intros f. by apply field_ok_entered.
  - destruct (checked_radio w), (checked_radio w'); try done.
Qed.

Lemma value_of_entered w w' field :
  entered w' = entered w -> value_of field w' = value_of field w.
Proof.
  intros He. destruct field as [n|]; [| done]. simpl.
  pose proof (entered_lookup w n) as H1. pose proof (entered_lookup w' n) as H2.
  rewrite He, H1 in H2.
  destruct (elements w !! n) as [a|], (elements w' !! n) as [b|];
    simpl in *; try done.
  assert (E : mark false EmptyString b = mark false EmptyString a) by congruence.
  f_equal.
  change (el_value (mark false EmptyString b) = el_value (mark false EmptyString a)).
  by rewrite E.
Qed.

Lemma collectFormData_entered now w w' :
  entered w' = entered w -> fields w' = fields w ->
  collectFormData now w' = collectFormData now w.
Proof.
  intros He Hf. unfold collectFormData, trimmed.
  pose proof (checked_radio_entered _ _ He) as Hc.
  rewrite Hf, !(value_of_entered w w') by done.
  assert (Hv : el_value <$> checked_radio w' = el_value <$> checked_radio w).
  { destruct (checked_radio w) as [a|], (checked_radio w') as [b|];
      simpl in *; try done.
    assert (E : mark false EmptyString b = mark false EmptyString a) by congruence.
    f_equal.
    change (el_value (mark false EmptyString b) = el_value (mark false EmptyString a)).
    by rewrite E. }
  destruct (checked_radio w), (checked_radio w'); simpl in Hv; try done.
  by inversion Hv.
Qed.

Lemma display_only_entered w w' : display_only w w' -> entered w' = entered w.
Proof. by intros (? & _). Qed.

Lemma display_only_fields w w' : display_only w w' -> fields w' = fields w.
Proof. unfold display_only. tauto. Qed.

Lemma validateField_run field w :
  exists w', validateField field w = (JS.Returns (field_ok w field), w')
             /\ display_only w w'.
Proof.
  destruct field as [n|]; simpl; [| eexists; split; [done | apply display_only_refl]].
  js_unfold. destruct (elements w !! n) as [el|] eqn:E;
    [| eexists; split; [done | apply display_only_refl]].
  destruct (validity el) as [isValid msg]. simpl. destruct isValid; simpl.
  - pose proof (clearFieldError_returns n w) as Hr.
    pose proof (clearFieldError_display n w) as Hd. unfold JS.eval, JS.exec in Hr, Hd.
    destruct (clearFieldError n w) as [r w1]. simpl in *. subst r. eauto.
  - pose proof (showFieldError_returns n msg w) as Hr.
    pose proof (showFieldError_display n msg w) as Hd.
    unfold JS.eval, JS.exec in Hr, Hd.
    destruct (showFieldError n msg w) as [r w1]. simpl in *. subst r. eauto.
Qed.

Lemma validate_each_run l isFormValid w :
  exists w', validate_each l isFormValid w
             = (JS.Returns (isFormValid && forallb (field_ok w) l), w')
             /\ display_only w w'.
Proof.
  revert isFormValid w. induction l as [|field l IH]; intros b w; simpl.
  - rewrite andb_true_r. eexists; split; [done | apply display_only_refl].
  - destruct field as [n|].
    + unfold JS.bind at 1.
      destruct (validateField_run (Some n) w) as (w1 & -> & Hd1).
      destruct (IH (if negb (field_ok w (Some n)) then false else b) w1)
        as (w2 & -> & Hd2).
      exists w2. split; [| by eapply display_only_trans].
      f_equal. f_equal.
      rewrite (JSFacts.forallb_ext (field_ok w1) (field_ok w))
        by (intros f; by apply field_ok_entered, display_only_entered).
      destruct (field_ok w (Some n)), b; simpl; done.
    + change (field_ok w None) with true. simpl. apply IH.
Qed.

Lemma validateForm_run w :
  exists w', validateForm w = (JS.Returns (formIsValid w), w')
             /\ display_only w w'.
Proof.
  unfold validateForm. unfold JS.bind at 1, JS.gets at 1. unfold JS.bind at 1.
  destruct (validate_each_run (field_values (fields w)) true w) as (w1 & -> & Hd1).
  unfold JS.bind, JS.gets. unfold formIsValid.
  pose proof (checked_radio_entered _ _ (display_only_entered _ _ Hd1)) as Hc.
  destruct (checked_radio w1) eqn:E1, (checked_radio w) eqn:E; try done.
  - exists w1. split; [| done]. unfold JS.ret.
    replace (bool_decide (is_Some (Some e0))) with true by done.
    by rewrite andb_true_r.
  - replace (bool_decide (is_Some (@None Element))) with false by done.
    rewrite andb_false_r. eexists. split; [done |].
    eapply display_only_trans; [exact Hd1 | apply showGeneralError_display].
Qed.

(** *** [handleSubmit] up to the request *)

Lemma handleSubmit_busy now w :
  isSubmitting w = true -> handleSubmit now w = (JS.Returns tt, w).
Proof. intros H. unfold handleSubmit. js_unfold. by rewrite H. Qed.

(** The world in which [handleSubmit] validates the form. *)
Lemma handleSubmit_validates now w :
  isSubmitting w = false ->
  exists w1, display_only w w1 /\
    handleSubmit now w =
      (if negb (formIsValid w) then
         JS.bind (console_log "Form validation failed") (fun _ =>
           showGeneralError "Please fix the errors above and try again")
       else
         JS.bind (setSubmittingState true) (fun _ =>
           JS.bind (JS.gets (collectFormData now)) (fun formData =>
             JS.bind (submitToGoogleForms_begin formData) (fun _ =>
               JS.modify (fun w => set_pending (pending w ++ [formData]) w))))) w1.
Proof.
  intros Hs. unfold handleSubmit.
  unfold JS.bind at 1, JS.gets at 1. rewrite Hs.
  unfold JS.bind at 1. unfold console_log at 1, JS.modify at 1.
  unfold JS.bind at 1. unfold clearAllErrors at 1.
  set (w0 := JS.exec clearAllErrors
               (set_console (console w ++ [(Log, "Form submission started...")]) w)).
  assert (Hd0 : display_only w w0).
  { eapply display_only_trans; [| apply clearAllErrors_display].
    apply (console_log_display "Form submission started..."). }
  change ((JS.bind (JS.modify (set_fieldErrors ∅)) _)
            (set_console (console w ++ [(Log, "Form submission started...")]) w))
    with (JS.Returns tt, w0).
  cbv beta iota. unfold JS.bind at 1.
  destruct (validateForm_run w0) as (w1 & -> & Hd1).
  exists w1. split; [by eapply display_only_trans |].
  rewrite (formIsValid_entered w w0); [done | |].
  - by apply display_only_entered.
  - by apply display_only_fields.
Qed.

Lemma handleSubmit_invalid now w :
  isSubmitting w = false -> formIsValid w = false ->
  exists w', handleSubmit now w = (JS.Returns tt, w')
    /\ display_only w w'
    /\ head (generalErrors w') = Some "Please fix the errors above and try again".
Proof.
  intros Hs Hv. destruct (handleSubmit_validates now w Hs) as (w1 & Hd & ->).
  rewrite Hv. simpl. js_unfold. simpl. eexists. split; [done |]. split; [| done].
  eapply display_only_trans; [exact Hd |]. by repeat split.
Qed.

Lemma handleSubmit_valid now w :
  isSubmitting w = false -> formIsValid w = true ->
  exists w',
    handleSubmit now w = (JS.Returns tt, w')
    /\ entered w' = entered w
    /\ fields w' = fields w
    /\ isSubmitting w' = true
    /\ storage w' = storage w
    /\ quota w' = quota w
    /\ requests w' = requests w ++
         [mkRequest GOOGLE_FORM_URL "POST"
            (googleFormData (collectFormData now w)) "no-cors"]
    /\ pending w' = pending w ++ [collectFormData now w].
Proof.
  intros Hs Hv. destruct (handleSubmit_validates now w Hs) as (w1 & Hd & ->).
  rewrite Hv. simpl.
  assert (He : entered w1 = entered w) by (by apply display_only_entered).
  assert (Hf : fields w1 = fields w) by (by apply display_only_fields).
  destruct Hd as (_ & _ & _ & _ & _ & _ & _ & Hst & Hq & Hr & Hp).
  unfold setSubmittingState, submitToGoogleForms_begin, console_log.
  js_unfold. cbn -[collectFormData googleFormData].
  destruct (submitBtn w1); cbn -[collectFormData googleFormData];
    (eexists; split; [reflexivity |]; cbn -[collectFormData googleFormData];
     rewrite !(collectFormData_entered now w) by done;
     rewrite Hst, Hq, Hr, Hp; by repeat split).
Qed.

(** *** The local fallback log *)

(** [storeFormDataLocally] never raises, touches the stored log and the
    console only, and leaves the text that [stored_after] describes. *)
Lemma storeFormDataLocally_run formData w :
  exists w', storeFormDataLocally formData w = (JS.Returns tt, w')
    /\ storage_only w w'
    /\ storage w' = stored_after formData w.
Proof.
  unfold storeFormDataLocally, stored_after, log_entries, fits, getItem,
    JSON_parse, push, setItem, console_log, console_warn.
  js_unfold. cbn -[JSON.parse JSON.stringify record Nat.ltb].
  destruct (JSON.parse _) as [v|]; cbn -[JSON.parse JSON.stringify record Nat.ltb];
    [| eexists; split; [reflexivity |]; by repeat split].
  destruct v; cbn -[JSON.parse JSON.stringify record Nat.ltb];
    try (eexists; split; [reflexivity |]; by repeat split).
  destruct (quota w) as [q|]; cbn -[JSON.parse JSON.stringify record Nat.ltb];
    [| eexists; split; [reflexivity |]; by repeat split].
  match goal with |- context [q <? ?n] => destruct (q <? n) end;
    cbn -[JSON.parse JSON.stringify record Nat.ltb];
    eexists; (split; [reflexivity |]); by repeat split.
Qed.

Lemma storeFormDataLocally_returns formData w :
  JS.eval (storeFormDataLocally formData) w = JS.Returns tt.
Proof.
  destruct (storeFormDataLocally_run formData w) as (w' & E & _).
  unfold JS.eval. by rewrite E.
Qed.

(** *** [submitToGoogleForms] and [handleSubmit] once the request is settled *)

Lemma submitToGoogleForms_resolved formData w :
  exists w', submitToGoogleForms_resume formData Resolved w = (JS.Returns true, w')
    /\ storage_only w w'
    /\ storage w' = stored_after formData w.
Proof.
  unfold submitToGoogleForms_resume, console_log.
  unfold JS.try_catch, JS.bind at 1 2 3, JS.ret at 1, JS.modify at 1.
  set (w0 := set_console _ w).
  destruct (storeFormDataLocally_run formData w0) as (w' & -> & Hs & Hst).
  exists w'. split; [done |]. split; [| done].
  unfold storage_only in *. subst w0. simpl in *. tauto.
Qed.

Lemma submitToGoogleForms_rejected formData e w :
  exists w', submitToGoogleForms_resume formData (Rejected e) w = (JS.Throws e, w')
    /\ storage_only w w'
    /\ storage w' = stored_after formData w.
Proof.
  unfold submitToGoogleForms_resume, console_error.
  unfold JS.try_catch, JS.bind at 1 2 3, JS.throw at 1.
  unfold JS.bind at 1 2, JS.modify at 1.
  set (w0 := set_console _ w).
  destruct (storeFormDataLocally_run formData w0) as (w' & -> & Hs & Hst).
  exists w'. split; [done |]. split; [| done].
  unfold storage_only in *. subst w0. simpl in *. tauto.
Qed.

Lemma handleSubmit_resume_run formData s w :
  exists w', handleSubmit_resume formData s w = (JS.Returns tt, w')
    /\ storage w' = stored_after formData w
    /\ isSubmitting w' = false
    /\ quota w' = quota w
    /\ requests w' = requests w
    /\ pending w' = pending w
    /\ fields w' = fields w
    /\ listeners w' = listeners w.
Proof.
  unfold handleSubmit_resume. unfold JS.try_finally, JS.try_catch at 1, JS.bind at 1.
  destruct s as [|e].
  - destruct (submitToGoogleForms_resolved formData w) as (w1 & -> & Hs & Hst).
    unfold storage_only in Hs. unfold showSuccessMessage, resetForm, clearAllErrors,
      console_log, setSubmittingState.
    js_unfold. simpl. destruct (submitBtn w1); simpl;
      (eexists; split; [reflexivity |]; simpl; rewrite Hst; repeat split; tauto).
  - destruct (submitToGoogleForms_rejected formData e w) as (w1 & -> & Hs & Hst).
    unfold storage_only in Hs. unfold showSubmissionError, showGeneralError,
      console_error, setSubmittingState.
    js_unfold. simpl. destruct (submitBtn w1); simpl;
      (eexists; split; [reflexivity |]; simpl; rewrite Hst; repeat split; tauto).
Qed.

(** *** The page over time: one submission at a time *)

Lemma same_traffic_refl w : same_traffic w w.
Proof. by repeat split. Qed.

Lemma same_traffic_trans w1 w2 w3 :
  same_traffic w1 w2 -> same_traffic w2 w3 -> same_traffic w1 w3.
Proof.
  unfold same_traffic. intros (?&?&?&?&?) (?&?&?&?&?). repeat split; congruence.
Qed.

Lemma display_only_traffic w w' : display_only w w' -> same_traffic w w'.
Proof. unfold display_only, same_traffic. tauto. Qed.

(** What the user does to the controls leaves the traffic alone. *)
Lemma user_event_traffic e w :
  match e with Submit _ | Settle _ _ => False | _ => True end ->
  same_traffic w (step w e).
Proof.
  destruct e as [now|i s|n text|n|n]; try done; intros _; unfold step, handle.
  - unfold JS.exec, JS.bind at 1. unfold update_element at 1, JS.modify at 1.
    unfold JS.bind at 1, JS.gets at 1, JS.when.
    set (w0 := match elements w !! n with Some _ => _ | None => _ end).
    assert (H0 : same_traffic w w0) by (subst w0; by destruct (elements w !! n)).
    destruct (listens n w0); [| done].
    eapply same_traffic_trans; [exact H0 |].
    apply display_only_traffic, clearFieldError_display.
  - unfold JS.exec, JS.bind at 1, JS.gets at 1.
    destruct (listens n w); [| apply same_traffic_refl].
    unfold JS.bind. destruct (validateField_run (Some n) w) as (w1 & -> & Hd).
    by apply display_only_traffic.
  - unfold JS.exec, JS.bind at 1, JS.gets at 1.
    destruct (elements w !! n) as [el|]; [| apply same_traffic_refl].
    destruct (String.eqb (el_type el) "radio"); [| apply same_traffic_refl].
    unfold JS.bind at 1, JS.modify at 1. unfold JS.bind at 1.
    set (w0 := set_elements _ w).
    assert (H0 : same_traffic w w0) by done.
    assert (H1 : same_traffic w (snd (JS.when (listens n w) (clearFieldError n) w0))).
    { unfold JS.when. destruct (listens n w); [| done].
      eapply same_traffic_trans; [exact H0 |].
      apply display_only_traffic, clearFieldError_display. }
    assert (Hr : fst (JS.when (listens n w) (clearFieldError n) w0) = JS.Returns tt).
    { unfold JS.when. destruct (listens n w); [| done].
      apply clearFieldError_returns. }
    destruct (JS.when (listens n w) (clearFieldError n) w0) as [r w1].
    simpl in H1, Hr. subst r. unfold JS.when, onchange, JS.modify.
    by destruct (_ && _).
Qed.

Lemma step_single_flight e w : single_flight w -> single_flight (step w e).
Proof.
  intros Hw. destruct e as [now|i s|n text|n|n].
  - unfold step, JS.exec, handle.
    destruct Hw as [[Hs Hp] | [Hs Hp]].
    + destruct (formIsValid w) eqn:Hv.
      * destruct (handleSubmit_valid now w Hs Hv)
          as (w' & -> & _ & _ & Hs' & _ & _ & _ & Hp').
        right. simpl. split; [done |]. rewrite Hp', Hp. eauto.
      * destruct (handleSubmit_invalid now w Hs Hv) as (w' & -> & Hd & _).
        apply display_only_traffic in Hd as (Hs' & Hp' & _).
        left. simpl. by rewrite Hs', Hp'.
    + rewrite handleSubmit_busy by done. by right.
  - unfold step, JS.exec, handle. unfold JS.bind at 1, JS.gets at 1.
    destruct Hw as [[Hs Hp] | [Hs [formData Hp]]].
    + rewrite Hp. simpl. by left.
    + rewrite Hp. destruct i as [|i]; simpl; [| by right; eauto].
      unfold JS.bind, JS.modify.
      destruct (handleSubmit_resume_run formData s (set_pending [] w))
        as (w' & -> & _ & Hs' & _ & _ & Hp' & _).
      by left.
  - pose proof (user_event_traffic (Input n text) w I) as (Hs & Hp & _).
    unfold single_flight. by rewrite Hs, Hp.
  - pose proof (user_event_traffic (Blur n) w I) as (Hs & Hp & _).
    unfold single_flight. by rewrite Hs, Hp.
  - pose proof (user_event_traffic (Pick n) w I) as (Hs & Hp & _).
    unfold single_flight. by rewrite Hs, Hp.
Qed.

Lemma run_single_flight es w : single_flight w -> single_flight (run es w).
Proof.
  revert w. induction es as [|e es IH]; intros w Hw; simpl; [done |].
  by apply IH, step_single_flight.
Qed.

(** *** The statements about the waitlist form *)

Lemma validateForm_eval w : JS.eval validateForm w = JS.Returns (formIsValid w).
Proof.
  destruct (validateForm_run w) as (w' & E & _). unfold JS.eval. by rewrite E.
Qed.

Lemma validity_email (field : Element) :
  let value := JS.trim (el_value field) in
  kind field = "email" -> value <> EmptyString -> ~ email_shape value ->
  validity field = (false, "Please enter a valid email address").
Proof.
  intros value Hk Hv He. unfold validity. fold value. rewrite Hk.
  apply JSFacts.truthy_true in Hv. apply not_valid_email in He.
  by rewrite Hv, He.
Qed.

Lemma validity_zip (field : Element) :
  let value := JS.trim (el_value field) in
  kind field = "text" -> el_id field = "zip" ->
  value <> EmptyString -> ~ five_digits value ->
  validity field = (false, "Please enter a valid 5-digit zip code").
Proof.
  intros value Hk Hi Hv Hz. unfold validity. fold value. rewrite Hk, Hi.
  apply JSFacts.truthy_true in Hv. apply not_valid_zip in Hz.
  by rewrite Hv, Hz.
Qed.

Lemma validity_name (field : Element) :
  let value := JS.trim (el_value field) in
  kind field = "text" -> el_id field = "name" ->
  value <> EmptyString -> String.length value < 2 ->
  validity field = (false, "Name must be at least 2 characters long").
Proof.
  intros value Hk Hi Hv Hn. unfold validity. fold value. rewrite Hk, Hi.
  apply JSFacts.truthy_true in Hv. apply Nat.ltb_lt in Hn.
  rewrite Hv, Hn. cbn. by destruct (el_required field).
Qed.

(** C5. [validateField] finds a field invalid exactly when it breaks one of
    the four rules: a required field whose trimmed value is empty (and the
    message is then the "required" one); a non-empty value of an email
    field that is not of the shape local@domain.tld; a non-empty value of
    the zip field that is not five digits; a non-empty value of the name
    field shorter than two characters; and each of the last three rules
    has its own message.  The method tells the fields apart by
    [field.type || field.tagName.toLowerCase()]: the email rule applies to
    a control for which this is [email], the zip and name rules to the
    controls for which it is [text], with the ids [zip] and [name]. *)
Theorem validateField_rules (field : Element) :
  let value := JS.trim (el_value field) in
  let key := JS.or_else (el_type field) (JS.toLowerCase (el_tagName field)) in
  (fst (validity field) = false <->
      (el_required field = true /\ value = EmptyString)
   \/ (key = "email" /\ value <> EmptyString /\ ~ email_shape value)
   \/ (key = "text" /\ el_id field = "zip"
       /\ value <> EmptyString /\ ~ five_digits value)
   \/ (key = "text" /\ el_id field = "name"
       /\ value <> EmptyString /\ String.length value < 2))
  /\ (el_required field = true -> value = EmptyString ->
      snd (validity field) = "This field is required")
  /\ (key = "email" -> value <> EmptyString -> ~ email_shape value ->
      snd (validity field) = "Please enter a valid email address")
  /\ (key = "text" -> el_id field = "zip" ->
      value <> EmptyString -> ~ five_digits value ->
      snd (validity field) = "Please enter a valid 5-digit zip code")
  /\ (key = "text" -> el_id field = "name" ->
      value <> EmptyString -> String.length value < 2 ->
      snd (validity field) = "Name must be at least 2 characters long")
  /\ (forall (w : World) (n : nat),
        elements w !! n = Some field ->
        JS.eval (validateField (Some n)) w = JS.Returns (fst (validity field))).
Proof.
  intros value key. split_and!.
  - apply validity_false.
  - intros Hr Hv. by rewrite validity_required.
  - intros Hk Hv He. by rewrite validity_email.
  - intros Hk Hi Hv Hz. by rewrite validity_zip.
  - intros Hk Hi Hv Hn. by rewrite validity_name.
  - intros w n. apply validateField_eval.
Qed.

(** On the sample form: the email control holding [ada.example.org] is
    found invalid by the email rule, with its message, and holding
    [ada@example.org] it is found valid; the zip field holding [1234] is
    found invalid by the zip rule, and holding [12345] valid; the name
    field holding [A] is found invalid by the name rule. *)
Lemma validateField_rules_witness :
  JS.eval (validateField (Some 1)) (Samples.form "Ada" "ada.example.org" "12345" true None)
  = JS.Returns false
  /\ snd (validity (Samples.input "email" "email" true "ada.example.org" 1))
     = "Please enter a valid email address"
  /\ JS.eval (validateField (Some 1)) (Samples.filled None) = JS.Returns true
  /\ JS.eval (validateField (Some 2)) (Samples.form "Ada" "ada@example.org" "1234" true None)
     = JS.Returns false
  /\ JS.eval (validateField (Some 2)) (Samples.filled None) = JS.Returns true
  /\ JS.eval (validateField (Some 0)) (Samples.form "A" "ada@example.org" "12345" true None)
     = JS.Returns false.
Proof.
  assert (He : ~ email_shape "ada.example.org").
  { intros H%isValidEmail_shape. vm_compute in H. discriminate. }
  assert (Hz : ~ five_digits "1234").
  { intros H%isValidZipCode_five_digits. vm_compute in H. discriminate. }
  split_and!.
  - destruct (validateField_rules (Samples.input "email" "email" true "ada.example.org" 1))
      as (Hf & _ & _ & _ & _ & H).
    rewrite (H (Samples.form "Ada" "ada.example.org" "12345" true None) 1 eq_refl).
    apply (f_equal JS.Returns), Hf. right. left. split; [reflexivity |].
    split; [discriminate | exact He].
  - destruct (validateField_rules (Samples.input "email" "email" true "ada.example.org" 1))
      as (_ & _ & Hm & _).
    apply Hm; [reflexivity | discriminate | exact He].
  - destruct (validateField_rules (Samples.input "email" "email" true "ada@example.org" 1))
      as (_ & _ & _ & _ & _ & H).
    apply (H (Samples.filled None) 1). reflexivity.
  - destruct (validateField_rules (Samples.input "zip" "text" true "1234" 2))
      as (Hf & _ & _ & _ & _ & H).
    rewrite (H (Samples.form "Ada" "ada@example.org" "1234" true None) 2 eq_refl).
    apply (f_equal JS.Returns), Hf. right. right. left. split; [reflexivity |].
    split; [reflexivity |]. split; [discriminate | exact Hz].
  - destruct (validateField_rules (Samples.input "zip" "text" true "12345" 2))
      as (_ & _ & _ & _ & _ & H).
    apply (H (Samples.filled None) 2). reflexivity.
  - destruct (validateField_rules (Samples.input "name" "text" true "A" 0))
      as (Hf & _ & _ & _ & _ & H).
    rewrite (H (Samples.form "A" "ada@example.org" "12345" true None) 0 eq_refl).
    apply (f_equal JS.Returns), Hf. right. right. right. split; [reflexivity |].
    split; [reflexivity |]. split; [discriminate | simpl; lia].
Defined.

(** C10. [validateField] of an absent field returns [true] and marks
    nothing; [validateForm] passes over the absent fields; with no radio
    button picked, and so no espresso-machine field, the verdict on the
    form is that of the five other fields and of the presence check, and
    the presence check rejects the form with its own message. *)
Theorem absent_field_is_skipped :
  (forall w : World, validateField None w = (JS.Returns true, w))
  /\ (forall (l : list (option nat)) (isFormValid : bool) (w : World),
        validate_each (None :: l) isFormValid w = validate_each l isFormValid w)
  /\ (forall w : World,
        f_espressoMachine (fields w) = None ->
        JS.eval validateForm w =
        JS.Returns
          (forallb (field_ok w)
             [f_name (fields w); f_email (fields w); f_zip (fields w);
              f_interest (fields w); f_comments (fields w)]
           && bool_decide (is_Some (checked_radio w))))
  /\ (forall w : World,
        checked_radio w = None ->
        exists w', validateForm w = (JS.Returns false, w')
          /\ head (generalErrors w')
             = Some "Please select whether you own an espresso machine").
Proof.
  split; [done |]. split; [done |]. split.
  - intros w He. rewrite validateForm_eval. unfold formIsValid, field_values.
    rewrite He. simpl. by rewrite !andb_true_r.
  - intros w Hc. unfold validateForm. unfold JS.bind at 1, JS.gets at 1.
    unfold JS.bind at 1.
    destruct (validate_each_run (field_values (fields w)) true w) as (w1 & -> & Hd).
    unfold JS.bind at 1, JS.gets at 1.
    pose proof (checked_radio_entered _ _ (display_only_entered _ _ Hd)) as H.
    rewrite Hc in H. destruct (checked_radio w1); [done |].
    eexists. split; reflexivity.
Qed.

(** On the filled form with no radio button picked, the fields are valid
    and the presence check alone rejects the form. *)
Lemma absent_field_is_skipped_witness :
  let w := Samples.form "Ada" "ada@example.org" "12345" false None in
  JS.eval validateForm w = JS.Returns false
  /\ forallb (field_ok w) (field_values (fields w)) = true
  /\ exists w', validateForm w = (JS.Returns false, w')
       /\ head (generalErrors w')
          = Some "Please select whether you own an espresso machine".
Proof.
  destruct absent_field_is_skipped as (_ & _ & H3 & H4).
  split; [| split].
  - rewrite H3; reflexivity.
  - reflexivity.
  - apply H4. reflexivity.
Defined.

(** C2. When [validateForm] finds the form invalid, [handleSubmit] shows
    the aggregate error and stops: no request is made, no submission is
    left under way, the stored log is as it was and the handler is not
    busy. *)
Theorem invalid_form_stops_submission (w : World) (now : string) :
  isSubmitting w = false ->
  JS.eval validateForm w = JS.Returns false ->
  exists w', handleSubmit now w = (JS.Returns tt, w')
    /\ head (generalErrors w') = Some "Please fix the errors above and try again"
    /\ requests w' = requests w
    /\ pending w' = pending w
    /\ storage w' = storage w
    /\ isSubmitting w' = false.
Proof.
  intros Hs Hv. rewrite validateForm_eval in Hv.
  assert (Hv' : formIsValid w = false) by congruence. clear Hv.
  destruct (handleSubmit_invalid now w Hs Hv') as (w' & E & Hd & Hg).
  exists w'. split; [done |]. split; [done |].
  destruct Hd as (_ & _ & _ & _ & _ & Hs' & _ & Hst & _ & Hr & Hp).
  repeat split; congruence.
Qed.

(** The form with an empty name: the name field gets the "required"
    message, and nothing is sent or stored. *)
Lemma invalid_form_stops_submission_witness :
  let w := Samples.form EmptyString "ada@example.org" "12345" true None in
  exists w', handleSubmit "2024-05-01T10:00:00.000Z" w = (JS.Returns tt, w')
    /\ head (generalErrors w') = Some "Please fix the errors above and try again"
    /\ requests w' = requests w
    /\ pending w' = pending w
    /\ storage w' = storage w
    /\ isSubmitting w' = false.
Proof.
  apply invalid_form_stops_submission; reflexivity.
Defined.

(** C3. From a page on which no submission is under way, whatever happens
    next, at most one submission is under way at any time and the handler
    is busy exactly while one is; and a submit that arrives while the
    handler is busy changes nothing: no request, no entry in the log. *)
Theorem submit_is_single_flight (es : list event) (w : World) :
  isSubmitting w = false ->
  pending w = [] ->
  single_flight (run es w)
  /\ forall now : string,
       isSubmitting (run es w) = true ->
       handleSubmit now (run es w) = (JS.Returns tt, run es w).
Proof.
  intros Hs Hp. split.
  - apply run_single_flight. by left.
  - intros now. apply handleSubmit_busy.
Qed.

(** A second submit while the first is under way, on the filled form. *)
Lemma submit_is_single_flight_witness :
  let w := run [Submit "2024-05-01T10:00:00.000Z"] (Samples.filled None) in
  isSubmitting w = true
  /\ single_flight w
  /\ handleSubmit "2024-05-01T10:00:01.000Z" w = (JS.Returns tt, w).
Proof.
  destruct (submit_is_single_flight [Submit "2024-05-01T10:00:00.000Z"]
              (Samples.filled None)) as [H1 H2]; [reflexivity | reflexivity |].
  split; [reflexivity |]. split; [exact H1 |]. apply H2. reflexivity.
Defined.

(** *** What is stored and what is sent *)

Lemma step_sourced e w : sourced w -> sourced (step w e).
Proof.
  unfold sourced. intros Hw. destruct e as [now|i s|n text|n|n].
  - unfold step, JS.exec, handle.
    destruct (isSubmitting w) eqn:Hs; [by rewrite handleSubmit_busy |].
    destruct (formIsValid w) eqn:Hv.
    + destruct (handleSubmit_valid now w Hs Hv)
        as (w' & -> & _ & _ & _ & _ & _ & _ & Hp').
      simpl. rewrite Hp'. apply Forall_app. split; [done |]. by constructor.
    + destruct (handleSubmit_invalid now w Hs Hv) as (w' & -> & Hd & _).
      apply display_only_traffic in Hd as (_ & Hp' & _). simpl. by rewrite Hp'.
  - unfold step, JS.exec, handle. unfold JS.bind at 1, JS.gets at 1.
    destruct (pending w !! i) as [formData|] eqn:Hi; [| done].
    unfold JS.bind, JS.modify.
    destruct (handleSubmit_resume_run formData s (set_pending (delete i (pending w)) w))
      as (w' & -> & _ & _ & _ & _ & Hp' & _).
    simpl. rewrite Hp'. simpl. by apply Forall_delete.
  - pose proof (user_event_traffic (Input n text) w I) as (_ & Hp & _).
    by rewrite Hp.
  - pose proof (user_event_traffic (Blur n) w I) as (_ & Hp & _). by rewrite Hp.
  - pose proof (user_event_traffic (Pick n) w I) as (_ & Hp & _). by rewrite Hp.
Qed.

Lemma run_sourced es w : sourced w -> sourced (run es w).
Proof.
  revert w. induction es as [|e es IH]; intros w Hw; simpl; [done |].
  by apply IH, step_sourced.
Qed.

Lemma member_json_key k v key :
  In key (List.map fst (member_json k v)) -> k = key.
Proof.
  destruct v as [|?|b]; simpl; [done | tauto |].
  destruct (String.eqb b "__proto__"); simpl; tauto.
Qed.

(** C9. The form data that [collectFormData] builds carries the time and
    the constant [source]; its record for the log ends with these two
    members, after the six form fields (all six when the two choices are
    strings); the body of the request is the six entries under their entry
    ids, whatever the time and the source; and whatever happens to the
    page, every submission under way, which is what gets appended to the
    log, carries the constant [source]. *)
Theorem record_and_request_body (now : string) (w : World) :
  let formData := collectFormData now w in
  source formData = "MyLocalBarista Landing Page"
  /\ timestamp formData = now
  /\ (exists members,
        record formData =
        JSON.JObj (members ++
          [ ("timestamp", JSON.JStr now);
            ("source", JSON.JStr "MyLocalBarista Landing Page") ])
        /\ forall key, In key (List.map fst members) ->
             In key ["name"; "email"; "zip"; "interest"; "espresso_machine";
                     "comments"])
  /\ (forall i m : string,
        interest formData = JS.Str i ->
        espresso_machine formData = JS.Str m ->
        record formData =
        JSON.JObj
          [ ("name", JSON.JStr (name formData));
            ("email", JSON.JStr (email formData));
            ("zip", JSON.JStr (zip formData));
            ("interest", JSON.JStr i);
            ("espresso_machine", JSON.JStr m);
            ("comments", JSON.JStr (comments formData));
            ("timestamp", JSON.JStr now);
            ("source", JSON.JStr "MyLocalBarista Landing Page") ])
  /\ googleFormData formData =
       [ ("entry.847057752", JS.Str (name formData));
         ("entry.508055351", JS.Str (email formData));
         ("entry.832508456", JS.Str (zip formData));
         ("entry.1561535688", interest formData);
         ("entry.1117044731", espresso_machine formData);
         ("entry.1572710206", JS.Str (comments formData)) ]
  /\ (forall now' : string,
        googleFormData (collectFormData now' w) = googleFormData formData)
  /\ (isSubmitting w = false ->
      JS.eval validateForm w = JS.Returns true ->
      requests (step w (Submit now)) =
        requests w ++
        [mkRequest GOOGLE_FORM_URL "POST" (googleFormData formData) "no-cors"]
      /\ pending (step w (Submit now)) = pending w ++ [formData])
  /\ (forall es : list event, pending w = [] -> sourced (run es w)).
Proof.
  intros formData. split; [done |]. split; [done |]. split.
  - exists ([ ("name", JSON.JStr (name formData));
              ("email", JSON.JStr (email formData));
              ("zip", JSON.JStr (zip formData)) ]
            ++ member_json "interest" (interest formData)
            ++ member_json "espresso_machine" (espresso_machine formData)
            ++ [ ("comments", JSON.JStr (comments formData)) ]).
    split.
    + unfold record. by rewrite <- !app_assoc.
    + intros key. rewrite !map_app, !in_app_iff.
      intros [H | [H | [H | H]]].
      * simpl in H. simpl. tauto.
      * apply member_json_key in H. simpl. tauto.
      * apply member_json_key in H. simpl. tauto.
      * simpl in H. simpl. tauto.
  - split.
    + intros i m Hi Hm. unfold record. by rewrite Hi, Hm.
    + split; [done |]. split; [done |]. split.
      * intros Hs Hv. rewrite validateForm_eval in Hv.
        assert (Hv' : formIsValid w = true) by congruence. clear Hv.
        unfold step, JS.exec, handle.
        destruct (handleSubmit_valid now w Hs Hv')
          as (w' & -> & _ & _ & _ & _ & _ & Hr & Hp).
        by split.
      * intros es Hp. apply run_sourced. unfold sourced. rewrite Hp. constructor.
Qed.

(** The filled form: the record and the body of its submission. *)
Lemma record_and_request_body_witness :
  let now := "2024-05-01T10:00:00.000Z" in
  let w := Samples.filled None in
  let formData := collectFormData now w in
  record formData =
    JSON.JObj
      [ ("name", JSON.JStr "Ada");
        ("email", JSON.JStr "ada@example.org");
        ("zip", JSON.JStr "12345");
        ("interest", JSON.JStr "Training - Learn espresso & latte art");
        ("espresso_machine", JSON.JStr "Yes, I have an espresso machine");
        ("comments", JSON.JStr "see you");
        ("timestamp", JSON.JStr now);
        ("source", JSON.JStr "MyLocalBarista Landing Page") ]
  /\ requests (step w (Submit now)) =
       [mkRequest GOOGLE_FORM_URL "POST" (googleFormData formData) "no-cors"]
  /\ pending (step w (Submit now)) = [formData]
  /\ sourced (run [Submit now; Settle 0 Resolved; Submit now] w).
Proof.
  intros now w formData.
  destruct (record_and_request_body now w) as (_ & _ & _ & H4 & _ & _ & H7 & H8).
  split; [| split; [| split]].
  - apply (H4 "Training - Learn espresso & latte art"
              "Yes, I have an espresso machine"); reflexivity.
  - apply H7; reflexivity.
  - apply H7; reflexivity.
  - apply H8. reflexivity.
Defined.

(** *** The log as a sequence of entries *)

Lemma log_entries_missing w :
  storage w = None \/ storage w = Some EmptyString -> log_entries w = Some [].
Proof. unfold log_entries. by intros [-> | ->]. Qed.

Lemma stored_after_corrupt formData w :
  log_entries w = None -> stored_after formData w = storage w.
Proof. intros H. unfold stored_after. by rewrite H. Qed.

Lemma stored_after_traffic formData w w' :
  storage w' = storage w -> quota w' = quota w ->
  stored_after formData w' = stored_after formData w.
Proof.
  intros Hs Hq. unfold stored_after, log_entries, fits. by rewrite Hs, Hq.
Qed.

(** *** The stored log, as the handler writes it *)

Lemma record_canonical formData : JSON.canonical (record formData) = true.
Proof.
  unfold record.
  destruct (interest formData) as [|?|b], (espresso_machine formData) as [|?|b'];
    cbn [member_json];
    try destruct (String.eqb b "__proto__");
    try destruct (String.eqb b' "__proto__"); reflexivity.
Qed.

Lemma holds_log_entries items w : holds_log items w -> log_entries w = Some items.
Proof.
  intros [Hc [Hst | [-> Hst]]]; [| by apply log_entries_missing].
  unfold log_entries. rewrite Hst.
  replace (JS.or_else (default EmptyString
             (Some (JSON.stringify (JSON.JArr items)))) "[]")
    with (JSON.stringify (JSON.JArr items))
    by (by destruct items).
  by rewrite JSONFacts.parse_stringify by (by apply JSONFacts.canonical_items_wf).
Qed.

Lemma holds_log_storage items w w' :
  storage w' = storage w -> holds_log items w -> holds_log items w'.
Proof. unfold holds_log. by intros ->. Qed.

Lemma holds_log_appended items formData w w' :
  holds_log items w ->
  storage w' = Some (JSON.stringify (JSON.JArr (items ++ [record formData]))) ->
  holds_log (items ++ [record formData]) w'.
Proof.
  intros [Hc _] Hst. split; [| by left].
  rewrite forallb_app, Hc. cbn [forallb]. by rewrite record_canonical.
Qed.

Lemma no_array_entries w : no_array w -> log_entries w = None.
Proof.
  intros (text & Hst & Hne & Hb). unfold log_entries. rewrite Hst.
  change (default EmptyString (Some text)) with text.
  apply JSFacts.truthy_true in Hne. unfold JS.or_else. rewrite Hne.
  destruct (JSON.parse text) as [[| | | |items|]|] eqn:E; try done.
  by destruct (JSONFacts.parse_no_array text items Hb).
Qed.

Lemma no_array_storage w w' : storage w' = storage w -> no_array w -> no_array w'.
Proof. unfold no_array. by intros ->. Qed.



Lemma stored_after_log formData w items :
  holds_log items w ->
  let text := JSON.stringify (JSON.JArr (items ++ [record formData])) in
  stored_after formData w = if fits w text then Some text else storage w.
Proof.
  intros H text. unfold stored_after. by rewrite (holds_log_entries _ _ H).
Qed.




(** *** A submission from the submit to the settling of its request *)








End WaitlistFormFacts.

(** ** The customization panel *)

Module CustomizationFacts.

Import Customization.

(** *** Theme switching *)

Lemma switchTheme_run (w : Page) (name : string) (old : Link) (rest : list Link) :
  themeLinks w = old :: rest ->
  name <> EmptyString -> name <> currentTheme w ->
  exists w', switchTheme name w = (JS.Returns tt, w')
    /\ themeLinks w' =
         old :: mkLink (nextNode w) ("css/style-" +:+ name +:+ ".css") :: rest
    /\ loads w' = loads w ++ [mkLoad (nextNode w) (node old) name]
    /\ currentTheme w' = currentTheme w
    /\ nextNode w' = S (nextNode w)
    /\ console w' = console w ++
         [(Log, "Switching theme from " +:+ currentTheme w +:+ " to " +:+ name)].
Proof.
  intros Hl Hn Hc. unfold switchTheme, console_log. js_unfold.
  apply JSFacts.truthy_true in Hn. rewrite Hn.
  apply String.eqb_neq in Hc. rewrite Hc. simpl. rewrite Hl.
  eexists. split; [reflexivity |]. by repeat split.
Qed.

(** A call with no name, or with the name of the current theme, does
    nothing. *)
Lemma switchTheme_same (w : Page) (name : string) :
  name = EmptyString \/ name = currentTheme w ->
  switchTheme name w = (JS.Returns tt, w).
Proof.
  intros H. unfold switchTheme. js_unfold.
  destruct H as [-> | ->]; [done |].
  by rewrite String.eqb_refl, orb_true_r.
Qed.

Lemma timer_frame (w : Page) :
  themeLinks (step w Timer) = themeLinks w
  /\ loads (step w Timer) = loads w
  /\ currentTheme (step w Timer) = currentTheme w
  /\ nextNode (step w Timer) = nextNode w
  /\ console (step w Timer) = console w.
Proof.
  unfold step, handle, ontimer. js_unfold. by destruct (timers w =? 0).
Qed.

Lemma loaded_run (w : Page) (ld : Load) :
  loads w = [ld] ->
  themeLinks (step w (Loaded 0)) = remove_link (ld_old ld) (themeLinks w)
  /\ currentTheme (step w (Loaded 0)) = ld_theme ld
  /\ loads (step w (Loaded 0)) = []
  /\ console (step w (Loaded 0)) =
       console w ++ [(Log, "Theme switched to " +:+ ld_theme ld)].
Proof.
  intros Hl. unfold step, handle, settle, onload, console_log. js_unfold.
  by rewrite Hl.
Qed.

Lemma failed_run (w : Page) (ld : Load) :
  loads w = [ld] ->
  themeLinks (step w (Failed 0)) = remove_link (ld_new ld) (themeLinks w)
  /\ currentTheme (step w (Failed 0)) = currentTheme w
  /\ loads (step w (Failed 0)) = []
  /\ console (step w (Failed 0)) =
       console w ++ [(Error, "Failed to load theme: " +:+ ld_theme ld)].
Proof.
  intros Hl. unfold step, handle, settle, onerror, console_error. js_unfold.
  by rewrite Hl.
Qed.

Lemma idle_frame (theme : string) (e : event) (w : Page) (ld : Load) :
  loads w = [ld] -> currentTheme w = theme -> idle theme e = true ->
  themeLinks (step w e) = themeLinks w
  /\ loads (step w e) = loads w
  /\ currentTheme (step w e) = currentTheme w
  /\ nextNode (step w e) = nextNode w
  /\ console (step w e) = console w.
Proof.
  intros Hl Ht He. destruct e as [name|i|i|]; cbn [idle] in He.
  - unfold step, JS.exec, handle. rewrite switchTheme_same; [done |].
    apply orb_true_iff in He as [He | He].
    + left. apply negb_true_iff in He. by apply JSFacts.truthy_false.
    + right. apply String.eqb_eq in He. congruence.
  - destruct i as [|i]; [done |].
    unfold step, handle, settle. js_unfold. by rewrite Hl.
  - destruct i as [|i]; [done |].
    unfold step, handle, settle. js_unfold. by rewrite Hl.
  - apply timer_frame.
Qed.

Lemma idles_frame (es : list event) (w : Page) (ld : Load) :
  loads w = [ld] -> forallb (idle (currentTheme w)) es = true ->
  themeLinks (run es w) = themeLinks w
  /\ loads (run es w) = loads w
  /\ currentTheme (run es w) = currentTheme w
  /\ nextNode (run es w) = nextNode w
  /\ console (run es w) = console w.
Proof.
  revert w. induction es as [|e es IH]; intros w Hl He; [done |].
  cbn [forallb] in He. apply andb_true_iff in He as [He Hes].
  destruct (idle_frame _ e w ld Hl eq_refl He) as (E1 & E2 & E3 & E4 & E5).
  cbn [run fold_left]. change (fold_left step es (step w e)) with (run es (step w e)).
  destruct (IH (step w e)) as (-> & -> & -> & -> & ->);
    [congruence | by rewrite E3 | done].
Qed.

(** C6, as amended.  A call of [switchTheme] with a name that is not empty
    and not that of the current theme, made when one theme stylesheet is
    in the document and no load is under way, and followed by no other
    switch to another theme before its stylesheet is loaded or has failed
    (timers may run out, and [switchTheme] may be called without a name or
    with the name of the current theme): until the new stylesheet is
    loaded the old one stays in place, before the new one, and the current
    theme is unchanged; when the load succeeds the old stylesheet is
    removed and the current theme is the new one, the new stylesheet being
    the only one; when the load fails the new stylesheet is removed, the
    current theme is unchanged and the failure is logged on the console. *)
Theorem switchTheme_alone (w : Page) (name : string) (old : Link) (es : list event) :
  themeLinks w = [old] ->
  loads w = [] ->
  node old <> nextNode w ->
  name <> EmptyString ->
  name <> currentTheme w ->
  forallb (idle (currentTheme w)) es = true ->
  let new := mkLink (nextNode w) ("css/style-" +:+ name +:+ ".css") in
  let w1 := run (SwitchTheme name :: es) w in
  (themeLinks w1 = [old; new]
   /\ currentTheme w1 = currentTheme w
   /\ loads w1 = [mkLoad (nextNode w) (node old) name])
  /\ (themeLinks (step w1 (Loaded 0)) = [new]
      /\ currentTheme (step w1 (Loaded 0)) = name
      /\ loads (step w1 (Loaded 0)) = [])
  /\ (themeLinks (step w1 (Failed 0)) = [old]
      /\ currentTheme (step w1 (Failed 0)) = currentTheme w
      /\ loads (step w1 (Failed 0)) = []
      /\ console (step w1 (Failed 0)) =
           console w1 ++ [(Error, "Failed to load theme: " +:+ name)]).
Proof.
  intros Hl Hp Hfresh Hn Hc Hes new w1.
  destruct (switchTheme_run w name old [] Hl Hn Hc) as (w0 & E & Hl0 & Hp0 & Hc0 & _).
  assert (Hw1 : themeLinks w1 = [old; new] /\ currentTheme w1 = currentTheme w
                /\ loads w1 = [mkLoad (nextNode w) (node old) name]).
  { subst w1.
    change (run (SwitchTheme name :: es) w)
      with (run es (step w (SwitchTheme name))).
    assert (step w (SwitchTheme name) = w0) as ->.
    { unfold step, JS.exec, handle. by rewrite E. }
    rewrite Hp in Hp0. cbn [app] in Hp0.
    destruct (idles_frame es w0 _ Hp0) as (-> & -> & -> & _);
      [by rewrite Hc0 |].
    by rewrite Hl0, Hp0, Hc0. }
  destruct Hw1 as (Hl1 & Hc1 & Hp1). split; [done |]. split.
  - destruct (loaded_run w1 _ Hp1) as (-> & -> & -> & _). rewrite Hl1. simpl.
    rewrite Nat.eqb_refl. simpl.
    destruct (Nat.eqb_spec (nextNode w) (node old)); [by subst |]. done.
  - destruct (failed_run w1 _ Hp1) as (-> & -> & -> & ->). rewrite Hl1, Hc1. simpl.
    rewrite Nat.eqb_refl. simpl.
    destruct (Nat.eqb_spec (node old) (nextNode w)); [done |]. done.
Qed.

(** From [classic] to [modern] on the page as served, with two timers, a
    call for the current theme and the settling of no load in between. *)
Lemma switchTheme_alone_witness :
  let w1 := run [SwitchTheme "modern"; Timer; SwitchTheme "classic"; Loaded 1; Timer]
              Samples.panel in
  (themeLinks w1 = [mkLink 0 "css/style-classic.css"; mkLink 1 "css/style-modern.css"]
   /\ currentTheme w1 = "classic"
   /\ loads w1 = [mkLoad 1 0 "modern"])
  /\ (themeLinks (step w1 (Loaded 0)) = [mkLink 1 "css/style-modern.css"]
      /\ currentTheme (step w1 (Loaded 0)) = "modern"
      /\ loads (step w1 (Loaded 0)) = [])
  /\ (themeLinks (step w1 (Failed 0)) = [mkLink 0 "css/style-classic.css"]
      /\ currentTheme (step w1 (Failed 0)) = "classic"
      /\ loads (step w1 (Failed 0)) = []
      /\ console (step w1 (Failed 0)) =
           console w1 ++ [(Error, "Failed to load theme: modern")]).
Proof.
  apply (switchTheme_alone Samples.panel "modern" (mkLink 0 "css/style-classic.css")
           [Timer; SwitchTheme "classic"; Loaded 1; Timer]);
    [reflexivity | reflexivity | simpl; lia | discriminate | discriminate
    | reflexivity].
Defined.

(** C6, as stated, fails: a second [switchTheme], to [warm], made while the
    stylesheet of [modern] is still loading, has a name different from the
    current theme, and once both have loaded two theme stylesheets are in
    the document. *)
Lemma switchTheme_overlapping_leaves_two :
  let w1 := step Samples.panel (SwitchTheme "modern") in
  let w2 := step w1 (SwitchTheme "warm") in
  let w3 := step (step w2 (Loaded 0)) (Loaded 0) in
  currentTheme w1 <> "warm"
  /\ loads w3 = []
  /\ currentTheme w3 = "warm"
  /\ themeLinks w3 = [mkLink 2 "css/style-warm.css"; mkLink 1 "css/style-modern.css"]
  /\ length (themeLinks w3) <> 1.
Proof.
  simpl. repeat split; try reflexivity; discriminate.
Qed.

(** *** Colours *)

Lemma updatePrimaryColor_run (c : string) (w : Page) :
  let r := updatePrimaryColor (Some c) w in
  fst r = JS.Returns tt
  /\ style (snd r) = setProperty "--primary-color" c (style w)
  /\ primaryColorPicker (snd r) = displayed c <$> primaryColorPicker w
  /\ secondaryColorPicker (snd r) = secondaryColorPicker w
  /\ accentColorPicker (snd r) = accentColorPicker w
  /\ console (snd r) = console w ++ [(Log, "Primary color updated to: " +:+ c)].
Proof. color_setter w. Qed.

Lemma updateSecondaryColor_run (c : string) (w : Page) :
  let r := updateSecondaryColor (Some c) w in
  fst r = JS.Returns tt
  /\ style (snd r) = setProperty "--secondary-color" c (style w)
  /\ primaryColorPicker (snd r) = primaryColorPicker w
  /\ secondaryColorPicker (snd r) = displayed c <$> secondaryColorPicker w
  /\ accentColorPicker (snd r) = accentColorPicker w
  /\ console (snd r) = console w ++ [(Log, "Secondary color updated to: " +:+ c)].
Proof. color_setter w. Qed.

Lemma updateAccentColor_run (c : string) (w : Page) :
  let r := updateAccentColor (Some c) w in
  fst r = JS.Returns tt
  /\ style (snd r) = setProperty "--accent-color" c (style w)
  /\ primaryColorPicker (snd r) = primaryColorPicker w
  /\ secondaryColorPicker (snd r) = secondaryColorPicker w
  /\ accentColorPicker (snd r) = displayed c <$> accentColorPicker w
  /\ console (snd r) = console w ++ [(Log, "Accent color updated to: " +:+ c)].
Proof. color_setter w. Qed.

Lemma hexToColor_empty : hexToColor EmptyString = "#000000".
Proof. reflexivity. Qed.

Lemma hexToColor_prefixed (c : string) :
  JS.startsWith "#" c = true -> hexToColor c = c.
Proof.
  intros H. unfold hexToColor. rewrite H, andb_false_r.
  by destruct c.
Qed.

Lemma hexToColor_bare (c : string) :
  c <> EmptyString -> JS.startsWith "#" c = false -> hexToColor c = "#" +:+ c.
Proof.
  intros Hc H. unfold hexToColor. rewrite H.
  apply JSFacts.truthy_true in Hc. by rewrite Hc.
Qed.

Lemma setProperty_lookup (name c : string) (st : gmap string string) :
  JS.truthy c = true -> setProperty name c st !! name = Some c.
Proof. intros H. unfold setProperty. rewrite H. apply lookup_insert_eq. Qed.

Lemma setProperty_insert (name c : string) (st : gmap string string) :
  JS.truthy c = true -> setProperty name c st = <[name := c]> st.
Proof. intros H. unfold setProperty. by rewrite H. Qed.

Lemma setProperty_empty (name : string) (st : gmap string string) :
  setProperty name EmptyString st !! name = None.
Proof. unfold setProperty. cbn [JS.truthy]. apply lookup_delete_eq. Qed.

Lemma plain_truthy (c : string) : plain c = true -> JS.truthy c = true.
Proof. unfold plain. by intros [H _]%andb_true_iff. Qed.

(** C8, as amended.  Each of the three setters hands [c] as it is to the
    style variable of its colour, with no check and no [#] put before it:
    a [c] made of letters, digits and [#] becomes the value of the variable
    as it stands, and is shown in upper case as the displayed value of the
    picker; the empty string is not refused either, it takes the
    declaration of the variable away.  Putting [#] before a value that
    lacks it, and taking [#000000] for an empty one, is what [hexToColor]
    does, which the setters do not call. *)
Theorem color_setters_pass_through (c : string) (w : Page) :
  plain c = true ->
  (JS.eval (updatePrimaryColor (Some c)) w = JS.Returns tt
   /\ style (JS.exec (updatePrimaryColor (Some c)) w) !! "--primary-color" = Some c
   /\ primaryColorPicker (JS.exec (updatePrimaryColor (Some c)) w)
      = displayed c <$> primaryColorPicker w)
  /\ (JS.eval (updateSecondaryColor (Some c)) w = JS.Returns tt
      /\ style (JS.exec (updateSecondaryColor (Some c)) w) !! "--secondary-color" = Some c
      /\ secondaryColorPicker (JS.exec (updateSecondaryColor (Some c)) w)
         = displayed c <$> secondaryColorPicker w)
  /\ (JS.eval (updateAccentColor (Some c)) w = JS.Returns tt
      /\ style (JS.exec (updateAccentColor (Some c)) w) !! "--accent-color" = Some c
      /\ accentColorPicker (JS.exec (updateAccentColor (Some c)) w)
         = displayed c <$> accentColorPicker w)
  /\ (style (JS.exec (updatePrimaryColor (Some EmptyString)) w)
         !! "--primary-color" = None
      /\ style (JS.exec (updateSecondaryColor (Some EmptyString)) w)
            !! "--secondary-color" = None
      /\ style (JS.exec (updateAccentColor (Some EmptyString)) w)
            !! "--accent-color" = None)
  /\ hexToColor EmptyString = "#000000"
  /\ (JS.startsWith "#" c = true -> hexToColor c = c)
  /\ (JS.startsWith "#" c = false -> hexToColor c = "#" +:+ c).
Proof.
  intros Hc. pose proof (plain_truthy c Hc) as Ht.
  unfold JS.eval, JS.exec.
  destruct (updatePrimaryColor_run c w) as (-> & -> & -> & _).
  destruct (updateSecondaryColor_run c w) as (-> & -> & _ & -> & _).
  destruct (updateAccentColor_run c w) as (-> & -> & _ & _ & -> & _).
  destruct (updatePrimaryColor_run EmptyString w) as (_ & -> & _).
  destruct (updateSecondaryColor_run EmptyString w) as (_ & -> & _).
  destruct (updateAccentColor_run EmptyString w) as (_ & -> & _).
  rewrite !setProperty_lookup by done. rewrite !setProperty_empty.
  repeat split.
  - apply hexToColor_prefixed.
  - apply hexToColor_bare. by apply JSFacts.truthy_true.
Qed.

(** The value [8B4513], without its [#]: the setter hands it on as it is,
    where [hexToColor] would put the [#]. *)
Lemma color_setters_pass_through_witness :
  style (JS.exec (updatePrimaryColor (Some "8B4513")) Samples.panel)
    !! "--primary-color" = Some "8B4513"
  /\ primaryColorPicker (JS.exec (updatePrimaryColor (Some "8b4513")) Samples.panel)
     = Some (mkPicker true "#8b4513" (Some "8B4513"))
  /\ hexToColor "8B4513" = "#8B4513"
  /\ hexToColor "#8B4513" = "#8B4513".
Proof.
  destruct (color_setters_pass_through "8B4513" Samples.panel eq_refl)
    as ((_ & H1 & _) & _ & _ & _ & _ & _ & H2).
  destruct (color_setters_pass_through "8b4513" Samples.panel eq_refl)
    as ((_ & _ & H4) & _).
  destruct (color_setters_pass_through "#8B4513" Samples.panel eq_refl)
    as (_ & _ & _ & _ & _ & H3 & _).
  split; [exact H1 |]. split; [exact H4 |].
  split; [apply H2; reflexivity |].
  apply H3. reflexivity.
Defined.

(** C8, as stated, fails: [updatePrimaryColor] given [8B4513] hands
    [8B4513], and not [#8B4513], to the style variable and shows [8B4513];
    given the empty string it does not fall back on a colour: the variable
    is left without a declaration. *)
Lemma color_setter_does_not_prefix :
  let w := JS.exec (updatePrimaryColor (Some "8B4513")) Samples.panel in
  style w !! "--primary-color" = Some "8B4513"
  /\ style w !! "--primary-color" <> Some "#8B4513"
  /\ (pk_display <$> primaryColorPicker w) = Some (Some "8B4513")
  /\ style (JS.exec (updatePrimaryColor (Some EmptyString)) Samples.panel)
       !! "--primary-color" = None.
Proof.
  repeat split; try reflexivity. discriminate.
Qed.

(** *** Presets *)

Lemma applyPreset_unknown (presetName : string) (w : Page) :
  JS.own_property presets presetName = None ->
  JS.inherited presetName = false ->
  applyPreset presetName w =
  (JS.Returns tt,
   set_console (console w ++ [(Log, "Applying preset: " +:+ presetName);
                              (Error, "Unknown preset: " +:+ presetName)]) w).
Proof.
  intros H1 H2. unfold applyPreset, JS.get, console_log, console_error.
  rewrite H1, H2. js_unfold. simpl. by rewrite <- app_assoc.
Qed.

Lemma applyPreset_known (presetName : string) (p : Preset) (w : Page) :
  JS.own_property presets presetName = Some p ->
  let r := applyPreset presetName w in
  fst r = JS.Returns tt
  /\ style (snd r) =
       setProperty "--accent-color" (accent p)
         (setProperty "--secondary-color" (secondary p)
            (setProperty "--primary-color" (primary p) (style w)))
  /\ primaryColorPicker (snd r) = chosen (primary p) <$> primaryColorPicker w
  /\ secondaryColorPicker (snd r) = chosen (secondary p) <$> secondaryColorPicker w
  /\ accentColorPicker (snd r) = chosen (accent p) <$> accentColorPicker w.
Proof.
  intros H. unfold applyPreset, JS.get. rewrite H.
  unfold updatePrimaryColor, updateSecondaryColor, updateAccentColor,
    updateCSSVariable, updateColorDisplay, console_log, set_picker_value,
    updateDisplayValues, chosen, displayed.
  js_unfold.
  destruct w as [? [[? ? [?|]]|] [[? ? [?|]]|] [[? ? [?|]]|] [?|] [?|]
                 ? ? ? ? ? ? ?];
    by repeat split.
Qed.

(** A name that the catalog inherits from [Object.prototype] passes the
    guard: on a page whose primary picker has its displayed value, the
    primary style variable is handed the text [undefined] and the method
    ends on a [TypeError]. *)
Lemma applyPreset_inherited (presetName : string) (w : Page) (k : Picker) (d : string) :
  JS.own_property presets presetName = None ->
  JS.inherited presetName = true ->
  primaryColorPicker w = Some k ->
  pk_display k = Some d ->
  JS.eval (applyPreset presetName) w = JS.Throws JS.TypeError
  /\ style (JS.exec (applyPreset presetName) w) !! "--primary-color"
     = Some "undefined".
Proof.
  intros H1 H2 Hk Hd. unfold applyPreset, JS.get. rewrite H1, H2.
  unfold updatePrimaryColor, updateCSSVariable, updateColorDisplay, console_log.
  js_unfold. simpl. rewrite Hk, Hd. simpl. split; [done |].
  by apply setProperty_lookup.
Qed.

(** C7 at the name [constructor], which is not in the catalog: the lookup
    finds what the catalog object inherits under that name, the guard lets
    it through, the primary style variable is set to the text [undefined],
    and the method ends on the [TypeError] of [toUpperCase] on [undefined]
    instead of logging that the preset is unknown. *)
Theorem applyPreset_inherited_name :
  let r := applyPreset "constructor" Samples.panel in
  JS.own_property presets "constructor" = None
  /\ fst r = JS.Throws JS.TypeError
  /\ style Samples.panel !! "--primary-color" = None
  /\ style (snd r) !! "--primary-color" = Some "undefined"
  /\ console (snd r) = [(Log, "Applying preset: constructor")].
Proof. repeat split. Qed.

End CustomizationFacts.

(** ** Computations that keep a property *)

Module InvariantFacts.

Import Invariants.

Section Keeps.
Context {S : Type} (P : S -> Prop).

Lemma keeps_ret {A} (a : A) : keeps P (JS.ret a).
Proof. by intros s. Qed.

Lemma keeps_throw {A} e : keeps P (@JS.throw S A e).
Proof. by intros s. Qed.

Lemma keeps_gets {A} (f : S -> A) : keeps P (JS.gets f).
Proof. by intros s. Qed.

Lemma keeps_modify (f : S -> S) : (forall s, P s -> P (f s)) -> keeps P (JS.modify f).
Proof. intros H s. apply H. Qed.

Lemma keeps_bind {A B} (m : JS.M S A) (k : A -> JS.M S B) :
  keeps P m -> (forall a, keeps P (k a)) -> keeps P (JS.bind m k).
Proof.
  intros Hm Hk s Hs. specialize (Hm s Hs). unfold JS.exec, JS.bind in *.
  destruct (m s) as [[a|e] s1]; simpl in *; [by apply Hk | done].
Qed.

Lemma keeps_try_catch {A} (m : JS.M S A) (h : JS.error -> JS.M S A) :
  keeps P m -> (forall e, keeps P (h e)) -> keeps P (JS.try_catch m h).
Proof.
  intros Hm Hh s Hs. specialize (Hm s Hs). unfold JS.exec, JS.try_catch in *.
  destruct (m s) as [[a|e] s1]; simpl in *; [done | by apply Hh].
Qed.

Lemma keeps_try_finally {A} (m : JS.M S A) (f : JS.M S unit) :
  keeps P m -> keeps P f -> keeps P (JS.try_finally m f).
Proof.
  intros Hm Hf s Hs. specialize (Hm s Hs). unfold JS.exec, JS.try_finally in *.
  destruct (m s) as [r s1]; simpl in *. specialize (Hf s1 Hm). unfold JS.exec in Hf.
  by destruct (f s1) as [[a|e] s2].
Qed.

Lemma keeps_when (b : bool) (m : JS.M S unit) : keeps P m -> keeps P (JS.when b m).
Proof. intros Hm. destruct b; [done | apply keeps_ret]. Qed.

Lemma keeps_forEach {A} (f : A -> JS.M S unit) (l : list A) :
  (forall a, keeps P (f a)) -> keeps P (JS.forEach f l).
Proof.
  intros Hf. induction l as [|a l IH]; simpl; [apply keeps_ret |].
  by apply keeps_bind.
Qed.

End Keeps.

Section Steps.
Context {S : Type}.

Lemma bind_returns {A B} (m : JS.M S A) (k : A -> JS.M S B) s a s1 :
  m s = (JS.Returns a, s1) -> JS.bind m k s = k a s1.
Proof. unfold JS.bind. by intros ->. Qed.

Lemma bind_throws {A B} (m : JS.M S A) (k : A -> JS.M S B) s e s1 :
  m s = (JS.Throws e, s1) -> JS.bind m k s = (JS.Throws e, s1).
Proof. unfold JS.bind. by intros ->. Qed.

Lemma exec_bind {A B} (m : JS.M S A) (k : A -> JS.M S B) s a s1 :
  m s = (JS.Returns a, s1) -> JS.exec (JS.bind m k) s = JS.exec (k a) s1.
Proof. intros E. unfold JS.exec. by rewrite (bind_returns _ _ _ _ _ E). Qed.

End Steps.

#[export] Hint Resolve keeps_ret keeps_throw keeps_gets keeps_bind
  keeps_try_catch keeps_try_finally keeps_when keeps_forEach : keeps.

End InvariantFacts.

(** ** The form: what is shown *)

Module FormViewFacts.

Import WaitlistForm Rules FormView WaitlistFormFacts JSFacts.
Import Invariants InvariantFacts.
Import JS.Notations.
Local Open Scope js_scope.

Lemma clearFieldError_exec n w el :
  elements w !! n = Some el ->
  clearFieldError n w
  = (JS.Returns tt,
     set_group (el_group el) (@tail _)
       (set_elements (<[n := mark false EmptyString el]> (elements w)) w)).
Proof.
  intros E. unfold clearFieldError, update_element. js_unfold. simpl.
  rewrite E. simpl. destruct (el_group el); simpl; by rewrite E.
Qed.

Lemma clearFieldError_absent n w :
  elements w !! n = None -> clearFieldError n w = (JS.Returns tt, w).
Proof.
  intros E. unfold clearFieldError. js_unfold. simpl. by rewrite E.
Qed.

Lemma showFieldError_exec n msg w el :
  elements w !! n = Some el ->
  showFieldError n msg w
  = (JS.Returns tt,
     set_focused (Some n)
       (set_group (el_group el) (fun l => tail l ++ [msg])
          (set_elements (<[n := mark true "var(--color-error)" el]> (elements w)) w))).
Proof.
  intros E. unfold showFieldError. unfold JS.bind at 1.
  rewrite (clearFieldError_exec _ _ _ E).
  assert (Hn : n < length (elements w)) by (by eapply lookup_lt_Some).
  unfold update_element. js_unfold.
  destruct (el_group el) as [g|] eqn:G; simpl;
    repeat (rewrite ?list_lookup_insert_eq by done; simpl; rewrite ?G; simpl);
    rewrite ?list_insert_insert_eq, ?mark_mark; [| done].
  unfold group_errors; simpl. rewrite lookup_insert_eq; simpl.
  by rewrite insert_insert_eq.
Qed.

Lemma validateField_exec n w el :
  elements w !! n = Some el ->
  validateField (Some n) w = (JS.Returns (fst (validity el)), displayed n el w).
Proof.
  intros E. unfold validateField. unfold JS.bind at 1. unfold JS.gets at 1.
  rewrite E. unfold displayed, shown, messages.
  destruct (validity el) as [[] msg]; simpl; unfold JS.bind, JS.ret.
  - rewrite (clearFieldError_exec _ _ _ E).
    destruct (el_group el); simpl; [| done].
    by rewrite app_nil_r.
  - by rewrite (showFieldError_exec _ _ _ _ E).
Qed.

Lemma shown_validity el : validity (shown el) = validity el.
Proof. unfold shown. destruct (fst (validity el)); apply validity_mark. Qed.

Lemma shown_group el : el_group (shown el) = el_group el.
Proof. unfold shown. by destruct (fst (validity el)). Qed.

Lemma shown_shown el : shown (shown el) = shown el.
Proof.
  unfold shown at 1. rewrite shown_validity. unfold shown.
  destruct (fst (validity el)); apply mark_mark.
Qed.

Lemma displayed_lookup n el w :
  elements w !! n = Some el -> elements (displayed n el w) !! n = Some (shown el).
Proof.
  intros E. assert (n < length (elements w)) by (by eapply lookup_lt_Some).
  unfold displayed. destruct (fst (validity el)), (el_group el); simpl;
    by rewrite list_lookup_insert_eq.
Qed.

(** X3: typing in a field of the handler takes its mark and the first
    message of its group away at once, whatever was typed; nothing is
    validated, and nothing else on the page changes. *)
Theorem typing_clears_the_error (w : World) (n : nat) (el : Element) (text : string) :
  elements w !! n = Some el -> listens n w = true ->
  let w' := step w (Input n text) in
  elements w' = <[n := mark false EmptyString (with_value text el)]> (elements w)
  /\ (forall g, group_errors g w' =
        if decide (el_group el = Some g) then tail (group_errors g w)
        else group_errors g w)
  /\ generalErrors w' = generalErrors w
  /\ focused w' = focused w
  /\ requests w' = requests w
  /\ storage w' = storage w.
Proof.
  intros E Hl w'. subst w'.
  assert (Hn : n < length (elements w)) by (by eapply lookup_lt_Some).
  assert (Eh : handle (Input n text) w
    = (JS.Returns tt,
       set_group (el_group el) (@tail _)
         (set_elements
            (<[n := mark false EmptyString (with_value text el)]> (elements w)) w))).
  { cbn [handle].
    assert (E1 : update_element n (with_value text) w
                 = (JS.Returns tt,
                    set_elements (<[n := with_value text el]> (elements w)) w)).
    { unfold update_element, JS.modify. by rewrite E. }
    rewrite (bind_returns _ _ _ _ _ E1).
    unfold JS.bind at 1. unfold JS.gets at 1.
    change (listens n (set_elements (<[n := with_value text el]> (elements w)) w))
      with (listens n w).
    rewrite Hl. cbn [JS.when].
    rewrite (clearFieldError_exec _ _ (with_value text el))
      by (cbn; by rewrite list_lookup_insert_eq).
    cbn. by rewrite list_insert_insert_eq. }
  unfold step, JS.exec. rewrite Eh. cbn [snd]. unfold set_group.
  destruct (el_group el) as [g|] eqn:G; cbn;
    split_and!; try done; intros g'; unfold group_errors; cbn;
    destruct (decide _) as [e|ne]; try done.
  - injection e as ->. by rewrite lookup_insert_eq.
  - rewrite lookup_insert_ne; [done | congruence].
Qed.

Lemma typing_clears_the_error_witness :
  let w := step (Samples.form "Ada" "ada@example.org" "1234" true None) (Blur 2) in
  group_errors 2 w = ["Please enter a valid 5-digit zip code"]
  /\ group_errors 2 (step w (Input 2 "1")) = []
  /\ (el_error <$> elements (step w (Input 2 "1")) !! 2) = Some false.
Proof.
  intros w.
  destruct (typing_clears_the_error w 2
              (mark true "var(--color-error)"
                 (Samples.input "zip" "text" true "1234" 2))
              "1" eq_refl eq_refl)
    as (He & Hg & _).
  split_and!; [reflexivity | exact (Hg 2) | by rewrite He].
Defined.

(** *** The messages never pile up *)

Lemma tidy_frame w w' :
  fieldErrors w' = fieldErrors w -> generalErrors w' = generalErrors w ->
  tidy w -> tidy w'.
Proof. unfold tidy, group_errors. by intros -> ->. Qed.

Lemma keeps_tidy_frame (f : World -> World) :
  (forall w, fieldErrors (f w) = fieldErrors w) ->
  (forall w, generalErrors (f w) = generalErrors w) ->
  keeps tidy (JS.modify f).
Proof. intros H1 H2. apply keeps_modify. intros w. by apply tidy_frame. Qed.

Lemma tidy_set_group g f w :
  (forall l : list string, length l <= 1 -> length (f l) <= 1) ->
  tidy w -> tidy (set_group g f w).
Proof.
  intros Hf [Hg Hs]. destruct g as [g|]; [| done].
  split; [| done]. intros g'. unfold group_errors. simpl.
  destruct (decide (g = g')) as [->|ne].
  - rewrite lookup_insert_eq. simpl. apply Hf, Hg.
  - rewrite lookup_insert_ne by done. apply Hg.
Qed.

Lemma tail_short {A} (l : list A) : length l <= 1 -> length (tail l) <= 1.
Proof. destruct l; simpl; lia. Qed.

Lemma tail_snoc_short {A} (l : list A) a :
  length l <= 1 -> length (tail l ++ [a]) <= 1.
Proof. destruct l as [|b [|c l]]; simpl; lia. Qed.

Lemma keeps_tidy_clearFieldError n : keeps tidy (clearFieldError n).
Proof.
  intros w Hw. unfold JS.exec.
  destruct (elements w !! n) as [el|] eqn:E.
  - rewrite (clearFieldError_exec _ _ _ E). simpl.
    apply tidy_set_group; [apply tail_short |]. by eapply tidy_frame.
  - by rewrite clearFieldError_absent.
Qed.

Lemma showFieldError_absent n msg w :
  elements w !! n = None -> showFieldError n msg w = (JS.Returns tt, w).
Proof.
  intros E. unfold showFieldError. unfold JS.bind at 1.
  rewrite clearFieldError_absent by done. js_unfold. by rewrite E.
Qed.

Lemma keeps_tidy_showFieldError n msg : keeps tidy (showFieldError n msg).
Proof.
  intros w Hw. unfold JS.exec.
  destruct (elements w !! n) as [el|] eqn:E.
  - rewrite (showFieldError_exec _ _ _ _ E). simpl.
    eapply tidy_frame; [reflexivity | reflexivity |].
    apply tidy_set_group; [intros l; apply tail_snoc_short |].
    by eapply tidy_frame.
  - by rewrite showFieldError_absent.
Qed.

Lemma keeps_tidy_validateField field : keeps tidy (validateField field).
Proof.
  destruct field as [n|]; simpl; [| apply keeps_ret].
  apply keeps_bind; [apply keeps_gets |]. intros w.
  destruct (elements w !! n) as [el|]; [| apply keeps_ret].
  destruct (validity el) as [[] msg]; simpl;
    (apply keeps_bind; [| intros; apply keeps_ret]).
  - apply keeps_tidy_clearFieldError.
  - apply keeps_tidy_showFieldError.
Qed.

Lemma keeps_tidy_validate_each l b : keeps tidy (validate_each l b).
Proof.
  revert b. induction l as [|[n|] l IH]; intros b; cbn [validate_each].
  - apply keeps_ret.
  - apply keeps_bind; [apply keeps_tidy_validateField | intros; apply IH].
  - apply IH.
Qed.

Lemma keeps_tidy_showGeneralError msg : keeps tidy (showGeneralError msg).
Proof.
  apply keeps_modify. intros w [Hg Hs]. split; [done |]. simpl.
  destruct (generalErrors w) as [|a [|b l]]; simpl in *; lia.
Qed.

Lemma keeps_tidy_clearAllErrors : keeps tidy clearAllErrors.
Proof.
  unfold clearAllErrors.
  apply keeps_bind; [| intros _; apply keeps_bind; [| intros _]].
  - apply keeps_modify. intros w [Hg Hs]. split; [| done].
    intros g. unfold group_errors. simpl. rewrite lookup_empty. simpl. lia.
  - by apply keeps_tidy_frame.
  - apply keeps_modify. intros w [Hg Hs]. split; [done |]. simpl.
    by apply tail_short.
Qed.

Lemma keeps_tidy_validateForm : keeps tidy validateForm.
Proof.
  unfold validateForm.
  apply keeps_bind; [apply keeps_gets | intros w].
  apply keeps_bind; [apply keeps_tidy_validate_each | intros b].
  apply keeps_bind; [apply keeps_gets | intros w'].
  destruct (checked_radio w'); [apply keeps_ret |].
  apply keeps_bind; [apply keeps_tidy_showGeneralError | intros; apply keeps_ret].
Qed.

Lemma keeps_tidy_console_log msg : keeps tidy (console_log msg).
Proof. by apply keeps_tidy_frame. Qed.

Lemma keeps_tidy_console_warn msg : keeps tidy (console_warn msg).
Proof. by apply keeps_tidy_frame. Qed.

Lemma keeps_tidy_console_error msg : keeps tidy (console_error msg).
Proof. by apply keeps_tidy_frame. Qed.

Lemma keeps_tidy_setSubmittingState b : keeps tidy (setSubmittingState b).
Proof.
  unfold setSubmittingState.
  apply keeps_bind; [by apply keeps_tidy_frame | intros _].
  apply keeps_bind; [apply keeps_gets | intros w].
  destruct (submitBtn w); [| apply keeps_ret].
  destruct b; by apply keeps_tidy_frame.
Qed.

Lemma keeps_tidy_storeFormDataLocally formData :
  keeps tidy (storeFormDataLocally formData).
Proof.
  unfold storeFormDataLocally.
  apply keeps_try_catch; [| intros; apply keeps_tidy_console_warn].
  apply keeps_bind; [apply keeps_gets | intros item].
  apply keeps_bind; [unfold JSON_parse; destruct (JSON.parse _); auto with keeps |].
  intros v.
  apply keeps_bind; [unfold push; destruct v; auto with keeps | intros v'].
  apply keeps_bind; [| intros; apply keeps_tidy_console_log].
  unfold setItem. apply keeps_bind; [apply keeps_gets | intros w].
  destruct (quota w) as [q|]; [destruct (q <? _) |];
    auto with keeps; by apply keeps_tidy_frame.
Qed.

Lemma keeps_tidy_begin formData : keeps tidy (submitToGoogleForms_begin formData).
Proof.
  unfold submitToGoogleForms_begin.
  repeat (apply keeps_bind; [apply keeps_tidy_console_log | intros _]).
  by apply keeps_tidy_frame.
Qed.

Lemma keeps_tidy_handleSubmit now : keeps tidy (handleSubmit now).
Proof.
  unfold handleSubmit.
  apply keeps_bind; [apply keeps_gets | intros w].
  destruct (isSubmitting w); [apply keeps_ret |].
  apply keeps_bind; [apply keeps_tidy_console_log | intros _].
  apply keeps_bind; [apply keeps_tidy_clearAllErrors | intros _].
  apply keeps_bind; [apply keeps_tidy_validateForm | intros valid].
  destruct valid; simpl.
  - apply keeps_bind; [apply keeps_tidy_setSubmittingState | intros _].
    apply keeps_bind; [apply keeps_gets | intros formData].
    apply keeps_bind; [apply keeps_tidy_begin | intros _].
    by apply keeps_tidy_frame.
  - apply keeps_bind; [apply keeps_tidy_console_log | intros _].
    apply keeps_tidy_showGeneralError.
Qed.

Lemma keeps_tidy_resume formData s : keeps tidy (handleSubmit_resume formData s).
Proof.
  unfold handleSubmit_resume.
  apply keeps_try_finally; [| apply keeps_tidy_setSubmittingState].
  apply keeps_try_catch.
  - apply keeps_bind; [| intros _].
    { unfold submitToGoogleForms_resume. apply keeps_try_catch.
      - apply keeps_bind; [destruct s; auto with keeps | intros _].
        apply keeps_bind; [apply keeps_tidy_console_log | intros _].
        apply keeps_bind; [apply keeps_tidy_storeFormDataLocally | intros _].
        apply keeps_ret.
      - intros e.
        apply keeps_bind; [apply keeps_tidy_console_error | intros _].
        apply keeps_bind; [apply keeps_tidy_storeFormDataLocally | intros _].
        apply keeps_throw. }
    apply keeps_bind; [by apply keeps_tidy_frame | intros _].
    apply keeps_bind; [| intros _; apply keeps_tidy_console_log].
    unfold resetForm.
    apply keeps_bind; [by apply keeps_tidy_frame | intros _].
    apply keeps_tidy_clearAllErrors.
  - intros e.
    apply keeps_bind; [apply keeps_tidy_console_error | intros _].
    apply keeps_tidy_showGeneralError.
Qed.

Lemma keeps_tidy_update n f : keeps tidy (update_element n f).
Proof.
  apply keeps_modify. intros w Hw.
  destruct (elements w !! n); [by eapply tidy_frame | done].
Qed.

Lemma keeps_tidy_handle e : keeps tidy (handle e).
Proof.
  destruct e as [now | i s | n text | n | n]; cbn [handle].
  - apply keeps_tidy_handleSubmit.
  - apply keeps_bind; [apply keeps_gets | intros w].
    destruct (pending w !! i); [| apply keeps_ret].
    apply keeps_bind; [by apply keeps_tidy_frame | intros _].
    apply keeps_tidy_resume.
  - apply keeps_bind; [apply keeps_tidy_update | intros _].
    apply keeps_bind; [apply keeps_gets | intros w].
    apply keeps_when, keeps_tidy_clearFieldError.
  - apply keeps_bind; [apply keeps_gets | intros w].
    destruct (listens n w); [| apply keeps_ret].
    apply keeps_bind; [apply keeps_tidy_validateField | intros; apply keeps_ret].
  - apply keeps_bind; [apply keeps_gets | intros w].
    destruct (elements w !! n) as [el|]; [| apply keeps_ret].
    destruct (String.eqb (el_type el) "radio"); [| apply keeps_ret].
    apply keeps_bind; [by apply keeps_tidy_frame | intros _].
    apply keeps_bind; [apply keeps_when, keeps_tidy_clearFieldError | intros _].
    apply keeps_when. by apply keeps_tidy_frame.
Qed.

(** X4: whatever happens on the page, no form group comes to show two
    inline messages, and the form never shows two general messages. *)
Theorem messages_never_pile_up (es : list event) (w : World) :
  tidy w -> tidy (run es w).
Proof.
  revert w. induction es as [|e es IH]; intros w Hw; simpl; [done |].
  apply IH. by apply keeps_tidy_handle.
Qed.

Lemma messages_never_pile_up_witness :
  tidy (run [Submit "2024-05-01T10:00:00.000Z"; Blur 2; Input 1 "ada";
             Submit "2024-05-01T10:00:01.000Z"]
          (Samples.form EmptyString "ada@example" "1234" false None)).
Proof.
  apply messages_never_pile_up. split.
  - intros g. unfold group_errors. simpl. rewrite lookup_empty. simpl. lia.
  - simpl. lia.
Defined.

(** *** How a submission ends *)

(** X5: when the request is answered, the success overlay is shown, the
    form is back to its defaults without any error shown, and the button
    is restored. *)
Theorem resolved_submission_resets (formData : FormData) (w : World) :
  let w' := JS.exec (handleSubmit_resume formData Resolved) w in
  JS.eval (handleSubmit_resume formData Resolved) w = JS.Returns tt
  /\ successOverlays w' = S (successOverlays w)
  /\ elements w' = List.map (fun el => cleared (reset_element el)) (elements w)
  /\ Forall (fun el => el_value el = el_defaultValue el
                       /\ el_checked el = el_defaultChecked el
                       /\ el_error el = false) (elements w')
  /\ fieldErrors w' = ∅
  /\ generalErrors w' = tail (generalErrors w)
  /\ isSubmitting w' = false
  /\ submitBtn w' = (fun _ => idle_button w) <$> submitBtn w.
Proof.
  intros w'. subst w'. unfold JS.eval, JS.exec, handleSubmit_resume.
  destruct (submitToGoogleForms_resolved formData w) as (w1 & E1 & Hs & _).
  destruct Hs as (He & Hf & Hg & Hfo & Hb & Ho & _ & _ & _ & Ht & _).
  unfold JS.try_finally, JS.try_catch. rewrite (bind_returns _ _ _ _ _ E1).
  unfold showSuccessMessage, resetForm, clearAllErrors, console_log,
    setSubmittingState, idle_button.
  js_unfold. cbn.
  rewrite <- Hb, <- Ht, <- Ho, <- He, <- Hg.
  assert (Hall : forall l : list Element,
    Forall (fun el => el_value el = el_defaultValue el
                      /\ el_checked el = el_defaultChecked el
                      /\ el_error el = false)
      (List.map (fun el => if el_error el then mark false EmptyString el else el)
         (List.map reset_element l))).
  { intros l. rewrite List.map_map. apply Forall_map, Forall_forall.
    intros el _. simpl. by destruct (el_error el) eqn:Er. }
  destruct (submitBtn w1) as [b|] eqn:B; cbn; rewrite ?B;
    split_and!; try done; by rewrite List.map_map.
Qed.

(** X6: when the request fails, what the user entered stays, the retry
    message is the general message shown, no overlay is added, and the
    button is restored; the failure does not leave [handleSubmit]. *)
Theorem rejected_submission_keeps_entries
  (formData : FormData) (e : JS.error) (w : World) :
  let w' := JS.exec (handleSubmit_resume formData (Rejected e)) w in
  JS.eval (handleSubmit_resume formData (Rejected e)) w = JS.Returns tt
  /\ elements w' = elements w
  /\ fieldErrors w' = fieldErrors w
  /\ generalErrors w' =
       "Sorry, there was an error submitting your information. Please try again in a moment."
       :: tail (generalErrors w)
  /\ successOverlays w' = successOverlays w
  /\ isSubmitting w' = false
  /\ submitBtn w' = (fun _ => idle_button w) <$> submitBtn w.
Proof.
  intros w'. subst w'. unfold JS.eval, JS.exec, handleSubmit_resume.
  destruct (submitToGoogleForms_rejected formData e w) as (w1 & E1 & Hs & _).
  destruct Hs as (He & Hf & Hg & Hfo & Hb & Ho & _ & _ & _ & Ht & _).
  unfold JS.try_finally, JS.try_catch. rewrite (bind_throws _ _ _ _ _ E1).
  unfold showSubmissionError, showGeneralError, console_error,
    setSubmittingState, idle_button.
  js_unfold. cbn.
  rewrite <- Hb, <- Ht, <- Ho, <- He, <- Hg, <- Hf.
  destruct (submitBtn w1) as [b|] eqn:B; cbn; rewrite ?B; by split_and!.
Qed.

(** *** Validating a valid form shows nothing *)

Lemma quietly_refl w : quietly w w.
Proof. split; [apply display_only_refl | done]. Qed.

Lemma quietly_trans w1 w2 w3 : quietly w1 w2 -> quietly w2 w3 -> quietly w1 w3.
Proof.
  intros (Hd & Hg & Hf & Hu) (Hd' & Hg' & Hf' & Hu').
  split; [by eapply display_only_trans |].
  split_and!; [congruence | congruence | auto].
Qed.

Lemma unmarked_displayed n el w :
  elements w !! n = Some el -> fst (validity el) = true ->
  unmarked w -> unmarked (displayed n el w).
Proof.
  intros E V [Hg He]. unfold displayed, shown, messages. rewrite V.
  split.
  - intros g. destruct (el_group el) as [g'|]; simpl; [| apply Hg].
    unfold group_errors in *. simpl.
    destruct (decide (g' = g)) as [->|ne].
    + rewrite lookup_insert_eq. simpl. by rewrite Hg.
    + rewrite lookup_insert_ne by done. apply Hg.
  - assert (Hi : Forall (fun el => el_error el = false)
                   (<[n := mark false EmptyString el]> (elements w))).
    { by apply Forall_insert. }
    by destruct (el_group el).
Qed.

Lemma validateField_ok_run field w :
  field_ok w field = true ->
  exists w', validateField field w = (JS.Returns true, w') /\ quietly w w'.
Proof.
  intros Hok. destruct field as [n|]; cbn [field_ok] in *.
  2: { exists w. split; [done | apply quietly_refl]. }
  destruct (validateField_run (Some n) w) as (w' & E & Hd). cbn [field_ok] in E.
  destruct (elements w !! n) as [el|] eqn:El.
  - rewrite (validateField_exec _ _ _ El) in *. rewrite Hok in *.
    injection E as <-. eexists. split; [done |].
    split; [done |]. unfold displayed at 1 2. rewrite Hok.
    split_and!.
    + by destruct (el_group el).
    + by destruct (el_group el).
    + by apply unmarked_displayed.
  - exists w. unfold validateField. js_unfold. rewrite El.
    split; [done | apply quietly_refl].
Qed.

Lemma quietly_field_ok w w' field :
  quietly w w' -> field_ok w' field = field_ok w field.
Proof. intros [Hd _]. by apply field_ok_entered, display_only_entered. Qed.

Lemma validate_each_ok_run l b w :
  forallb (field_ok w) l = true ->
  exists w', validate_each l b w = (JS.Returns b, w') /\ quietly w w'.
Proof.
  revert b w. induction l as [|f l IH]; intros b w Hl.
  - exists w. split; [done | apply quietly_refl].
  - cbn [forallb] in Hl. apply andb_true_iff in Hl as [Hf Hl].
    destruct (validateField_ok_run f w Hf) as (w1 & E1 & Hq1).
    destruct (IH b w1) as (w2 & E2 & Hq2).
    { rewrite <- Hl. apply forallb_ext. intros x. by apply quietly_field_ok. }
    exists w2. split; [| by eapply quietly_trans].
    destruct f as [n|]; cbn [validate_each].
    + by rewrite (bind_returns _ _ _ _ _ E1).
    + injection E1 as <-. exact E2.
Qed.

Lemma quietly_checked_radio w w' :
  quietly w w' -> is_Some (checked_radio w) -> is_Some (checked_radio w').
Proof.
  intros [Hd _] Hs. apply display_only_entered, checked_radio_entered in Hd.
  destruct Hs as [r Hr]. rewrite Hr in Hd.
  destruct (checked_radio w'); [by eexists | done].
Qed.

Lemma validateForm_ok_run w :
  formIsValid w = true ->
  exists w', validateForm w = (JS.Returns true, w') /\ quietly w w'.
Proof.
  unfold formIsValid. intros [Hl Hr]%andb_true_iff.
  apply bool_decide_eq_true in Hr.
  destruct (validate_each_ok_run _ true w Hl) as (w1 & E1 & Hq).
  exists w1. split; [| done].
  unfold validateForm. unfold JS.bind at 1. unfold JS.gets at 1.
  rewrite (bind_returns _ _ _ _ _ E1). unfold JS.bind, JS.gets.
  by destruct (quietly_checked_radio _ _ Hq Hr) as [r ->].
Qed.

Lemma clearAllErrors_unmarked w : unmarked (JS.exec clearAllErrors w).
Proof.
  split.
  - intros g. unfold group_errors. simpl. by rewrite lookup_empty.
  - simpl. apply Forall_map, Forall_forall. intros el _.
    by destruct (el_error el) eqn:E.
Qed.

Lemma handleSubmit_accepted now w :
  isSubmitting w = false -> formIsValid w = true ->
  exists wv,
    display_only w wv
    /\ generalErrors wv = tail (generalErrors w)
    /\ focused wv = focused w
    /\ unmarked wv
    /\ handleSubmit now w =
       JS.bind (setSubmittingState true) (fun _ =>
         JS.bind (JS.gets (collectFormData now)) (fun formData =>
           JS.bind (submitToGoogleForms_begin formData) (fun _ =>
             JS.modify (fun w => set_pending (pending w ++ [formData]) w)))) wv.
Proof.
  intros Hs Hv.
  set (w0 := set_console (console w ++ [(Log, "Form submission started...")]) w).
  set (wc := JS.exec clearAllErrors w0).
  assert (Hd : display_only w wc).
  { eapply display_only_trans; [apply (console_log_display "Form submission started..." w) |].
    apply clearAllErrors_display. }
  destruct (validateForm_ok_run wc) as (wv & Ev & Hdv & Hg & Hf & Hu).
  { rewrite <- Hv. apply formIsValid_entered;
      [by apply display_only_entered | by apply display_only_fields]. }
  exists wv. split_and!.
  - by eapply display_only_trans.
  - by rewrite Hg.
  - by rewrite Hf.
  - apply Hu, clearAllErrors_unmarked.
  - unfold handleSubmit. unfold JS.bind at 1. unfold JS.gets at 1. rewrite Hs.
    unfold JS.bind at 1. unfold console_log at 1. unfold JS.modify at 1.
    fold w0. unfold JS.bind at 1.
    change (clearAllErrors w0) with (JS.Returns tt, wc). cbv beta iota.
    by rewrite (bind_returns _ _ _ _ _ Ev).
Qed.

(** X7: an accepted submission shows the busy button and no error. *)
Theorem accepted_submission_is_busy (now : string) (w : World) :
  isSubmitting w = false -> formIsValid w = true ->
  let w' := step w (Submit now) in
  isSubmitting w' = true
  /\ submitBtn w' = (fun _ => busy_button) <$> submitBtn w
  /\ (forall g, group_errors g w' = [])
  /\ Forall (fun el => el_error el = false) (elements w')
  /\ generalErrors w' = tail (generalErrors w)
  /\ focused w' = focused w
  /\ successOverlays w' = successOverlays w.
Proof.
  intros Hs Hv w'. subst w'. unfold step, JS.exec. cbn [handle].
  destruct (handleSubmit_accepted now w Hs Hv)
    as (wv & Hd & Hg & Hf & [Hu1 Hu2] & ->).
  destruct Hd as (_ & Hb & Ho & _).
  unfold setSubmittingState, submitToGoogleForms_begin, console_log, busy_button.
  js_unfold. cbn.
  destruct (submitBtn wv) as [b|] eqn:B; cbn; rewrite <- Hb, ?B;
    by split_and!.
Qed.

Lemma accepted_submission_is_busy_witness :
  let w' := step (Samples.filled None) (Submit "2024-05-01T10:00:00.000Z") in
  isSubmitting w' = true /\ submitBtn w' = Some busy_button.
Proof.
  intros w'.
  destruct (accepted_submission_is_busy "2024-05-01T10:00:00.000Z"
              (Samples.filled None) eq_refl eq_refl)
    as (H1 & H2 & _).
  split; [exact H1 | exact H2].
Defined.

(** *** What a refused submission shows *)

Lemma validateField_validated field w :
  validateField field w = (JS.Returns (field_ok w field), validated w field).
Proof.
  destruct field as [n|]; [| done]. cbn [field_ok validated].
  destruct (elements w !! n) as [el|] eqn:E.
  - by apply validateField_exec.
  - unfold validateField. js_unfold. by rewrite E.
Qed.

Lemma exec_validated field w :
  JS.exec (validateField field) w = validated w field.
Proof. unfold JS.exec. by rewrite validateField_validated. Qed.

Lemma validate_each_validated l b w :
  JS.exec (validate_each l b) w = fold_left validated l w.
Proof.
  revert b w. induction l as [|[n|] l IH]; intros b w; cbn [validate_each fold_left].
  - done.
  - rewrite (exec_bind _ _ _ _ _ (validateField_validated (Some n) w)). apply IH.
  - apply IH.
Qed.

Lemma validated_lookup w field n el :
  elements w !! n = Some el ->
  elements (validated w field) !! n
  = Some (if bool_decide (field = Some n) then shown el else el).
Proof.
  intros E. destruct field as [m|]; cbn [validated]; [| by rewrite bool_decide_eq_false_2].
  destruct (decide (m = n)) as [->|ne].
  - rewrite E, bool_decide_eq_true_2 by done. by apply displayed_lookup.
  - rewrite bool_decide_eq_false_2 by congruence.
    destruct (elements w !! m) as [el'|]; [| done].
    unfold displayed.
    destruct (fst (validity el')), (el_group el'); simpl;
      by rewrite list_lookup_insert_ne.
Qed.

Lemma fold_validated_lookup l w n el :
  elements w !! n = Some el ->
  elements (fold_left validated l w) !! n
  = Some (if bool_decide (Some n ∈ l) then shown el else el).
Proof.
  revert w el. induction l as [|f l IH]; intros w el E; cbn [fold_left].
  - by rewrite bool_decide_eq_false_2 by apply not_elem_of_nil.
  - rewrite (IH _ _ (validated_lookup _ f _ _ E)).
    destruct (decide (f = Some n)) as [->|ne].
    + rewrite (bool_decide_eq_true_2 (Some n = Some n)) by done.
      rewrite (bool_decide_eq_true_2 (Some n ∈ Some n :: l))
        by apply list_elem_of_here.
      rewrite shown_shown. by destruct (bool_decide _).
    + rewrite (bool_decide_eq_false_2 (f = Some n)) by done.
      destruct (decide (Some n ∈ l)) as [i|ni].
      * rewrite !bool_decide_eq_true_2; [done | by apply list_elem_of_further | done].
      * rewrite !bool_decide_eq_false_2; [done | | done].
        intros [?|?]%elem_of_cons; congruence.
Qed.

Lemma validated_display w f : display_only w (validated w f).
Proof.
  destruct (validateField_run f w) as (w' & E & Hd).
  rewrite validateField_validated in E. by injection E as <-.
Qed.

Lemma validated_general w f : generalErrors (validated w f) = generalErrors w.
Proof.
  destruct f as [n|]; cbn [validated]; [| done].
  destruct (elements w !! n) as [el|]; [| done]. unfold displayed.
  by destruct (fst (validity el)), (el_group el).
Qed.

Lemma fold_validated_display l w : display_only w (fold_left validated l w).
Proof.
  revert w. induction l as [|f l IH]; intros w; cbn [fold_left].
  - apply display_only_refl.
  - eapply display_only_trans; [apply validated_display | apply IH].
Qed.

Lemma fold_validated_general l w :
  generalErrors (fold_left validated l w) = generalErrors w.
Proof.
  revert w. induction l as [|f l IH]; intros w; cbn [fold_left]; [done |].
  by rewrite IH, validated_general.
Qed.

Lemma validateForm_validated w :
  validateForm w
  = (JS.Returns (formIsValid w),
     let w1 := fold_left validated (field_values (fields w)) w in
     match checked_radio w1 with
     | Some _ => w1
     | None =>
         set_generalErrors
           ("Please select whether you own an espresso machine"
            :: tail (generalErrors w1)) w1
     end).
Proof.
  destruct (validateForm_run w) as (w' & E & _). rewrite E. f_equal.
  apply (f_equal snd) in E. cbn [snd] in E. rewrite <- E.
  unfold validateForm. unfold JS.bind at 1. unfold JS.gets at 1.
  destruct (validate_each_run (field_values (fields w)) true w) as (w1 & E1 & _).
  rewrite (bind_returns _ _ _ _ _ E1).
  apply (f_equal snd) in E1. cbn [snd] in E1.
  change (JS.exec (validate_each (field_values (fields w)) true) w = w1) in E1.
  rewrite validate_each_validated in E1. rewrite E1.
  unfold JS.bind, JS.gets, showGeneralError, JS.modify, JS.ret. cbv zeta.
  by destruct (checked_radio w1).
Qed.

(** X8: a refused submission marks each field of the handler with its
    verdict, unmarks the other controls and shows the one general message,
    in the place of the reminder about the radio buttons. *)
Theorem refused_submission_shows_verdicts (now : string) (w : World) :
  isSubmitting w = false -> formIsValid w = false ->
  let w' := step w (Submit now) in
  let l := field_values (fields w) in
  (forall n el, elements w !! n = Some el ->
     elements w' !! n
     = Some (if bool_decide (Some n ∈ l) then shown el else cleared el))
  /\ generalErrors w'
     = "Please fix the errors above and try again" :: tail (tail (generalErrors w))
  /\ submitBtn w' = submitBtn w
  /\ isSubmitting w' = false.
Proof.
  intros Hs Hv w' l. subst w'. unfold step, JS.exec. cbn [handle].
  set (w0 := set_console (console w ++ [(Log, "Form submission started...")]) w).
  set (wc := JS.exec clearAllErrors w0).
  assert (Hd : display_only w wc).
  { eapply display_only_trans; [apply (console_log_display "Form submission started..." w) |].
    apply clearAllErrors_display. }
  assert (Hvc : formIsValid wc = false).
  { rewrite <- Hv. apply formIsValid_entered;
      [by apply display_only_entered | by apply display_only_fields]. }
  assert (Hfc : fields wc = fields w) by done.
  assert (E : handleSubmit now w
    = JS.bind (console_log "Form validation failed") (fun _ =>
        showGeneralError "Please fix the errors above and try again")
        (snd (validateForm wc))).
  { unfold handleSubmit. unfold JS.bind at 1. unfold JS.gets at 1. rewrite Hs.
    unfold JS.bind at 1. unfold console_log at 1. unfold JS.modify at 1.
    fold w0. unfold JS.bind at 1.
    change (clearAllErrors w0) with (JS.Returns tt, wc). cbv beta iota.
    rewrite (bind_returns _ _ _ _ _ (validateForm_validated wc)).
    by rewrite Hvc, validateForm_validated. }
  rewrite E, validateForm_validated. cbn [snd]. cbv zeta. rewrite Hfc. fold l.
  set (w1 := fold_left validated l wc).
  assert (Hd1 : display_only wc w1) by apply fold_validated_display.
  assert (Hg1 : generalErrors w1 = tail (generalErrors w)).
  { unfold w1. by rewrite fold_validated_general. }
  assert (He1 : forall n el, elements w !! n = Some el ->
     elements w1 !! n
     = Some (if bool_decide (Some n ∈ l) then shown el else cleared el)).
  { intros n el En. unfold w1.
    assert (Ec : elements wc !! n = Some (cleared el)).
    { unfold wc, w0. simpl. rewrite list_lookup_fmap, En. done. }
    rewrite (fold_validated_lookup _ _ _ _ Ec).
    destruct (bool_decide _); [| done]. f_equal.
    unfold cleared. destruct (el_error el); [| done].
    unfold shown. rewrite validity_mark, !mark_mark. done. }
  destruct Hd1 as (_ & Hb1 & _ & _ & _ & Hi1 & _).
  destruct Hd as (_ & Hb & _ & _ & _ & Hi & _).
  unfold console_log, showGeneralError. js_unfold.
  clearbody w1. clearbody wc.
  destruct (checked_radio w1); cbn; rewrite ?Hg1; split_and!; try done;
    congruence.
Qed.

Lemma refused_submission_shows_verdicts_witness :
  let w := Samples.form EmptyString "ada@example.org" "1234" false None in
  let w' := step w (Submit "2024-05-01T10:00:00.000Z") in
  generalErrors w' = ["Please fix the errors above and try again"]
  /\ (el_error <$> elements w' !! 0) = Some true
  /\ (el_error <$> elements w' !! 1) = Some false
  /\ (el_error <$> elements w' !! 2) = Some true.
Proof.
  intros w w'.
  destruct (refused_submission_shows_verdicts "2024-05-01T10:00:00.000Z" w
              eq_refl eq_refl)
    as (He & Hg & _).
  subst w'. split_and!; [exact Hg | | |].
  - by rewrite (He 0 _ eq_refl).
  - by rewrite (He 1 _ eq_refl).
  - by rewrite (He 2 _ eq_refl).
Defined.

(** *** Each field shows its own message *)

Lemma validated_group w f g :
  group_errors g (validated w f)
  = if decide (field_group w f = Some g)
    then tail (group_errors g w) ++ field_messages w f
    else group_errors g w.
Proof.
  unfold field_group, field_messages.
  destruct f as [n|]; cbn [validated mbind option_bind]; [| done].
  destruct (elements w !! n) as [el|]; cbn [mbind option_bind]; [| done].
  unfold displayed, group_errors.
  destruct (el_group el) as [g'|]; destruct (decide _) as [e|ne];
    destruct (fst (validity el)); simpl; try done.
  all: try (injection e as ->; by rewrite lookup_insert_eq).
  all: rewrite lookup_insert_ne; [done | congruence].
Qed.

Lemma validated_element w f n :
  elements (validated w f) !! n
  = (fun el => if bool_decide (f = Some n) then shown el else el)
    <$> elements w !! n.
Proof.
  destruct (elements w !! n) as [el|] eqn:E.
  - by rewrite (validated_lookup _ _ _ _ E).
  - simpl. apply lookup_ge_None. apply lookup_ge_None in E.
    destruct (validated_display w f) as (He & _).
    apply (f_equal length) in He. unfold entered in He.
    rewrite !length_map in He. lia.
Qed.

Lemma validated_field_group w f f' :
  field_group (validated w f) f' = field_group w f'.
Proof.
  unfold field_group. destruct f' as [n|]; [| done]. cbn [mbind option_bind].
  rewrite validated_element. destruct (elements w !! n) as [el|]; [| done].
  simpl. destruct (bool_decide _); [apply shown_group | done].
Qed.

Lemma validated_field_messages w f f' :
  field_messages (validated w f) f' = field_messages w f'.
Proof.
  unfold field_messages. destruct f' as [n|]; [| done]. cbn [mbind option_bind].
  rewrite validated_element. destruct (elements w !! n) as [el|]; [| done].
  simpl. destruct (bool_decide _); [| done].
  unfold messages. by rewrite shown_validity.
Qed.

Lemma validated_groups_of w f l : groups_of (validated w f) l = groups_of w l.
Proof.
  unfold groups_of. induction l as [|f' l IH]; [done |]. cbn [omap list_omap].
  by rewrite validated_field_group, IH.
Qed.

Lemma fold_validated_group_other l w g :
  g ∉ groups_of w l ->
  group_errors g (fold_left validated l w) = group_errors g w.
Proof.
  revert w. induction l as [|f l IH]; intros w Hg; cbn [fold_left]; [done |].
  unfold groups_of in Hg. cbn [omap list_omap] in Hg. fold (groups_of w l) in Hg.
  rewrite IH, validated_group.
  - destruct (decide _) as [e|]; [| done]. rewrite e in Hg.
    exfalso. apply Hg, list_elem_of_here.
  - rewrite validated_groups_of. destruct (field_group w f); [| done].
    by apply not_elem_of_cons in Hg as [_ ?].
Qed.

Lemma fold_validated_group l w f g :
  NoDup (groups_of w l) -> f ∈ l -> field_group w f = Some g ->
  group_errors g w = [] ->
  group_errors g (fold_left validated l w) = field_messages w f.
Proof.
  revert w. induction l as [|f0 l IH]; intros w Hn Hf Hg He; cbn [fold_left].
  { by apply elem_of_nil in Hf. }
  unfold groups_of in Hn. cbn [omap list_omap] in Hn. fold (groups_of w l) in Hn.
  destruct (decide (field_group w f0 = Some g)) as [e0|ne0].
  - rewrite e0 in Hn. apply NoDup_cons in Hn as [Hni Hn].
    assert (f = f0) as ->.
    { apply elem_of_cons in Hf as [?|Hf]; [done |]. exfalso. apply Hni.
      unfold groups_of. apply list_elem_of_omap. by exists f. }
    rewrite fold_validated_group_other by (by rewrite validated_groups_of).
    rewrite validated_group, decide_True by done. by rewrite He.
  - assert (Hf' : f ∈ l).
    { apply elem_of_cons in Hf as [->|?]; [congruence | done]. }
    rewrite (IH (validated w f0)).
    + apply validated_field_messages.
    + rewrite validated_groups_of. destruct (field_group w f0); [| done].
      by apply NoDup_cons in Hn as [_ ?].
    + done.
    + by rewrite validated_field_group.
    + by rewrite validated_group, decide_False.
Qed.

Lemma handleSubmit_fieldErrors now w :
  isSubmitting w = false ->
  fieldErrors (JS.exec (handleSubmit now) w)
  = fieldErrors
      (fold_left validated (field_values (fields w))
         (JS.exec clearAllErrors
            (set_console (console w ++ [(Log, "Form submission started...")]) w))).
Proof.
  intros Hs.
  set (w0 := set_console (console w ++ [(Log, "Form submission started...")]) w).
  set (wc := JS.exec clearAllErrors w0).
  assert (E : handleSubmit now w
    = (if negb (formIsValid wc) then
         JS.bind (console_log "Form validation failed") (fun _ =>
           showGeneralError "Please fix the errors above and try again")
       else
         JS.bind (setSubmittingState true) (fun _ =>
           JS.bind (JS.gets (collectFormData now)) (fun formData =>
             JS.bind (submitToGoogleForms_begin formData) (fun _ =>
               JS.modify (fun w => set_pending (pending w ++ [formData]) w)))))
        (snd (validateForm wc))).
  { unfold handleSubmit. unfold JS.bind at 1. unfold JS.gets at 1. rewrite Hs.
    unfold JS.bind at 1. unfold console_log at 1. unfold JS.modify at 1.
    fold w0. unfold JS.bind at 1.
    change (clearAllErrors w0) with (JS.Returns tt, wc). cbv beta iota.
    rewrite (bind_returns _ _ _ _ _ (validateForm_validated wc)).
    by rewrite validateForm_validated. }
  unfold JS.exec. rewrite E, validateForm_validated. cbn [snd]. cbv zeta.
  change (fields wc) with (fields w).
  set (w1 := fold_left validated (field_values (fields w)) wc).
  clearbody w1. clearbody wc. clear E.
  unfold setSubmittingState, submitToGoogleForms_begin, console_log, showGeneralError.
  js_unfold.
  destruct (formIsValid wc), (checked_radio w1); cbn; try reflexivity;
    destruct (submitBtn w1); reflexivity.
Qed.

(** X9: when the fields of the handler sit in form groups of their own, a
    submission leaves under each field exactly the message of its verdict,
    and none under a valid field. *)
Theorem submission_shows_each_message
  (now : string) (w : World) (n : nat) (el : Element) (g : nat) :
  isSubmitting w = false ->
  NoDup (groups_of w (field_values (fields w))) ->
  Some n ∈ field_values (fields w) ->
  elements w !! n = Some el ->
  el_group el = Some g ->
  group_errors g (step w (Submit now))
  = (if fst (validity el) then [] else [snd (validity el)]).
Proof.
  intros Hs Hn Hf He Hg.
  set (wc := JS.exec clearAllErrors
    (set_console (console w ++ [(Log, "Form submission started...")]) w)).
  assert (Hc : elements wc !! n = Some (cleared el)).
  { unfold wc. cbn [JS.exec clearAllErrors]. simpl. by rewrite list_lookup_fmap, He. }
  assert (Hgs : forall l, groups_of wc l = groups_of w l).
  { intros l. unfold groups_of. induction l as [|[m|] l IH]; [done | |];
      cbn [omap list_omap]; rewrite IH; [| done].
    unfold field_group, wc. simpl.
    rewrite list_lookup_fmap. destruct (elements w !! m) as [el'|]; [| done].
    simpl. by destruct (el_error el'). }
  assert (He0 : group_errors g wc = []).
  { unfold group_errors, wc. simpl. by rewrite lookup_empty. }
  transitivity (group_errors g (fold_left validated (field_values (fields w)) wc)).
  { unfold group_errors, step. cbn [handle].
    by rewrite (handleSubmit_fieldErrors _ _ Hs). }
  clearbody wc.
  rewrite (fold_validated_group _ wc (Some n) g).
  - unfold field_messages. cbn [mbind option_bind]. rewrite Hc.
    unfold messages, cleared.
    destruct (el_error el); by rewrite ?validity_mark.
  - by rewrite Hgs.
  - done.
  - unfold field_group. cbn [mbind option_bind]. rewrite Hc. cbn [mbind option_bind].
    unfold cleared. by destruct (el_error el).
  - done.
Qed.

Lemma submission_shows_each_message_witness :
  let w := Samples.form "A" "ada@example" "12345" true None in
  let w' := step w (Submit "2024-05-01T10:00:00.000Z") in
  group_errors 0 w' = ["Name must be at least 2 characters long"]
  /\ group_errors 1 w' = ["Please enter a valid email address"].
Proof.
  intros w w'. subst w'.
  assert (Hn : NoDup (groups_of w (field_values (fields w)))).
  { change (NoDup [0; 1; 2; 3; 5]). apply (bool_decide_unpack _). by vm_compute. }
  assert (H0 : Some 0 ∈ field_values (fields w)).
  { apply (bool_decide_unpack _). by vm_compute. }
  assert (H1 : Some 1 ∈ field_values (fields w)).
  { apply (bool_decide_unpack _). by vm_compute. }
  rewrite (submission_shows_each_message "2024-05-01T10:00:00.000Z" w 0
             (Samples.input "name" "text" true "A" 0) 0 eq_refl Hn H0 eq_refl eq_refl).
  rewrite (submission_shows_each_message "2024-05-01T10:00:00.000Z" w 1
             (Samples.input "email" "email" true "ada@example" 1) 1
             eq_refl Hn H1 eq_refl eq_refl).
  split; by vm_compute.
Defined.

End FormViewFacts.

(** ** The form: the log, the requests and the overlay over time *)

Module TrafficFacts.

Import WaitlistForm Traffic FormView WaitlistFormFacts JSFacts FormViewFacts.
Import Invariants InvariantFacts.

(** *** What an event does to the store and to the requests *)

Lemma handle_settle i s w :
  handle (Settle i s) w
  = match pending w !! i with
    | Some formData =>
        handleSubmit_resume formData s (set_pending (delete i (pending w)) w)
    | None => (JS.Returns tt, w)
    end.
Proof.
  cbn [handle]. unfold JS.bind at 1, JS.gets at 1.
  by destruct (pending w !! i).
Qed.

Lemma step_storage e w :
  quota (step w e) = quota w
  /\ (storage (step w e) = storage w
      \/ exists formData, storage (step w e) = stored_after formData w).
Proof.
  destruct e as [now|i s|n text|n|n].
  - unfold step, JS.exec. cbn [handle].
    destruct (isSubmitting w) eqn:Hs.
    + rewrite handleSubmit_busy by done. cbn [snd]. split; [done | by left].
    + destruct (formIsValid w) eqn:Hv.
      * destruct (handleSubmit_valid now w Hs Hv)
          as (w' & -> & _ & _ & _ & Hst & Hq & _).
        cbn [snd]. split; [done | by left].
      * destruct (handleSubmit_invalid now w Hs Hv) as (w' & -> & Hd & _).
        apply display_only_traffic in Hd as (_ & _ & _ & Hst & Hq).
        cbn [snd]. split; [done | by left].
  - unfold step, JS.exec. rewrite handle_settle.
    destruct (pending w !! i) as [formData|]; [| split; [done | by left]].
    destruct (handleSubmit_resume_run formData s (set_pending (delete i (pending w)) w))
      as (w' & -> & Hst & _ & Hq & _).
    cbn [snd]. split; [done |]. right. exists formData. rewrite Hst.
    by apply stored_after_traffic.
  - destruct (user_event_traffic (Input n text) w I) as (_ & _ & _ & Hst & Hq).
    split; [done | by left].
  - destruct (user_event_traffic (Blur n) w I) as (_ & _ & _ & Hst & Hq).
    split; [done | by left].
  - destruct (user_event_traffic (Pick n) w I) as (_ & _ & _ & Hst & Hq).
    split; [done | by left].
Qed.

Lemma step_holds_log e w items :
  holds_log items w ->
  holds_log items (step w e)
  \/ exists formData, holds_log (items ++ [record formData]) (step w e).
Proof.
  intros Hl. destruct (step_storage e w) as (Hq & [Hst | [formData Hst]]).
  - left. by eapply holds_log_storage.
  - rewrite (stored_after_log _ _ _ Hl) in Hst.
    destruct (fits w _) eqn:Hf.
    + right. exists formData. by eapply holds_log_appended.
    + left. by eapply holds_log_storage.
Qed.

(** X10: whatever happens on the page, a log as the handler writes it only
    grows, by records of submissions at its end. *)
Theorem log_only_grows (es : list event) (w : World) (items : list JSON.json) :
  holds_log items w ->
  exists formDatas,
    holds_log (items ++ List.map record formDatas) (run es w).
Proof.
  revert w items. induction es as [|e es IH]; intros w items Hl.
  - exists []. by rewrite app_nil_r.
  - cbn [run fold_left]. fold (run es (step w e)).
    destruct (step_holds_log e w items Hl) as [H1 | [formData H1]].
    + by apply IH.
    + destruct (IH _ _ H1) as (fds & H). exists (formData :: fds).
      cbn [List.map]. by rewrite <- app_assoc in H.
Qed.

Lemma log_only_grows_witness :
  exists formDatas,
    holds_log ([JSON.JNum "1"] ++ List.map record formDatas)
      (run [Submit "2024-05-01T10:00:00.000Z"; Input 7 "hello";
            Settle 0 (Rejected JS.NetworkError)]
         (Samples.filled (Some "[1]"))).
Proof.
  apply log_only_grows. split; [reflexivity | left; reflexivity].
Defined.

(** X11: a stored text that is not that of an array is never replaced,
    whatever happens on the page. *)
Theorem unreadable_log_stays (es : list event) (w : World) :
  no_array w -> storage (run es w) = storage w.
Proof.
  revert w. induction es as [|e es IH]; intros w Hl; [done |].
  cbn [run fold_left]. fold (run es (step w e)).
  assert (Hst : storage (step w e) = storage w).
  { destruct (step_storage e w) as (_ & [Hst | [formData Hst]]); [done |].
    by rewrite stored_after_corrupt in Hst by (by apply no_array_entries). }
  rewrite IH; [done |]. by eapply no_array_storage.
Qed.

Lemma unreadable_log_stays_witness :
  storage
    (run [Submit "2024-05-01T10:00:00.000Z"; Settle 0 Resolved;
          Pick 4; Submit "2024-05-01T10:00:01.000Z"; Settle 0 Resolved]
       (Samples.filled (Some "{}")))
  = Some "{}".
Proof.
  apply (unreadable_log_stays _ (Samples.filled (Some "{}"))).
  exists "{}". split_and!; [reflexivity | discriminate | reflexivity].
Defined.

(** *** The requests *)

Lemma step_requests e w :
  requests (step w e) = requests w
  \/ exists formData, requests (step w e) = requests w ++ [request_of formData].
Proof.
  destruct e as [now|i s|n text|n|n].
  - unfold step, JS.exec. cbn [handle].
    destruct (isSubmitting w) eqn:Hs.
    + rewrite handleSubmit_busy by done. by left.
    + destruct (formIsValid w) eqn:Hv.
      * destruct (handleSubmit_valid now w Hs Hv)
          as (w' & -> & _ & _ & _ & _ & _ & Hr & _).
        right. by eexists.
      * destruct (handleSubmit_invalid now w Hs Hv) as (w' & -> & Hd & _).
        apply display_only_traffic in Hd as (_ & _ & Hr & _). by left.
  - unfold step, JS.exec. rewrite handle_settle.
    destruct (pending w !! i) as [formData|]; [| by left].
    destruct (handleSubmit_resume_run formData s (set_pending (delete i (pending w)) w))
      as (w' & -> & _ & _ & _ & Hr & _).
    by left.
  - destruct (user_event_traffic (Input n text) w I) as (_ & _ & Hr & _). by left.
  - destruct (user_event_traffic (Blur n) w I) as (_ & _ & Hr & _). by left.
  - destruct (user_event_traffic (Pick n) w I) as (_ & _ & Hr & _). by left.
Qed.

Lemma request_of_form formData : to_google_form (request_of formData).
Proof. by repeat split. Qed.

(** X12: whatever happens on the page, the requests made before stay as
    they are, and every request added goes to the form's address, posted
    without CORS, with the six entries in the order of the code. *)
Theorem requests_go_to_the_form (es : list event) (w : World) :
  exists formDatas,
    requests (run es w) = requests w ++ List.map request_of formDatas
    /\ Forall to_google_form (List.map request_of formDatas).
Proof.
  revert w. induction es as [|e es IH]; intros w.
  - exists []. by rewrite app_nil_r.
  - cbn [run fold_left]. fold (run es (step w e)).
    destruct (IH (step w e)) as (fds & -> & Hf).
    destruct (step_requests e w) as [-> | [formData ->]].
    + by exists fds.
    + exists (formData :: fds). rewrite <- app_assoc. split; [done |].
      constructor; [apply request_of_form | done].
Qed.

(** *** The success overlay *)

Lemma keeps_overlays_modify k (f : World -> World) :
  (forall w, successOverlays (f w) = successOverlays w) ->
  keeps (fun w => successOverlays w = k) (JS.modify f).
Proof. intros H. apply keeps_modify. intros w. by rewrite H. Qed.

Lemma keeps_overlays_display {A} k (m : JS.M World A) :
  (forall w, display_only w (JS.exec m w)) ->
  keeps (fun w => successOverlays w = k) m.
Proof. intros H w <-. by destruct (H w) as (_ & _ & ? & _). Qed.

Lemma validateField_display_only field w :
  display_only w (JS.exec (validateField field) w).
Proof. rewrite (exec_validated field w). apply validated_display. Qed.

Lemma validateForm_display_only w : display_only w (JS.exec validateForm w).
Proof. destruct (validateForm_run w) as (w' & E & Hd). unfold JS.exec. by rewrite E. Qed.

Lemma keeps_overlays_console_log k msg :
  keeps (fun w => successOverlays w = k) (console_log msg).
Proof. by apply keeps_overlays_modify. Qed.

Lemma keeps_overlays_handleSubmit k now :
  keeps (fun w => successOverlays w = k) (handleSubmit now).
Proof.
  unfold handleSubmit.
  apply keeps_bind; [apply keeps_gets | intros w].
  destruct (isSubmitting w); [apply keeps_ret |].
  apply keeps_bind; [apply keeps_overlays_console_log | intros _].
  apply keeps_bind;
    [apply keeps_overlays_display, clearAllErrors_display | intros _].
  apply keeps_bind;
    [apply keeps_overlays_display, validateForm_display_only | intros valid].
  destruct valid; cbn [negb].
  - apply keeps_bind; [| intros _].
    { unfold setSubmittingState.
      apply keeps_bind; [by apply keeps_overlays_modify | intros _].
      apply keeps_bind; [apply keeps_gets | intros w1].
      destruct (submitBtn w1); [by apply keeps_overlays_modify | apply keeps_ret]. }
    apply keeps_bind; [apply keeps_gets | intros formData].
    apply keeps_bind; [| intros _; by apply keeps_overlays_modify].
    unfold submitToGoogleForms_begin.
    repeat (apply keeps_bind; [apply keeps_overlays_console_log | intros _]).
    by apply keeps_overlays_modify.
  - apply keeps_bind; [apply keeps_overlays_console_log | intros _].
    apply keeps_overlays_display, showGeneralError_display.
Qed.

Lemma keeps_overlays_update k n f :
  keeps (fun w => successOverlays w = k) (update_element n f).
Proof.
  apply keeps_overlays_modify. intros w. by destruct (elements w !! n).
Qed.

Lemma keeps_overlays_user k e :
  match e with Submit _ | Settle _ _ => False | _ => True end ->
  keeps (fun w => successOverlays w = k) (handle e).
Proof.
  destruct e as [now | i s | n text | n | n]; try done; intros _; cbn [handle].
  - apply keeps_bind; [apply keeps_overlays_update | intros _].
    apply keeps_bind; [apply keeps_gets | intros w].
    apply keeps_when, keeps_overlays_display, clearFieldError_display.
  - apply keeps_bind; [apply keeps_gets | intros w].
    destruct (listens n w); [| apply keeps_ret].
    apply keeps_bind; [| intros; apply keeps_ret].
    apply keeps_overlays_display, validateField_display_only.
  - apply keeps_bind; [apply keeps_gets | intros w].
    destruct (elements w !! n) as [el|]; [| apply keeps_ret].
    destruct (String.eqb (el_type el) "radio"); [| apply keeps_ret].
    apply keeps_bind; [by apply keeps_overlays_modify | intros _].
    apply keeps_bind; [| intros _].
    + apply keeps_when, keeps_overlays_display, clearFieldError_display.
    + apply keeps_when. by apply keeps_overlays_modify.
Qed.

Lemma resume_overlays formData s w :
  successOverlays (JS.exec (handleSubmit_resume formData s) w)
  = match s with
    | Resolved => S (successOverlays w)
    | Rejected _ => successOverlays w
    end.
Proof.
  unfold JS.exec, handleSubmit_resume, JS.try_finally, JS.try_catch.
  destruct s as [|e].
  - destruct (submitToGoogleForms_resolved formData w) as (w1 & E1 & Hs & _).
    destruct Hs as (_ & _ & _ & _ & _ & Ho & _).
    rewrite (bind_returns _ _ _ _ _ E1).
    unfold showSuccessMessage, resetForm, clearAllErrors, console_log,
      setSubmittingState.
    js_unfold. cbn. rewrite <- Ho. by destruct (submitBtn w1).
  - destruct (submitToGoogleForms_rejected formData e w) as (w1 & E1 & Hs & _).
    destruct Hs as (_ & _ & _ & _ & _ & Ho & _).
    rewrite (bind_throws _ _ _ _ _ E1).
    unfold showSubmissionError, showGeneralError, console_error,
      setSubmittingState.
    js_unfold. cbn. rewrite <- Ho. by destruct (submitBtn w1).
Qed.

(** X13: the success overlay is shown when a suspended submission is
    answered with success, and on no other event: not on a submit, valid
    or not, not when a request fails, and not while the user edits. *)
Theorem success_only_when_resolved (e : event) (w : World) :
  successOverlays (step w e)
  = if resolves e w then S (successOverlays w) else successOverlays w.
Proof.
  destruct e as [now | i s | n text | n | n]; cbn [resolves].
  - by apply (keeps_overlays_handleSubmit (successOverlays w) now w).
  - unfold step, JS.exec. rewrite handle_settle.
    destruct (pending w !! i) as [formData|] eqn:E.
    + pose proof (resume_overlays formData s
                    (set_pending (delete i (pending w)) w)) as Ho.
      unfold JS.exec in Ho. rewrite Ho. destruct s; [| done].
      by rewrite bool_decide_eq_true_2.
    + destruct s; [| done]. rewrite bool_decide_eq_false_2; [done |].
      by intros [? ?].
  - by apply (keeps_overlays_user (successOverlays w) (Input n text) I w).
  - by apply (keeps_overlays_user (successOverlays w) (Blur n) I w).
  - by apply (keeps_overlays_user (successOverlays w) (Pick n) I w).
Qed.

End TrafficFacts.

(** ** The form: what validation lets through *)

Module ValidationFacts.

Import WaitlistForm Rules WaitlistFormFacts JSFacts.

(** *** What an accepted address looks like *)

Lemma part_no_at (l : list ascii) :
  forallb not_space_or_at l = true ->
  count_occ ascii_dec l "@"%char = 0
  /\ forallb (fun c => negb (JS.is_space c)) l = true.
Proof.
  induction l as [|c l IH]; [done |]. cbn [forallb].
  intros [Hc Hl]%andb_true_iff. destruct (IH Hl) as [IH1 IH2].
  unfold not_space_or_at in Hc. apply negb_true_iff, orb_false_iff in Hc as [Hs Ha].
  split.
  - rewrite count_occ_cons_neq; [done |]. intros ->. by vm_compute in Ha.
  - cbn [forallb]. by rewrite Hs, IH2.
Qed.

(** X14: an address that [isValidEmail] accepts has exactly one [@], no
    white space, a point after the [@], and at least five characters. *)
Theorem valid_email_has_one_at (v : string) :
  isValidEmail v = true ->
  count_occ ascii_dec (JS.chars v) "@"%char = 1
  /\ JS.all (fun c => negb (JS.is_space c)) v = true
  /\ 5 <= String.length v
  /\ exists l r, v = l +:+ "@" +:+ r
       /\ In "."%char (JS.chars r) /\ ~ In "@"%char (JS.chars l).
Proof.
  intros (l & d & t & -> & Hl & Hd & Ht & Al & Ad & At)%isValidEmail_shape.
  unfold JS.all in *.
  destruct (part_no_at _ Al) as [Cl Sl], (part_no_at _ Ad) as [Cd Sd],
    (part_no_at _ At) as [Ct St].
  split_and!.
  - rewrite !chars_append, !count_occ_app, Cl, Cd, Ct. by vm_compute.
  - rewrite !chars_append, !forallb_app, Sl, Sd, St. by vm_compute.
  - rewrite <- chars_length, !chars_append, !length_app, !chars_length.
    destruct l, d, t; try done. cbn [String.length]. simpl. lia.
  - exists l, (d +:+ "." +:+ t). split_and!; [done | |].
    + rewrite !chars_append. apply in_or_app. right. apply in_or_app. left.
      by left.
    + by apply count_occ_not_In with (eq_dec := ascii_dec).
Qed.

Lemma valid_email_has_one_at_witness :
  count_occ ascii_dec (JS.chars "ada@example.org") "@"%char = 1
  /\ 5 <= String.length "ada@example.org".
Proof.
  destruct (valid_email_has_one_at "ada@example.org" eq_refl) as (H1 & _ & H3 & _).
  split; [exact H1 | exact H3].
Defined.

(** *** What is sent was validated *)

Lemma formIsValid_field w field :
  formIsValid w = true -> In field (field_values (fields w)) ->
  field_ok w field = true.
Proof.
  unfold formIsValid. intros [Hl _]%andb_true_iff Hin.
  by apply (proj1 (forallb_forall _ _) Hl).
Qed.

Lemma trimmed_lookup w n el :
  elements w !! n = Some el -> trimmed (Some n) w = JS.trim (el_value el).
Proof.
  intros E. unfold trimmed, value_of. rewrite E. apply or_else_empty.
Qed.

(** X15: of a form that passes validation, the address collected for
    sending is the trimmed value of the email control and has the shape
    of an address whenever the control is required or not left empty; and
    likewise the zip code has five digits and the name two characters. *)
Theorem valid_form_sends_checked_values (now : string) (w : World) :
  formIsValid w = true ->
  let formData := collectFormData now w in
  (forall n el,
     f_email (fields w) = Some n -> elements w !! n = Some el ->
     kind el = "email" ->
     email formData = JS.trim (el_value el)
     /\ (el_required el = true \/ email formData <> EmptyString ->
         email_shape (email formData)))
  /\ (forall n el,
        f_zip (fields w) = Some n -> elements w !! n = Some el ->
        kind el = "text" -> el_id el = "zip" ->
        zip formData = JS.trim (el_value el)
        /\ (el_required el = true \/ zip formData <> EmptyString ->
            five_digits (zip formData)))
  /\ (forall n el,
        f_name (fields w) = Some n -> elements w !! n = Some el ->
        kind el = "text" -> el_id el = "name" ->
        name formData = JS.trim (el_value el)
        /\ (el_required el = true \/ name formData <> EmptyString ->
            2 <= String.length (name formData)))
  /\ is_Some (checked_radio w).
Proof.
  intros Hv formData. subst formData. cbn [collectFormData email zip name].
  split_and!.
  - intros n el Hf He Hk. rewrite Hf, (trimmed_lookup _ _ _ He).
    split; [done |]. intros Hr.
    assert (Hok : field_ok w (Some n) = true).
    { apply formIsValid_field; [done |]. rewrite <- Hf. simpl. tauto. }
    cbn [field_ok] in Hok. rewrite He in Hok.
    apply not_false_iff_true in Hok. rewrite validity_false in Hok.
    destruct (isValidEmail (JS.trim (el_value el))) eqn:Hm;
      [by apply isValidEmail_shape |].
    exfalso. apply Hok.
    destruct (JS.trim (el_value el)) eqn:Ht.
    + left. destruct Hr as [Hr | Hr]; done.
    + right. left. split_and!; [done | done |].
      intros Hs%isValidEmail_shape. congruence.
  - intros n el Hf He Hk Hi. rewrite Hf, (trimmed_lookup _ _ _ He).
    split; [done |]. intros Hr.
    assert (Hok : field_ok w (Some n) = true).
    { apply formIsValid_field; [done |]. rewrite <- Hf. simpl. tauto. }
    cbn [field_ok] in Hok. rewrite He in Hok.
    apply not_false_iff_true in Hok. rewrite validity_false in Hok.
    destruct (isValidZipCode (JS.trim (el_value el))) eqn:Hm;
      [by apply isValidZipCode_five_digits |].
    exfalso. apply Hok.
    destruct (JS.trim (el_value el)) eqn:Ht.
    + left. destruct Hr as [Hr | Hr]; done.
    + right. right. left. split_and!; [done | done | done |].
      intros Hs%isValidZipCode_five_digits. congruence.
  - intros n el Hf He Hk Hi. rewrite Hf, (trimmed_lookup _ _ _ He).
    split; [done |]. intros Hr.
    assert (Hok : field_ok w (Some n) = true).
    { apply formIsValid_field; [done |]. rewrite <- Hf. simpl. tauto. }
    cbn [field_ok] in Hok. rewrite He in Hok.
    apply not_false_iff_true in Hok. rewrite validity_false in Hok.
    destruct (le_lt_dec 2 (String.length (JS.trim (el_value el)))) as [|Hlt];
      [done |].
    exfalso. apply Hok.
    destruct (JS.trim (el_value el)) eqn:Ht.
    + left. destruct Hr as [Hr | Hr]; done.
    + right. right. right. by split_and!.
  - unfold formIsValid in Hv. apply andb_true_iff in Hv as [_ Hr].
    by apply bool_decide_eq_true in Hr.
Qed.

Lemma valid_form_sends_checked_values_witness :
  let formData := collectFormData "2024-05-01T10:00:00.000Z" (Samples.filled None) in
  email_shape (email formData) /\ five_digits (zip formData).
Proof.
  intros formData. subst formData.
  destruct (valid_form_sends_checked_values "2024-05-01T10:00:00.000Z"
              (Samples.filled None) eq_refl)
    as (He & Hz & _).
  split.
  - apply (He 1 (Samples.input "email" "email" true "ada@example.org" 1));
      [reflexivity | reflexivity | reflexivity | by left].
  - apply (Hz 2 (Samples.input "zip" "text" true "12345" 2));
      [reflexivity | reflexivity | reflexivity | reflexivity | by left].
Defined.

End ValidationFacts.

(** ** Themes: a stylesheet always remains *)

Module ThemeFacts.

Import Customization Themes CustomizationFacts.

Lemma nodes_remove z l n :
  n ∈ node <$> remove_link z l <-> n ∈ node <$> l /\ n <> z.
Proof.
  unfold remove_link. induction l as [|k l IH]; cbn [List.filter fmap list_fmap].
  - split; [by intros ?%elem_of_nil | by intros [?%elem_of_nil _]].
  - destruct (Nat.eqb_spec (node k) z) as [e|ne]; cbn [negb fmap list_fmap].
    + rewrite IH, elem_of_cons. split; [tauto |]. intros [[->|?] ?]; tauto.
    + rewrite !elem_of_cons, IH. split; [| tauto].
      intros [->|[? ?]]; tauto.
Qed.

Lemma head_remove z l h :
  head (node <$> l) = Some h -> h <> z -> head (node <$> remove_link z l) = Some h.
Proof.
  destruct l as [|k l]; [done |]. cbn. intros [= <-] Hne.
  by destruct (Nat.eqb_spec (node k) z).
Qed.

Lemma settle_run i (h : Load -> JS.M Page unit) w :
  settle i h w
  = match loads w !! i with
    | Some ld => h ld (set_loads (delete i (loads w)) w)
    | None => (JS.Returns tt, w)
    end.
Proof.
  unfold settle. unfold JS.bind at 1, JS.gets at 1.
  by destruct (loads w !! i).
Qed.

(** What an event does to the links, the loads and the node counter. *)
Lemma step_links e w :
  (themeLinks (step w e) = themeLinks w /\ loads (step w e) = loads w
   /\ nextNode (step w e) = nextNode w)
  \/ (exists old rest name,
        themeLinks w = old :: rest
        /\ themeLinks (step w e)
           = old :: mkLink (nextNode w) ("css/style-" +:+ name +:+ ".css") :: rest
        /\ loads (step w e) = loads w ++ [mkLoad (nextNode w) (node old) name]
        /\ nextNode (step w e) = S (nextNode w))
  \/ (exists i ld z,
        loads w !! i = Some ld /\ (z = ld_old ld \/ z = ld_new ld)
        /\ themeLinks (step w e) = remove_link z (themeLinks w)
        /\ loads (step w e) = delete i (loads w)
        /\ nextNode (step w e) = nextNode w).
Proof.
  destruct e as [name | i | i |].
  - destruct (decide (name = EmptyString \/ name = currentTheme w)) as [Hs|Hs].
    { left. unfold step, JS.exec. cbn [handle]. by rewrite switchTheme_same. }
    destruct (themeLinks w) as [|old rest] eqn:El.
    + left. unfold step, JS.exec. cbn [handle]. unfold switchTheme, console_log.
      js_unfold. rewrite El. by destruct (negb _ || _).
    + right. left. exists old, rest, name.
      destruct (switchTheme_run w name old rest El) as (w' & E & ? & ? & _ & ? & _);
        [tauto | tauto |].
      unfold step, JS.exec. cbn [handle]. by rewrite E.
  - unfold step, JS.exec. cbn [handle]. rewrite settle_run.
    destruct (loads w !! i) as [ld|] eqn:E; [| by left].
    right. right. exists i, ld, (ld_old ld). split_and!; (done || by left).
  - unfold step, JS.exec. cbn [handle]. rewrite settle_run.
    destruct (loads w !! i) as [ld|] eqn:E; [| by left].
    right. right. exists i, ld, (ld_new ld). split_and!; (done || by right).
  - left. by destruct (timer_frame w) as (? & ? & _ & ? & _).
Qed.

Lemma loads_split (l : list Load) i ld :
  l !! i = Some ld ->
  exists A B, l = A ++ ld :: B /\ delete i l = A ++ B.
Proof.
  intros E. exists (take i l), (drop (S i) l).
  by rewrite (take_drop_middle _ _ _ E), delete_take_drop.
Qed.

(** The invariant after a link was inserted behind the first one. *)
Lemma coherent_switch w w' old rest name :
  themeLinks w = old :: rest ->
  themeLinks w' = old :: mkLink (nextNode w) ("css/style-" +:+ name +:+ ".css") :: rest ->
  loads w' = loads w ++ [mkLoad (nextNode w) (node old) name] ->
  nextNode w' = S (nextNode w) ->
  coherent w -> styled w -> coherent w' /\ styled w'.
Proof.
  intros El El' Eo' En' (Hn & Hl & Hd & Hh) (y & Hy & Hyl).
  unfold coherent, styled, nodes, loading in *.
  rewrite El in *. rewrite El', Eo', En'. cbn [fmap list_fmap] in *.
  rewrite fmap_app. cbn [fmap list_fmap ld_new].
  apply Forall_cons in Hn as [Hold Hrest].
  assert (Hnew : forall n, n ∈ ld_new <$> loads w -> n < nextNode w).
  { intros n (ld & -> & Hin)%list_elem_of_fmap.
    by apply (proj1 (Forall_forall _ _) Hl) in Hin as [_ ?]. }
  split; [split_and! |].
  - apply Forall_cons. split; [lia |].
    apply Forall_cons. split; [simpl; lia |].
    eapply Forall_impl; [exact Hrest |]. simpl. lia.
  - apply Forall_app. split.
    + eapply Forall_impl; [exact Hl |]. simpl. lia.
    + apply Forall_singleton. simpl. lia.
  - apply NoDup_app. split_and!; [done | | apply NoDup_singleton].
    intros n Hin Heq%list_elem_of_singleton. apply Hnew in Hin. lia.
  - apply Forall_app. split.
    + apply Forall_forall. intros ld Hin Ho.
      pose proof (proj1 (Forall_forall _ _) Hl _ Hin) as [Hlt1 Hlt2].
      pose proof (proj1 (Forall_forall _ _) Hh _ Hin) as Hhd.
      assert (Ho' : ld_old ld ∈ node old :: (node <$> rest)).
      { rewrite !elem_of_cons in Ho. rewrite elem_of_cons. simpl in Ho.
        destruct Ho as [?|[?|?]]; [tauto | lia | tauto]. }
      destruct (Hhd Ho') as [[= Hhead] Hin'].
      split; [by rewrite Hhead |].
      rewrite !elem_of_cons. rewrite elem_of_cons in Hin'. tauto.
    + apply Forall_singleton. simpl. intros _. split; [done |].
      rewrite !elem_of_cons. tauto.
  - exists y. split.
    + rewrite !elem_of_cons. rewrite elem_of_cons in Hy. tauto.
    + intros [Hin | Heq%list_elem_of_singleton]%elem_of_app; [done |].
      apply elem_of_cons in Hy as [Hy|Hy]; [lia |].
      apply (proj1 (Forall_forall _ _) Hrest) in Hy. lia.
Qed.

(** The invariant after a pending load was settled: its own link is taken
    out when it failed, and the link it replaces when it loaded. *)
Lemma coherent_settle w w' i ld z :
  loads w !! i = Some ld -> z = ld_old ld \/ z = ld_new ld ->
  themeLinks w' = remove_link z (themeLinks w) ->
  loads w' = delete i (loads w) ->
  nextNode w' = nextNode w ->
  coherent w -> styled w -> coherent w' /\ styled w'.
Proof.
  intros Ei Hz El' Eo' En' (Hn & Hl & Hd & Hh) (y & Hy & Hyl).
  destruct (loads_split _ _ _ Ei) as (A & B & EA & ED).
  unfold coherent, styled, nodes, loading in *.
  rewrite El', Eo', En', ED. rewrite EA in *. clear El' Eo' En' ED EA Ei.
  rewrite fmap_app in *. cbn [fmap list_fmap] in *.
  apply Forall_app in Hl as [HlA HlB%Forall_cons]. destruct HlB as [[Hlt Hltn] HlB].
  apply Forall_app in Hh as [HhA HhB%Forall_cons]. destruct HhB as [Hhld HhB].
  apply NoDup_app in Hd as (HdA & HdAB & HdB%NoDup_cons).
  destruct HdB as [HdnB HdB].
  assert (HnA : ld_new ld ∉ ld_new <$> A).
  { intros Hin. apply (HdAB _ Hin). by left. }
  assert (Hrest : forall l1, l1 ∈ A ++ B -> ld_new l1 <> ld_new ld).
  { intros l1 [Hin|Hin]%elem_of_app Heq.
    - apply HnA. rewrite <- Heq. by apply list_elem_of_fmap_2.
    - apply HdnB. rewrite <- Heq. by apply list_elem_of_fmap_2. }
  assert (Hall : forall l1, l1 ∈ A ++ B ->
            ld_old l1 ∈ node <$> themeLinks w ->
            head (node <$> themeLinks w) = Some (ld_old l1)
            /\ ld_new l1 ∈ node <$> themeLinks w).
  { intros l1 [Hin|Hin]%elem_of_app.
    - by apply (proj1 (Forall_forall _ _) HhA).
    - by apply (proj1 (Forall_forall _ _) HhB). }
  split; [split_and! |].
  - apply Forall_forall. intros n [Hin _]%nodes_remove.
    by apply (proj1 (Forall_forall _ _) Hn).
  - apply Forall_app. by split.
  - apply NoDup_app. split_and!; [done | | done].
    intros n Hin HinB. apply (HdAB _ Hin). by right.
  - apply Forall_forall. intros l1 Hin [Ho Hne]%nodes_remove.
    destruct (Hall _ Hin Ho) as [Hhead Hnew].
    split; [by apply head_remove |].
    apply nodes_remove. split; [done |].
    destruct Hz as [-> | ->]; [| by apply Hrest].
    intros Heq. rewrite Heq in Hnew.
    destruct (Hhld Hnew) as [Hhead' _]. congruence.
  - destruct (decide (y = z)) as [->|Hyz].
    + destruct Hz as [-> | ->].
      * exists (ld_new ld). destruct (Hhld Hy) as [_ Hin]. split.
        -- apply nodes_remove. split; [done | lia].
        -- by intros [?|?]%elem_of_app.
      * exfalso. apply Hyl. apply elem_of_app. right. by left.
    + exists y. split; [by apply nodes_remove |].
      intros [?|?]%elem_of_app; apply Hyl, elem_of_app; [by left |].
      right. by right.
Qed.

Lemma step_coherent e w :
  coherent w -> styled w -> coherent (step w e) /\ styled (step w e).
Proof.
  intros Hc Hs.
  destruct (step_links e w) as
    [(El & Eo & En) | [(old & rest & name & E & El & Eo & En)
                      | (i & ld & z & Ei & Hz & El & Eo & En)]].
  - unfold coherent, styled, nodes, loading in *. by rewrite El, Eo, En.
  - exact (coherent_switch w _ old rest name E El Eo En Hc Hs).
  - exact (coherent_settle w _ i ld z Ei Hz El Eo En Hc Hs).
Qed.

(** X16: in whatever order themes are asked for and their stylesheets
    load or fail, a theme stylesheet that has finished loading is always
    in the document. *)
Theorem a_loaded_stylesheet_remains (es : list event) (w : Page) :
  coherent w -> styled w ->
  styled (run es w) /\ themeLinks (run es w) <> [].
Proof.
  intros Hc Hs.
  assert (H : coherent (run es w) /\ styled (run es w)).
  { revert w Hc Hs. induction es as [|e es IH]; intros w Hc Hs; [done |].
    cbn [run fold_left]. fold (run es (step w e)).
    destruct (step_coherent e w Hc Hs). by apply IH. }
  destruct H as [_ H]. split; [done |].
  destruct H as (n & Hin & _). unfold nodes in Hin.
  intros E. rewrite E in Hin. by apply elem_of_nil in Hin.
Qed.

Lemma a_loaded_stylesheet_remains_witness :
  styled
    (run [SwitchTheme "modern"; SwitchTheme "warm"; Loaded 0; SwitchTheme "classic";
          Failed 0; Loaded 0; Timer]
       Samples.panel).
Proof.
  apply a_loaded_stylesheet_remains.
  - unfold coherent, nodes, loading. cbn. split_and!.
    + apply Forall_singleton. lia.
    + apply Forall_nil_2.
    + apply NoDup_nil_2.
    + apply Forall_nil_2.
  - exists 0. unfold nodes, loading. cbn. split.
    + apply list_elem_of_here.
    + apply not_elem_of_nil.
Defined.

End ThemeFacts.

(** ** Presets and colours *)

Module PresetFacts.

Import Customization CustomizationFacts.

(** The presets of the catalog are the four of the source. *)
Lemma own_preset (presetName : string) (p : Preset) :
  JS.own_property presets presetName = Some p ->
  (presetName, p) ∈ presets.
Proof.
  unfold presets. cbn [JS.own_property].
  destruct (String.eqb_spec "coffee" presetName) as [<-|_];
    [intros [= <-]; set_solver |].
  destruct (String.eqb_spec "modern" presetName) as [<-|_];
    [intros [= <-]; set_solver |].
  destruct (String.eqb_spec "earthy" presetName) as [<-|_];
    [intros [= <-]; set_solver |].
  destruct (String.eqb_spec "luxe" presetName) as [<-|_];
    [intros [= <-]; set_solver | done].
Qed.

(** A colour of the catalog is a valid simple colour written in capitals. *)
Lemma preset_colors (presetName : string) (p : Preset) :
  (presetName, p) ∈ presets ->
  Forall (fun c => valid_simple_color c = true
                   /\ JS.toUpperCase (JS.toLowerCase c) = c)
    [primary p; secondary p; accent p].
Proof.
  unfold presets. rewrite !elem_of_cons, elem_of_nil.
  intros [[= -> ->] | [[= -> ->] | [[= -> ->] | [[= -> ->] | []]]]];
    repeat constructor.
Qed.

Lemma chosen_color (c : string) (k : Picker) :
  valid_simple_color c = true -> JS.toUpperCase (JS.toLowerCase c) = c ->
  pk_color k = true ->
  chosen c k = mkPicker true (JS.toLowerCase c) ((fun _ => c) <$> pk_display k).
Proof.
  intros Hv Hu Hk. unfold chosen, assign_value, displayed.
  cbn [JS.to_string pk_color pk_value pk_display]. rewrite Hk, Hv.
  destruct (pk_display k); cbn; by rewrite ?Hu.
Qed.

(** X17: a preset of the catalog sets the three colour variables to its
    colours and leaves the other style properties alone; a colour input
    takes the colour in small letters and displays it in capitals. *)
Theorem preset_colors_applied (presetName : string) (p : Preset) (w : Page) :
  JS.own_property presets presetName = Some p ->
  let w' := JS.exec (applyPreset presetName) w in
  JS.eval (applyPreset presetName) w = JS.Returns tt
  /\ style w' !! "--primary-color" = Some (primary p)
  /\ style w' !! "--secondary-color" = Some (secondary p)
  /\ style w' !! "--accent-color" = Some (accent p)
  /\ (forall key,
        key ∉ ["--primary-color"; "--secondary-color"; "--accent-color"] ->
        style w' !! key = style w !! key)
  /\ (forall k, primaryColorPicker w = Some k -> pk_color k = true ->
        primaryColorPicker w'
        = Some (mkPicker true (JS.toLowerCase (primary p))
                  ((fun _ => primary p) <$> pk_display k)))
  /\ (forall k, secondaryColorPicker w = Some k -> pk_color k = true ->
        secondaryColorPicker w'
        = Some (mkPicker true (JS.toLowerCase (secondary p))
                  ((fun _ => secondary p) <$> pk_display k)))
  /\ (forall k, accentColorPicker w = Some k -> pk_color k = true ->
        accentColorPicker w'
        = Some (mkPicker true (JS.toLowerCase (accent p))
                  ((fun _ => accent p) <$> pk_display k))).
Proof.
  intros Hp w'. subst w'.
  destruct (applyPreset_known presetName p w Hp) as (Hr & Hs & H1 & H2 & H3).
  pose proof (preset_colors _ _ (own_preset _ _ Hp)) as Hc.
  apply Forall_cons in Hc as [[V1 U1] Hc].
  apply Forall_cons in Hc as [[V2 U2] Hc].
  apply Forall_cons in Hc as [[V3 U3] _].
  assert (T : forall c, valid_simple_color c = true -> JS.truthy c = true)
    by (by intros [|? ?]).
  unfold JS.eval, JS.exec. rewrite Hs, H1, H2, H3.
  rewrite !setProperty_insert by auto. split_and!.
  - done.
  - rewrite lookup_insert_ne by done. rewrite lookup_insert_ne by done.
    apply lookup_insert_eq.
  - rewrite lookup_insert_ne by done. apply lookup_insert_eq.
  - apply lookup_insert_eq.
  - intros key Hk. rewrite !not_elem_of_cons in Hk.
    destruct Hk as (? & ? & ? & _). by rewrite !lookup_insert_ne by done.
  - intros k -> Hk. cbn. by rewrite chosen_color.
  - intros k -> Hk. cbn. by rewrite chosen_color.
  - intros k -> Hk. cbn. by rewrite chosen_color.
Qed.

Lemma preset_colors_applied_witness :
  let w' := JS.exec (applyPreset "modern") Samples.panel in
  style w' !! "--primary-color" = Some "#3B82F6"
  /\ primaryColorPicker w' = Some (mkPicker true "#3b82f6" (Some "#3B82F6")).
Proof.
  intros w'. subst w'.
  destruct (preset_colors_applied "modern" (mkPreset "#3B82F6" "#10B981" "#F3F4F6")
              Samples.panel eq_refl)
    as (_ & H1 & _ & _ & _ & Hk & _).
  split; [exact H1 |].
  exact (Hk _ eq_refl eq_refl).
Defined.

(** X18: [hexToColor] gives a text that starts with [#], and gives it
    back when applied to it again. *)
Theorem hexToColor_normalises (hex : string) :
  JS.startsWith "#" (hexToColor hex) = true
  /\ hexToColor (hexToColor hex) = hexToColor hex.
Proof.
  assert (H : JS.startsWith "#" (hexToColor hex) = true).
  { destruct hex as [|c hex]; [by rewrite hexToColor_empty |].
    destruct (JS.startsWith "#" (String c hex)) eqn:E.
    - by rewrite hexToColor_prefixed.
    - by rewrite hexToColor_bare. }
  split; [done | by apply hexToColor_prefixed].
Qed.

End PresetFacts.

(** ** The panel: opening, closing and the focus *)

Module PanelFacts.

Import Panel.
Import Invariants InvariantFacts.

Lemma openPanel_run w :
  openPanel w
  = (JS.Returns tt,
     match panel w with
     | None => w
     | Some _ =>
         let w1 := set_classes true w in
         let w2 := if hasControl w then set_timers (timers w1 ++ [FirstControl]) w1
                   else w1 in
         JS.exec (console_log "Customization panel opened") w2
     end).
Proof.
  unfold openPanel, setTimeout, console_log. unfold JS.bind, JS.gets, JS.modify, JS.when, JS.ret, JS.exec.
  destruct (panel w); [| done]. by destruct (hasControl w).
Qed.

Lemma closePanel_run w :
  closePanel w
  = (JS.Returns tt,
     match panel w with
     | None => w
     | Some _ =>
         let w1 := set_classes false w in
         JS.exec (console_log "Customization panel closed")
           (set_timers (timers w1 ++ [OpenBtn]) w1)
     end).
Proof.
  unfold closePanel, setTimeout, console_log. unfold JS.bind, JS.gets, JS.modify, JS.ret, JS.exec.
  by destruct (panel w).
Qed.

(** *** The flag and the classes agree *)

Lemma in_sync_set_classes o w :
  (o = true -> is_Some (panel w)) -> in_sync (set_classes o w).
Proof.
  intros Hp. unfold in_sync. cbn. split_and!.
  - intros ->. destruct (panel w); [by eexists | by destruct (Hp eq_refl)].
  - intros o'. by destruct (panel w); intros [= <-].
  - intros o'. by destruct (mainContent w); intros [= <-].
  - intros o'. by destruct (openBtn w); intros [= <-].
Qed.

Lemma in_sync_frame w w' :
  panel w' = panel w -> mainContent w' = mainContent w ->
  openBtn w' = openBtn w -> isOpen w' = isOpen w ->
  in_sync w -> in_sync w'.
Proof. unfold in_sync. by intros -> -> -> ->. Qed.

Lemma keeps_in_sync_openPanel : keeps in_sync openPanel.
Proof.
  intros w Hw. unfold JS.exec. rewrite openPanel_run. cbn [snd].
  destruct (panel w) as [o|] eqn:E; [| done].
  assert (Hs : in_sync (set_classes true w)).
  { apply in_sync_set_classes. intros _. by rewrite E. }
  cbv zeta. destruct (hasControl w); by eapply in_sync_frame; [..| exact Hs].
Qed.

Lemma keeps_in_sync_closePanel : keeps in_sync closePanel.
Proof.
  intros w Hw. unfold JS.exec. rewrite closePanel_run. cbn [snd].
  destruct (panel w) as [o|] eqn:E; [| done].
  assert (Hs : in_sync (set_classes false w)) by by apply in_sync_set_classes.
  cbv zeta. by eapply in_sync_frame; [..| exact Hs].
Qed.

Lemma keeps_in_sync_contains b el path : keeps in_sync (contains b el path).
Proof. unfold contains. destruct b; auto with keeps. Qed.

Lemma keeps_in_sync_listener m : keeps in_sync m -> keeps in_sync (listener m).
Proof. intros H. apply keeps_try_catch; [done | intros; apply keeps_ret]. Qed.

Lemma keeps_in_sync_handle e : keeps in_sync (handle e).
Proof.
  destruct e as [path | key first | | width]; cbn [handle].
  - apply keeps_bind; [| intros _].
    + apply keeps_forEach. intros el. apply keeps_in_sync_listener.
      unfold onclick_at. apply keeps_bind; [apply keeps_gets | intros w].
      destruct el; try apply keeps_ret; apply keeps_when.
      * apply keeps_in_sync_openPanel.
      * apply keeps_in_sync_closePanel.
    + apply keeps_in_sync_listener. unfold onclick_document.
      apply keeps_bind; [apply keeps_gets | intros w].
      destruct (isOpen w && _); [| apply keeps_ret].
      apply keeps_bind; [apply keeps_in_sync_contains | intros b1].
      destruct (negb b1); [| apply keeps_ret].
      apply keeps_bind; [apply keeps_in_sync_contains | intros b2].
      apply keeps_when, keeps_in_sync_closePanel.
  - assert (H1 : keeps in_sync (listener (onkeydown key))).
    { apply keeps_in_sync_listener. unfold onkeydown.
      apply keeps_bind; [apply keeps_gets | intros w].
      apply keeps_when, keeps_in_sync_closePanel. }
    assert (H2 : keeps in_sync (listener (onkeydown_main key))).
    { apply keeps_in_sync_listener. unfold onkeydown_main.
      apply keeps_bind; [apply keeps_gets | intros w].
      apply keeps_when, keeps_in_sync_closePanel. }
    destruct first; by apply keeps_bind.
  - unfold ontimer. apply keeps_bind; [apply keeps_gets | intros w].
    destruct (timers w) as [|t rest]; [apply keeps_ret |].
    apply keeps_bind; [apply keeps_modify; intros s; by apply in_sync_frame |].
    intros _. destruct t; [| apply keeps_when];
      apply keeps_modify; intros s; by apply in_sync_frame.
  - apply keeps_modify. intros s. by apply in_sync_frame.
Qed.

(** X19: whatever is clicked and pressed, and whenever the timers run,
    the controller's flag and the classes on the panel, the main content
    and the open button keep saying the same. *)
Theorem panel_stays_in_sync (es : list event) (w : Page) :
  in_sync w -> in_sync (run es w).
Proof.
  revert w. induction es as [|e es IH]; intros w Hw; [done |].
  cbn [run fold_left]. apply IH. by apply keeps_in_sync_handle.
Qed.

Lemma panel_stays_in_sync_witness :
  in_sync
    (run [Click [OpenBtnEl; OtherEl]; Timer; Key "Escape" false;
          Click [OpenBtnEl; OtherEl]; Resize 1400; Click [OtherEl];
          Click [CloseBtnEl; PanelEl; OtherEl]]
       (initial true true 800)).
Proof.
  apply panel_stays_in_sync. unfold in_sync, initial. cbn. split_and!.
  - discriminate.
  - intros o H. by injection H.
  - intros o H. by injection H.
  - intros o H. by injection H.
Defined.

(** *** Escape *)

(** X20: Escape closes an open panel once, whichever of the two key
    listeners runs first, and no key does anything else. *)
Theorem escape_closes_once (key : string) (controllerFirst : bool) (w : Page) :
  in_sync w ->
  step w (Key key controllerFirst)
  = if String.eqb key "Escape" && isOpen w then JS.exec closePanel w else w.
Proof.
  intros Hs. destruct w as [p m b c h pc o wd ts f cs].
  destruct Hs as (H1 & H2 & _ & _). cbn in H1, H2.
  unfold step, handle, listener, onkeydown, onkeydown_main, closePanel,
    setTimeout, console_log.
  unfold JS.exec, JS.try_catch, JS.bind, JS.gets, JS.when, JS.modify, JS.ret.
  destruct (String.eqb key "Escape"), o, p as [[]|], controllerFirst, pc;
    cbn; try reflexivity;
    try (by destruct (H1 eq_refl)); by specialize (H2 _ eq_refl).
Qed.

Lemma escape_closes_once_witness :
  let w := step (initial true true 800) (Click [OpenBtnEl; OtherEl]) in
  isOpen w = true
  /\ step w (Key "Escape" true) = JS.exec closePanel w
  /\ step w (Key "Escape" false) = JS.exec closePanel w
  /\ isOpen (step w (Key "Escape" false)) = false.
Proof.
  intros w.
  assert (Hs : in_sync w).
  { unfold in_sync, w. cbn. split_and!.
    - intros _. by eexists.
    - intros o H. by injection H.
    - intros o H. by injection H.
    - intros o H. by injection H. }
  rewrite !(escape_closes_once "Escape" _ w Hs). by split_and!.
Defined.

(** *** Clicks *)

Lemma outside_listeners path w :
  outside path = true ->
  JS.forEach (fun el => listener (onclick_at el)) path w = (JS.Returns tt, w).
Proof.
  unfold outside. induction path as [|el path IH]; [done |].
  cbn [forallb JS.forEach]. intros [He Hp]%andb_true_iff.
  destruct el; try done. unfold JS.bind. cbn. by apply IH.
Qed.

Lemma outside_contains el path :
  el <> OtherEl -> outside path = true -> existsb (element_eqb el) path = false.
Proof.
  unfold outside. intros Hel. induction path as [|el' path IH]; [done |].
  cbn [forallb existsb]. intros [He Hp]%andb_true_iff.
  rewrite (IH Hp), orb_false_r. by destruct el, el'.
Qed.

Lemma openPanel_openBtn w :
  is_Some (openBtn w) -> is_Some (openBtn (JS.exec openPanel w)).
Proof.
  intros [h Hb]. unfold JS.exec. rewrite openPanel_run. cbn [snd].
  destruct (panel w); [| by eexists]. cbv zeta.
  destruct (hasControl w); cbn; rewrite Hb; by eexists.
Qed.

Lemma click_on_openBtn w :
  is_Some (openBtn w) ->
  listener (onclick_at OpenBtnEl) w = (JS.Returns tt, JS.exec openPanel w).
Proof.
  intros Hb. unfold listener, onclick_at, JS.try_catch, JS.bind, JS.gets, JS.when.
  rewrite bool_decide_eq_true_2 by done. unfold JS.exec.
  by rewrite openPanel_run.
Qed.

Lemma click_document_on_openBtn path w :
  in_sync w -> is_Some (openBtn w) -> outside path = true ->
  listener (onclick_document (OpenBtnEl :: path)) w = (JS.Returns tt, w).
Proof.
  intros (H1 & _) Hb Ho.
  unfold listener, onclick_document, contains.
  unfold JS.try_catch, JS.bind, JS.gets, JS.when, JS.ret, JS.throw.
  destruct (isOpen w && _) eqn:E; [| done].
  apply andb_true_iff in E as [E _].
  rewrite !bool_decide_eq_true_2 by auto.
  cbn [existsb element_eqb orb negb].
  by rewrite (outside_contains PanelEl path).
Qed.

(** X21: a click that goes through neither the panel nor its buttons
    closes the open panel when the window is at most 1024 wide and the
    open button exists, and does nothing otherwise; a click on the open
    button of the closed panel opens it, and the panel stays open. *)
Theorem clicks_open_and_close (w : Page) (path : list element) :
  in_sync w -> outside path = true ->
  step w (Click path)
  = (if isOpen w && (innerWidth w <=? 1024) && bool_decide (is_Some (openBtn w))
     then JS.exec closePanel w else w)
  /\ (is_Some (openBtn w) ->
      step w (Click (OpenBtnEl :: path)) = JS.exec openPanel w).
Proof.
  intros Hs Ho. unfold step, JS.exec. cbn [handle JS.forEach].
  pose proof (outside_contains PanelEl path) as HP.
  pose proof (outside_contains OpenBtnEl path) as HB.
  split.
  - rewrite (bind_returns _ _ _ _ _ (outside_listeners _ _ Ho)).
    destruct w as [p m b c h pc o wd ts f cs].
    destruct Hs as (H1 & H2 & _ & _). cbn in H1, H2.
    unfold listener, onclick_document, contains, closePanel, setTimeout,
      console_log.
    unfold JS.try_catch, JS.bind, JS.gets, JS.when, JS.modify, JS.ret, JS.throw.
    cbn. rewrite HP, HB by done.
    destruct o, (wd <=? 1024), p as [[]|], b as [[]|]; cbn; try reflexivity;
      by destruct (H1 eq_refl).
  - intros Hb.
    assert (E1 : JS.bind (listener (onclick_at OpenBtnEl))
                   (fun _ => JS.forEach (fun el => listener (onclick_at el)) path) w
                 = (JS.Returns tt, JS.exec openPanel w)).
    { rewrite (bind_returns _ _ _ _ _ (click_on_openBtn _ Hb)).
      by apply outside_listeners. }
    rewrite (bind_returns _ _ _ _ _ E1).
    rewrite click_document_on_openBtn; [done | | | done].
    + by apply keeps_in_sync_openPanel.
    + by apply openPanel_openBtn.
Qed.

Lemma clicks_open_and_close_witness :
  let w := step (initial true true 800) (Click [OpenBtnEl; OtherEl]) in
  isOpen w = true
  /\ isOpen (step w (Click [OtherEl; OtherEl])) = false
  /\ isOpen (step (step w (Resize 1400)) (Click [OtherEl; OtherEl])) = true.
Proof.
  intros w.
  assert (Hs : forall n, in_sync (set_innerWidth n w)).
  { intros n. unfold in_sync, w. cbn. split_and!.
    - intros _. by eexists.
    - intros o H. by injection H.
    - intros o H. by injection H.
    - intros o H. by injection H. }
  assert (Ho : outside [OtherEl; OtherEl] = true) by reflexivity.
  split; [reflexivity |]. split.
  - destruct (clicks_open_and_close _ _ (Hs 800) Ho) as [E _].
    change (set_innerWidth 800 w) with w in E. by rewrite E.
  - destruct (clicks_open_and_close _ _ (Hs 1400) Ho) as [E _].
    change (step w (Resize 1400)) with (set_innerWidth 1400 w). by rewrite E.
Defined.

(** *** The focus *)

Lemma timer_step w t rest :
  timers w = t :: rest ->
  timers (step w Timer) = rest
  /\ openBtn (step w Timer) = openBtn w
  /\ focus (step w Timer)
     = match t with
       | FirstControl => Some FirstControl
       | OpenBtn => if bool_decide (is_Some (openBtn w)) then Some OpenBtn
                    else focus w
       end.
Proof.
  intros E. unfold step, JS.exec. cbn [handle]. unfold ontimer.
  unfold JS.bind, JS.gets, JS.modify, JS.when, JS.ret. rewrite E.
  destruct t; [done |]. by destruct (bool_decide _).
Qed.

Lemma timers_run_out l t w :
  timers w = l ++ [t] ->
  (t = OpenBtn -> is_Some (openBtn w)) ->
  let w' := run (repeat Timer (S (length l))) w in
  timers w' = [] /\ focus w' = Some t.
Proof.
  revert w. induction l as [|t0 l IH]; intros w E Ht; cbn [app] in E.
  - cbn. destruct (timer_step w t [] E) as (Ht' & _ & Hf). split; [done |].
    rewrite Hf. destruct t; [done |].
    by rewrite bool_decide_eq_true_2 by auto.
  - destruct (timer_step w t0 (l ++ [t]) E) as (Ht' & Hb & _).
    cbn [length repeat run fold_left]. apply (IH (step w Timer) Ht').
    by rewrite Hb.
Qed.

(** X22: once the pending timers have run out, the focus is on the open
    button after the panel was closed, and on the first control of the
    panel after it was opened, whatever timers were pending before. *)
Theorem focus_follows_the_panel (w : Page) :
  is_Some (panel w) ->
  (is_Some (openBtn w) ->
   let w1 := JS.exec closePanel w in
   let w2 := run (repeat Timer (length (timers w1))) w1 in
   timers w2 = [] /\ focus w2 = Some OpenBtn)
  /\ (hasControl w = true ->
      let w1 := JS.exec openPanel w in
      let w2 := run (repeat Timer (length (timers w1))) w1 in
      timers w2 = [] /\ focus w2 = Some FirstControl).
Proof.
  intros [o Hp]. split.
  - intros [h Hb] w1 w2. subst w2 w1. unfold JS.exec.
    rewrite closePanel_run, Hp. cbn [snd]. cbv zeta.
    set (w1 := JS.exec _ _).
    assert (E : timers w1 = timers w ++ [OpenBtn]) by done.
    rewrite E, length_app, Nat.add_1_r.
    apply timers_run_out; [done |]. intros _. subst w1. cbn. rewrite Hb.
    by eexists.
  - intros Hc w1 w2. subst w2 w1. unfold JS.exec.
    rewrite openPanel_run, Hp, Hc. cbn [snd]. cbv zeta.
    set (w1 := JS.exec _ _).
    assert (E : timers w1 = timers w ++ [FirstControl]) by done.
    rewrite E, length_app, Nat.add_1_r.
    by apply timers_run_out.
Qed.

Lemma focus_follows_the_panel_witness :
  let w := step (initial true true 800) (Click [OpenBtnEl; OtherEl]) in
  let w1 := JS.exec closePanel w in
  timers w1 = [FirstControl; OpenBtn]
  /\ focus (run (repeat Timer (length (timers w1))) w1) = Some OpenBtn.
Proof.
  intros w w1. subst w1. split; [reflexivity |].
  destruct (focus_follows_the_panel w) as [H _]; [by eexists |].
  apply H. by eexists.
Defined.

End PanelFacts.

(** ** The rate limiters *)

Module UtilitiesFacts.

Import Utilities.

Section Limiters.

Context {Args : Type}.
Implicit Types (s : Debounced Args) (t : Throttled Args).

(** *** [debounce] *)

Lemma call_run immediate (args : Args) s :
  debounce_handle immediate (Call args) s
  = (JS.Returns tt,
     mkDebounced (Some (nextTimer s))
       (match timeout s with
        | Some i => List.filter (fun x => negb (fst x =? i)) (scheduled s)
        | None => scheduled s
        end ++ [(nextTimer s, args)])
       (S (nextTimer s))
       (if immediate && negb (bool_decide (is_Some (timeout s)))
        then invoked s ++ [args] else invoked s)).
Proof.
  cbn [debounce_handle]. unfold executedFunction, clearTimeout, setTimeout_later, func.
  unfold JS.bind, JS.gets, JS.modify, JS.when, JS.ret.
  destruct s as [[i|] sch next inv]; cbn; by destruct immediate.
Qed.

Lemma expire_run immediate s i args :
  scheduled s = [(i, args)] ->
  debounce_handle immediate (Expire 0) s
  = (JS.Returns tt,
     mkDebounced None [] (nextTimer s)
       (if immediate then invoked s else invoked s ++ [args])).
Proof.
  intros E. cbn [debounce_handle]. unfold later, func.
  unfold JS.bind, JS.gets, JS.modify, JS.when, JS.ret. rewrite E. cbn. rewrite E.
  by destruct immediate.
Qed.

Lemma one_timer_call immediate (args : Args) s :
  one_timer s ->
  scheduled (JS.exec (debounce_handle immediate (Call args)) s)
  = [(nextTimer s, args)].
Proof.
  intros Hs. unfold JS.exec. rewrite call_run. cbn.
  destruct Hs as [[-> ->] | (i & a & -> & ->)]; [done |].
  cbn. by rewrite Nat.eqb_refl.
Qed.

Lemma one_timer_step immediate (e : debounce_event Args) s :
  one_timer s -> one_timer (JS.exec (debounce_handle immediate e) s).
Proof.
  intros Hs. destruct e as [args | i].
  - right. exists (nextTimer s), args. split; [| by apply one_timer_call].
    unfold JS.exec. by rewrite call_run.
  - destruct Hs as [[Ht Hsch] | (j & a & Ht & Hsch)].
    + left. unfold JS.exec. cbn [debounce_handle].
      unfold JS.bind, JS.gets. by rewrite Hsch, lookup_nil.
    + destruct i as [|i].
      * left. unfold JS.exec. by rewrite (expire_run _ _ _ _ Hsch).
      * right. exists j, a. unfold JS.exec. cbn [debounce_handle].
        unfold JS.bind, JS.gets. by rewrite Hsch.
Qed.

(** X23: a debounced function has at most one timer scheduled, the one
    its closure remembers, whatever the calls and however late the timers
    run. *)
Theorem debounce_keeps_one_timer
  (immediate : bool) (es : list (debounce_event Args)) s :
  one_timer s -> one_timer (debounce_run immediate es s).
Proof.
  revert s. induction es as [|e es IH]; intros s Hs; [done |].
  cbn [debounce_run fold_left]. apply IH. by apply one_timer_step.
Qed.

Lemma last_cons_default (l : list Args) (a b : Args) :
  List.last (b :: l) a = List.last l b.
Proof.
  revert a b. induction l as [|c l IH]; intros a b; [done |].
  change (List.last (b :: c :: l) a) with (List.last (c :: l) a).
  by rewrite (IH a c), (IH b c).
Qed.

Lemma calls_run immediate (l : list Args) s :
  one_timer s ->
  let s' := debounce_run immediate (Call <$> l) s in
  one_timer s'
  /\ invoked s'
     = match l with
       | [] => invoked s
       | a :: _ =>
           if immediate && negb (bool_decide (is_Some (timeout s)))
           then invoked s ++ [a] else invoked s
       end
  /\ match l with
     | [] => True
     | a :: l' => exists i, scheduled s' = [(i, List.last l' a)]
     end.
Proof.
  revert s. induction l as [|a l IH]; intros s Hs; [done |].
  cbn [fmap list_fmap debounce_run fold_left].
  set (s1 := JS.exec (debounce_handle immediate (Call a)) s).
  assert (H1 : one_timer s1) by by apply one_timer_step.
  assert (Ht1 : timeout s1 = Some (nextTimer s)).
  { unfold s1, JS.exec. by rewrite call_run. }
  assert (Hi1 : invoked s1
    = if immediate && negb (bool_decide (is_Some (timeout s)))
      then invoked s ++ [a] else invoked s).
  { unfold s1, JS.exec. by rewrite call_run. }
  destruct (IH s1 H1) as (Ho & Hi & Hsch). fold (debounce_run immediate (Call <$> l) s1).
  split; [done |]. split.
  - rewrite Hi. destruct l as [|b l]; [done |].
    rewrite Ht1, bool_decide_eq_true_2 by (by eexists). cbn [negb].
    by rewrite andb_false_r.
  - destruct l as [|b l]; [| by rewrite last_cons_default].
    eexists. cbn. by apply one_timer_call.
Qed.

(** X24: of a burst of calls that the timer then ends, a debounced
    function invokes its function once: with the arguments of the last
    call of the burst, when the timer runs, or, made with [immediate],
    with those of the first call, at once; and its closure is then as it
    was before the burst. *)
Theorem debounce_invokes_once
  (immediate : bool) (a : Args) (l : list Args) s :
  timeout s = None -> scheduled s = [] ->
  let s' := debounce_run immediate ((Call <$> a :: l) ++ [Expire 0]) s in
  invoked s' = invoked s ++ [if immediate then a else List.last l a]
  /\ invoked (debounce_run immediate (Call <$> a :: l) s)
     = (if immediate then invoked s ++ [a] else invoked s)
  /\ timeout s' = None
  /\ scheduled s' = [].
Proof.
  intros Ht Hsch s'. subst s'.
  assert (E : debounce_run immediate ((Call <$> a :: l) ++ [Expire 0]) s
              = JS.exec (debounce_handle immediate (Expire 0))
                  (debounce_run immediate (Call <$> a :: l) s)).
  { unfold debounce_run. by rewrite fold_left_app. }
  rewrite E. clear E.
  destruct (calls_run immediate (a :: l) s) as (Ho & Hi & (i & Hs)).
  { by left. }
  rewrite Ht in Hi. rewrite bool_decide_eq_false_2 in Hi by (by intros [? ?]).
  cbn [negb] in Hi. rewrite andb_true_r in Hi.
  unfold JS.exec. rewrite (expire_run _ _ _ _ Hs). cbn [snd invoked timeout scheduled].
  rewrite Hi. by destruct immediate.
Qed.

(** *** [throttle] *)

Lemma invoke_run (args : Args) t :
  JS.exec (throttle_handle (Invoke args)) t
  = if inThrottle t then t
    else mkThrottled true (S (resets t)) (applied t ++ [args]).
Proof.
  unfold JS.exec. cbn [throttle_handle]. unfold throttled_call.
  unfold JS.bind, JS.gets, JS.modify, JS.when, JS.ret.
  by destruct (inThrottle t).
Qed.

Lemma reset_run t :
  JS.exec (throttle_handle (@Elapse Args)) t
  = if resets t =? 0 then t
    else mkThrottled false (pred (resets t)) (applied t).
Proof.
  unfold JS.exec. cbn [throttle_handle].
  unfold JS.bind, JS.gets, JS.modify, JS.when, JS.ret.
  by destruct (resets t =? 0).
Qed.

Lemma throttle_run_bound (es : list (throttle_event Args)) t :
  one_reset t ->
  let t' := throttle_run es t in
  one_reset t'
  /\ exists kept,
       applied t' = applied t ++ kept
       /\ sublist kept (invocations es)
       /\ length kept + (if inThrottle t' then 0 else 1)
          <= (if inThrottle t then 0 else 1) + expired es.
Proof.
  revert t. induction es as [|e es IH]; intros t Ht.
  - split; [done |]. exists []. rewrite app_nil_r. cbn. split_and!; [done | done |].
    destruct (inThrottle t); lia.
  - cbn [throttle_run fold_left].
    fold (throttle_run es (JS.exec (throttle_handle e) t)).
    destruct e as [args |].
    + rewrite invoke_run. unfold one_reset in Ht.
      destruct (inThrottle t) eqn:E.
      * destruct (IH t) as (Ho & kept & Ha & Hs & Hl); [by unfold one_reset; rewrite E |].
        split; [done |]. exists kept. split_and!; [done | |].
        -- cbn. by apply sublist_cons.
        -- rewrite E in Hl. exact Hl.
      * destruct (IH (mkThrottled true (S (resets t)) (applied t ++ [args])))
          as (Ho & kept & Ha & Hs & Hl).
        { unfold one_reset. cbn. by rewrite Ht. }
        split; [done |]. exists (args :: kept). split_and!.
        -- rewrite Ha. cbn. by rewrite <- app_assoc.
        -- cbn. by apply sublist_skip.
        -- cbn in *. unfold expired in *. cbn. lia.
    + rewrite reset_run. unfold one_reset in Ht.
      destruct (inThrottle t) eqn:E; rewrite Ht; cbn.
      * destruct (IH (mkThrottled false 0 (applied t))) as (Ho & kept & Ha & Hs & Hl);
          [done |].
        split; [done |]. exists kept. split_and!; [done | done |].
        cbn in *. unfold expired in *. cbn. lia.
      * destruct (IH t) as (Ho & kept & Ha & Hs & Hl); [by unfold one_reset; rewrite E |].
        split; [done |]. exists kept. split_and!; [done | done |].
        rewrite E in Hl. unfold expired in *. cbn. lia.
Qed.

Lemma throttle_first (es : list (throttle_event Args)) t :
  one_reset t -> inThrottle t = false -> applied t = [] ->
  head (applied (throttle_run es t)) = head (invocations es).
Proof.
  revert t. induction es as [|e es IH]; intros t Ht Hi Ha.
  - cbn. by rewrite Ha.
  - cbn [throttle_run fold_left].
    fold (throttle_run es (JS.exec (throttle_handle e) t)).
    destruct e as [args |].
    + rewrite invoke_run, Hi.
      destruct (throttle_run_bound es
                  (mkThrottled true (S (resets t)) (applied t ++ [args])))
        as (_ & kept & -> & _).
      { unfold one_reset in *. cbn. by rewrite Ht, Hi. }
      cbn. by rewrite Ha.
    + rewrite reset_run. unfold one_reset in Ht. rewrite Hi in Ht.
      rewrite Ht. cbn. apply IH; [| done | done].
      unfold one_reset. by rewrite Hi.
Qed.

Lemma throttle_run_snoc (es : list (throttle_event Args)) e t :
  throttle_run (es ++ [e]) t = JS.exec (throttle_handle e) (throttle_run es t).
Proof. unfold throttle_run. by rewrite fold_left_app. Qed.

(** X25: a throttled function applies its function to some of the calls,
    in their order, and at most once more than timers have run; the
    first call is among them.  A call made while it throttles is dropped
    and not deferred: it leaves the closure as it was, and the timer that
    ends the throttling applies nothing; a call made while it does not
    throttle is applied at once. *)
Theorem throttle_limits_the_rate (es : list (throttle_event Args)) :
  let t' := throttle_run es throttled in
  sublist (applied t') (invocations es)
  /\ length (applied t') <= S (expired es)
  /\ head (applied t') = head (invocations es)
  /\ resets t' = (if inThrottle t' then 1 else 0)
  /\ (forall args, inThrottle t' = true ->
        throttle_run (es ++ [Invoke args]) throttled = t')
  /\ (forall args, inThrottle t' = false ->
        applied (throttle_run (es ++ [Invoke args]) throttled)
        = applied t' ++ [args]
        /\ inThrottle (throttle_run (es ++ [Invoke args]) throttled) = true)
  /\ applied (throttle_run (es ++ [Elapse]) throttled) = applied t'
  /\ inThrottle (throttle_run (es ++ [Elapse]) throttled) = false.
Proof.
  intros t'. subst t'.
  destruct (throttle_run_bound es throttled eq_refl) as (Ho & kept & Ha & Hs & Hl).
  split_and!; [| | by apply throttle_first | done | | | |].
  - by rewrite Ha.
  - rewrite Ha. cbn in *. destruct (inThrottle _); lia.
  - intros args Hi. by rewrite throttle_run_snoc, invoke_run, Hi.
  - intros args Hi. by rewrite throttle_run_snoc, invoke_run, Hi.
  - rewrite throttle_run_snoc, reset_run. by destruct (_ =? 0).
  - rewrite throttle_run_snoc, reset_run. unfold one_reset in Ho.
    destruct (inThrottle (throttle_run es throttled)) eqn:E; rewrite Ho; cbn;
      done.
Qed.

End Limiters.

(** Two calls in a row and the timer: the second call is dropped, and the
    timer does not bring it back; the call after the timer is applied. *)
Lemma throttle_limits_the_rate_witness :
  applied (throttle_run ([Invoke 1; Invoke 2] ++ [Elapse]) throttled) = [1]
  /\ applied (throttle_run ([Invoke 1; Invoke 2; Elapse] ++ [Invoke 3]) throttled)
     = [1; 3].
Proof.
  split.
  - by destruct (throttle_limits_the_rate [Invoke 1; Invoke 2])
      as (_ & _ & _ & _ & _ & _ & -> & _).
  - by destruct (throttle_limits_the_rate [Invoke 1; Invoke 2; Elapse])
      as (_ & _ & _ & _ & _ & H & _); destruct (H 3 eq_refl) as [-> _].
Defined.

Lemma debounce_keeps_one_timer_witness :
  one_timer
    (debounce_run false [Call 1; Call 2; Expire 0; Expire 0; Call 3; Call 4]
       debounced).
Proof. apply debounce_keeps_one_timer. by left. Defined.

Lemma debounce_invokes_once_witness :
  invoked (debounce_run false ((Call <$> [1; 2; 3]) ++ [Expire 0]) debounced) = [3]
  /\ invoked (debounce_run true ((Call <$> [1; 2; 3]) ++ [Expire 0]) debounced) = [1].
Proof.
  split.
  - by destruct (debounce_invokes_once false 1 [2; 3] debounced eq_refl eq_refl)
      as (-> & _).
  - by destruct (debounce_invokes_once true 1 [2; 3] debounced eq_refl eq_refl)
      as (-> & _).
Defined.

End UtilitiesFacts.
